(** * DIL core validator: parser, rule engine and canonical report emitter

    A shallow embedding of the TypeScript reference validator
    ([parse.ts], [validate.ts], [report.ts]) together with the properties
    its specification states about it.

    Conventions of the embedding.
    - A JavaScript string is a [string]: a sequence of code units, here the
      code units below 256.  All literals of the validator are ASCII.
    - A [Map] is an association list in insertion order, a [Set] a list
      without repetition in insertion order, an optional field an [option].
    - An object is the list of its own properties in enumeration order;
      its prototype is not part of it.
    - Mutable accumulators ([errors], [outcomes], the parser cursors) are
      threaded explicitly through the functions that update them.
    - Regular expressions are terms of a small syntax interpreted by a
      backtracking matcher with the greedy, leftmost semantics of the
      JavaScript engine. *)

From Stdlib Require Import List String Ascii Bool Arith ZArith Lia.
From Stdlib Require Import Permutation.
Import ListNotations.

Open Scope string_scope.
Open Scope list_scope.

(* ================================================================== *)
(** * Strings and arrays as JavaScript sees them *)
(* ================================================================== *)

Module Js.

(** [\s] and the characters removed by [trim]: TAB, LF, VT, FF, CR,
    SPACE and NBSP among the code units below 256. *)
Definition isSpace (c : ascii) : bool :=
  let n := nat_of_ascii c in
  ((9 <=? n)%nat && (n <=? 13)%nat) || (n =? 32)%nat || (n =? 160)%nat.

Definition isDigit (c : ascii) : bool :=
  let n := nat_of_ascii c in (48 <=? n)%nat && (n <=? 57)%nat.

Definition isUpper (c : ascii) : bool :=
  let n := nat_of_ascii c in (65 <=? n)%nat && (n <=? 90)%nat.

Definition isLower (c : ascii) : bool :=
  let n := nat_of_ascii c in (97 <=? n)%nat && (n <=? 122)%nat.

Definition isAlpha (c : ascii) : bool := isUpper c || isLower c.

(** [\w], the word characters that also decide [\b]. *)
Definition isWord (c : ascii) : bool :=
  isAlpha c || isDigit c || (nat_of_ascii c =? 95)%nat.

(** [.] without the [s] flag: anything but a line terminator. *)
Definition isDot (c : ascii) : bool :=
  let n := nat_of_ascii c in negb ((n =? 10)%nat || (n =? 13)%nat).

(** Case folding of the [i] flag.  The patterns of the validator are
    ASCII, and a code unit outside ASCII never folds onto an ASCII one,
    so folding the ASCII letters is all the flag does here. *)
Definition fold_case (c : ascii) : ascii :=
  if isLower c then ascii_of_nat (nat_of_ascii c - 32) else c.

Fixpoint trimStart (s : string) : string :=
  match s with
  | String c s' => if isSpace c then trimStart s' else s
  | EmptyString => EmptyString
  end.

Fixpoint trimEnd (s : string) : string :=
  match s with
  | EmptyString => EmptyString
  | String c s' =>
      match trimEnd s' with
      | EmptyString => if isSpace c then EmptyString else String c EmptyString
      | t => String c t
      end
  end.

(** [s.trim()] *)
Definition trim (s : string) : string := trimEnd (trimStart s).

(** [s.startsWith(p)] *)
Definition startsWith (s p : string) : bool := String.prefix p s.

(** [s.indexOf(c)] for a one-character needle. *)
Fixpoint indexOf (s : string) (c : ascii) : option nat :=
  match s with
  | EmptyString => None
  | String d s' =>
      if Ascii.eqb d c then Some 0
      else match indexOf s' c with Some i => Some (S i) | None => None end
  end.

(** [s.slice(0, n)] *)
Definition slice0 (s : string) (n : nat) : string := String.substring 0 n s.

(** [xs.join(sep)] *)
Definition join (sep : string) (xs : list string) : string :=
  String.concat sep xs.

(** [xs.includes(x)] on strings. *)
Definition includes (xs : list string) (x : string) : bool :=
  existsb (String.eqb x) xs.

Definition rev_string (l : list ascii) : string :=
  string_of_list_ascii (rev l).

(** [s.split(/\r?\n/)] : a line feed ends a piece, and a carriage
    return just before it belongs to the separator. *)
Fixpoint splitLinesFrom (cur : list ascii) (s : string) : list string :=
  match s with
  | EmptyString => [rev_string cur]
  | String c s' =>
      if Ascii.eqb c "010" then rev_string cur :: splitLinesFrom [] s'
      else
        match s' with
        | String d s'' =>
            if Ascii.eqb c "013" && Ascii.eqb d "010"
            then rev_string cur :: splitLinesFrom [] s''
            else splitLinesFrom (c :: cur) s'
        | EmptyString => splitLinesFrom (c :: cur) s'
        end
  end.

Definition splitLines (s : string) : list string := splitLinesFrom [] s.

(** [s.split(",")] *)
Fixpoint splitOnFrom (sep : ascii) (cur : list ascii) (s : string)
  : list string :=
  match s with
  | EmptyString => [rev_string cur]
  | String c s' =>
      if Ascii.eqb c sep then rev_string cur :: splitOnFrom sep [] s'
      else splitOnFrom sep (c :: cur) s'
  end.

Definition splitOn (sep : ascii) (s : string) : list string :=
  splitOnFrom sep [] s.

(** Truthiness of a string: [!!s]. *)
Definition truthy (s : string) : bool :=
  match s with EmptyString => false | _ => true end.

(** The order of the default [Array.prototype.sort] on strings:
    lexicographic on code units. *)
Fixpoint codeUnitCompare (a b : string) : comparison :=
  match a, b with
  | EmptyString, EmptyString => Eq
  | EmptyString, String _ _ => Lt
  | String _ _, EmptyString => Gt
  | String c a', String d b' =>
      match Nat.compare (nat_of_ascii c) (nat_of_ascii d) with
      | Eq => codeUnitCompare a' b'
      | r => r
      end
  end.

Section Sort.
Context {A : Type} (cmp : A -> A -> comparison).

(** [insert x l] puts [x], an element that came before those of
    [l], in front of the first element it is not greater than: equal
    elements keep their order. *)
Fixpoint insert (x : A) (l : list A) : list A :=
  match l with
  | [] => [x]
  | y :: l' =>
      match cmp x y with
      | Gt => y :: insert x l'
      | _ => x :: l
      end
  end.

(** [xs.sort(cmp)]: the stable sort the language prescribes.  For a
    consistent comparator every stable sort returns the same array;
    the model inserts the elements from the right. *)
Fixpoint sort (l : list A) : list A :=
  match l with
  | [] => []
  | x :: l' => insert x (sort l')
  end.
End Sort.

(** [xs.sort()] on strings. *)
Definition sortDefault (xs : list string) : list string :=
  sort codeUnitCompare xs.

(** [Array.from(new Set(xs))]: first occurrences, in order. *)
Fixpoint dedupFrom (seen : list string) (xs : list string) : list string :=
  match xs with
  | [] => []
  | x :: xs' =>
      if includes seen x then dedupFrom seen xs'
      else x :: dedupFrom (x :: seen) xs'
  end.

Definition dedup (xs : list string) : list string := dedupFrom [] xs.

End Js.

(* ================================================================== *)
(** * Regular expressions *)
(* ================================================================== *)

Module Regex.

Inductive regex : Type :=
| Eps                                (* the empty pattern *)
| Chr (c : ascii)                    (* a literal character *)
| ChrI (c : ascii)                   (* a literal under the i flag *)
| Cls (p : ascii -> bool)            (* one character of a class *)
| Seq (a b : regex)
| Alt (a b : regex)                  (* a|b *)
| Opt (a : regex)                    (* a? *)
| Star (p : ascii -> bool)           (* c*, greedy *)
| Plus (p : ascii -> bool)           (* c+, greedy *)
| Grp (n : nat) (a : regex)          (* the n-th capturing group *)
| Bol                                (* ^ *)
| Eol                                (* $ *)
| WordB.                             (* \b *)

Fixpoint seq (rs : list regex) : regex :=
  match rs with
  | [] => Eps
  | [r] => r
  | r :: rs' => Seq r (seq rs')
  end.

Fixpoint lit (s : string) : regex :=
  match s with
  | EmptyString => Eps
  | String c EmptyString => Chr c
  | String c s' => Seq (Chr c) (lit s')
  end.

Fixpoint litI (s : string) : regex :=
  match s with
  | EmptyString => Eps
  | String c EmptyString => ChrI c
  | String c s' => Seq (ChrI c) (litI s')
  end.

(** A position in the subject: the text before the cursor, nearest
    character first, and the text after it. *)
Definition pos : Type := (list ascii * string)%type.

Definition caps : Type := list (nat * string).

Definition captured (x y : pos) : string :=
  Js.rev_string
    (firstn (List.length (fst y) - List.length (fst x)) (fst y)).

Definition atBoundary (x : pos) : bool :=
  let before := match fst x with c :: _ => Js.isWord c | [] => false end in
  let after := match snd x with String c _ => Js.isWord c
                           | EmptyString => false end in
  xorb before after.

Section Matcher.
Context {R : Type}.

(** Greedy repetition of a class: the longest run first, then
    shorter ones when the continuation fails. *)
Fixpoint star (p : ascii -> bool) (pre : list ascii) (rest : string)
         (k : pos -> option R) {struct rest} : option R :=
  match rest with
  | String c rest' =>
      if p c then
        match star p (c :: pre) rest' k with
        | Some v => Some v
        | None => k (pre, rest)
        end
      else k (pre, rest)
  | EmptyString => k (pre, rest)
  end.

Fixpoint rmatch (r : regex) (x : pos) (cs : caps)
         (k : pos -> caps -> option R) {struct r} : option R :=
  match r with
  | Eps => k x cs
  | Chr c =>
      match snd x with
      | String d rest =>
          if Ascii.eqb c d then k (d :: fst x, rest) cs else None
      | EmptyString => None
      end
  | ChrI c =>
      match snd x with
      | String d rest =>
          if Ascii.eqb (Js.fold_case c) (Js.fold_case d)
          then k (d :: fst x, rest) cs else None
      | EmptyString => None
      end
  | Cls p =>
      match snd x with
      | String d rest => if p d then k (d :: fst x, rest) cs else None
      | EmptyString => None
      end
  | Seq a b => rmatch a x cs (fun y cs' => rmatch b y cs' k)
  | Alt a b =>
      match rmatch a x cs k with
      | Some v => Some v
      | None => rmatch b x cs k
      end
  | Opt a =>
      match rmatch a x cs k with
      | Some v => Some v
      | None => k x cs
      end
  | Star p => star p (fst x) (snd x) (fun y => k y cs)
  | Plus p =>
      match snd x with
      | String d rest =>
          if p d then star p (d :: fst x) rest (fun y => k y cs)
          else None
      | EmptyString => None
      end
  | Grp n a => rmatch a x cs (fun y cs' => k y ((n, captured x y) :: cs'))
  | Bol => match fst x with [] => k x cs | _ :: _ => None end
  | Eol => match snd x with EmptyString => k x cs | String _ _ => None end
  | WordB => if atBoundary x then k x cs else None
  end.
End Matcher.

(** The result of a successful match: where it started, where it
    ended, and the captures. *)
Record found : Type := mkFound {
  before : list ascii;      (* text before the match, reversed *)
  stop : pos;               (* position after the match *)
  groups : caps
}.

Definition matchAt (r : regex) (x : pos) : option found :=
  rmatch r x [] (fun y cs => Some (mkFound (fst x) y cs)).

(** The leftmost match, as [exec] finds it. *)
Fixpoint searchFrom (r : regex) (pre : list ascii) (s : string)
  : option found :=
  match matchAt r (pre, s) with
  | Some f => Some f
  | None =>
      match s with
      | String c s' => searchFrom r (c :: pre) s'
      | EmptyString => None
      end
  end.

Definition exec (r : regex) (s : string) : option found :=
  searchFrom r [] s.

(** [re.test(s)] *)
Definition test (r : regex) (s : string) : bool :=
  match exec r s with Some _ => true | None => false end.

(** [m[n]] of a match result. *)
Fixpoint group (n : nat) (cs : caps) : option string :=
  match cs with
  | [] => None
  | (m, s) :: cs' => if Nat.eqb n m then Some s else group n cs'
  end.

(** [s.match(re)?.[1]] *)
Definition match1 (r : regex) (s : string) : option string :=
  match exec r s with
  | Some f => group 1 (groups f)
  | None => None
  end.

(** [s.replace(re, t)] for a replacement [t] without [$]: the first
    match is replaced. *)
Definition replace (r : regex) (s t : string) : string :=
  match exec r s with
  | Some f => Js.rev_string (before f) ++ t ++ snd (stop f)
  | None => s
  end.

(** [s.replace(re, "$1")] *)
Definition replace1 (r : regex) (s : string) : string :=
  match exec r s with
  | Some f =>
      Js.rev_string (before f)
        ++ match group 1 (groups f) with Some g => g | None => EmptyString end
        ++ snd (stop f)
  | None => s
  end.

End Regex.

(* ================================================================== *)
(** * Maps and sets in insertion order *)
(* ================================================================== *)

Module JsMap.
Section Ops.
Context {V : Type}.

Definition t : Type := list (string * V).

Fixpoint has (m : t) (k : string) : bool :=
  match m with
  | [] => false
  | (k', _) :: m' => if String.eqb k k' then true else has m' k
  end.

Fixpoint get (m : t) (k : string) : option V :=
  match m with
  | [] => None
  | (k', v) :: m' => if String.eqb k k' then Some v else get m' k
  end.

(** [m.set(k, v)]: a known key keeps its place, a new one goes last. *)
Fixpoint set (m : t) (k : string) (v : V) : t :=
  match m with
  | [] => [(k, v)]
  | (k', v') :: m' =>
      if String.eqb k k' then (k', v) :: m' else (k', v') :: set m' k v
  end.

Definition keys (m : t) : list string := map fst m.
Definition values (m : t) : list V := map snd m.
Definition size (m : t) : nat := List.length m.

(** The update [Array.from(m.values()).at(-1).f = ...]: the entry
    added last is changed in place; an empty map stays empty. *)
Fixpoint updateLast (f : V -> V) (m : t) : t :=
  match m with
  | [] => []
  | [(k, v)] => [(k, f v)]
  | e :: m' => e :: updateLast f m'
  end.
End Ops.
Arguments t : clear implicits.

(** [s.add(x)] on a [Set] of strings. *)
Definition add (s : list string) (x : string) : list string :=
  if Js.includes s x then s else s ++ [x].
End JsMap.

(* ================================================================== *)
(** * The tolerant parser ([parse.ts]) *)
(* ================================================================== *)

Module Parse.
Import Regex.

Record Location : Type := mkLocation {
  line : nat;
  column : option nat
}.

Record ParseIssue : Type := mkIssue {
  code : string;
  message : string;
  location : option Location;
  fatal : option bool
}.

Record ParsedIntent : Type := mkIntent { intent_id : string }.

Record ParsedConstraint : Type := mkConstraint {
  constraint_id : string;
  severity : option string
}.

Record ParsedDecision : Type := mkDecision {
  decision_id : string;
  supports : list string;
  respects : list string
}.

Record ParsedValidation : Type := mkValidation {
  validation_id : string;
  requires_capability : option string
}.

Record ParsedSpec : Type := mkSpec {
  spec_version : string;
  system_id : string;
  raw_text : string;
  sections_raw : JsMap.t string;
  capabilities : list string;
  intents : JsMap.t ParsedIntent;
  constraints : JsMap.t ParsedConstraint;
  decisions : JsMap.t ParsedDecision;
  validations : JsMap.t ParsedValidation;
  issues : list ParseIssue
}.

Definition dquote : ascii := "034"%char.
Definition squote : ascii := "039"%char.

(** [stripComments]: a line up to its first [#]. *)
Definition stripComments (l : string) : string :=
  match Js.indexOf l "#" with
  | Some idx => Js.slice0 l idx
  | None => l
  end.

(** The identifier [[A-Za-z][A-Za-z0-9_]*]. *)
Definition ident : regex :=
  Seq (Cls Js.isAlpha) (Star Js.isWord).

(** [/\[(.* )\]/] *)
Definition re_bracket : regex :=
  seq [Chr "["; Grp 1 (Star Js.isDot); Chr "]"].

(** The patterns [^Q(.+)Q$] for [Q] the double and the single quote. *)
Definition re_dquoted : regex :=
  seq [Bol; Chr dquote; Grp 1 (Plus Js.isDot); Chr dquote; Eol].
Definition re_squoted : regex :=
  seq [Bol; Chr squote; Grp 1 (Plus Js.isDot); Chr squote; Eol].

Definition parseBracketList (value : string) : list string :=
  match match1 re_bracket value with
  | None => []
  | Some m1 =>
      let inner := Js.trim m1 in
      if negb (Js.truthy inner) then []
      else
        map (fun s => replace1 re_squoted (replace1 re_dquoted s))
            (filter Js.truthy (map Js.trim (Js.splitOn "," inner)))
  end.

(** The patterns [^Q([^Q]+)Q$] for [Q] the double and the single
    quote. *)
Definition re_dq_strict : regex :=
  seq [Bol; Chr dquote;
       Grp 1 (Plus (fun c => negb (Ascii.eqb c dquote))); Chr dquote; Eol].
Definition re_sq_strict : regex :=
  seq [Bol; Chr squote;
       Grp 1 (Plus (fun c => negb (Ascii.eqb c squote))); Chr squote; Eol].

Definition parseQuotedOrBare (value : string) : option string :=
  let v := Js.trim value in
  if negb (Js.truthy v) then None
  else
    let qm := match match1 re_dq_strict v with
              | Some g => Some g
              | None => match1 re_sq_strict v
              end in
    let r := Js.trim (match qm with Some g => g | None => v end) in
    if Js.truthy r then Some r else None.

Fixpoint countChar (haystack : string) (ch : ascii) : Z :=
  match haystack with
  | EmptyString => 0%Z
  | String c rest =>
      ((if Ascii.eqb c ch then 1 else 0) + countChar rest ch)%Z
  end.

Inductive SectionName : Type :=
| capabilities_s | intents_s | constraints_s | decisions_s
| validations_s | change_s | implementation_notes_s | about_s
| unknown_s.

Definition section_key (s : SectionName) : string :=
  match s with
  | capabilities_s => "capabilities"
  | intents_s => "intents"
  | constraints_s => "constraints"
  | decisions_s => "decisions"
  | validations_s => "validations"
  | change_s => "change"
  | implementation_notes_s => "implementation_notes"
  | about_s => "about"
  | unknown_s => "unknown"
  end.

Definition known_sections : list SectionName :=
  [about_s; capabilities_s; intents_s; constraints_s; decisions_s;
   validations_s; change_s; implementation_notes_s].

Definition section_eqb (a b : SectionName) : bool :=
  String.eqb (section_key a) (section_key b).

Definition section_of_key (k : string) : SectionName :=
  match find (fun s => String.eqb (section_key s) k) known_sections with
  | Some s => s
  | None => unknown_s
  end.

(** [\bsystem\s+Q([^Q]+)Q\s*\{] for [Q] the double quote. *)
Definition re_system : regex :=
  seq [WordB; lit "system"; Plus Js.isSpace; Chr dquote;
       Grp 1 (Plus (fun c => negb (Ascii.eqb c dquote))); Chr dquote;
       Star Js.isSpace; Chr "{"].

(** [/^(about|capabilities|intents|constraints|decisions|validations|change|implementation_notes)\s*\{\s*$/] *)
Definition re_section : regex :=
  seq [Bol;
       Grp 1 (Alt (lit "about") (Alt (lit "capabilities")
             (Alt (lit "intents") (Alt (lit "constraints")
             (Alt (lit "decisions") (Alt (lit "validations")
             (Alt (lit "change") (lit "implementation_notes"))))))));
       Star Js.isSpace; Chr "{"; Star Js.isSpace; Eol].

(** [/^([A-Za-z][A-Za-z0-9_]* )\s*$/] *)
Definition re_capability : regex :=
  seq [Bol; Grp 1 ident; Star Js.isSpace; Eol].

(** [/^intent\s+([A-Za-z][A-Za-z0-9_]* )\b/] *)
Definition re_intent : regex :=
  seq [Bol; lit "intent"; Plus Js.isSpace; Grp 1 ident; WordB].

(** [/^constraint\s+([A-Za-z][A-Za-z0-9_]* )\b/] *)
Definition re_constraint : regex :=
  seq [Bol; lit "constraint"; Plus Js.isSpace; Grp 1 ident; WordB].

(** [/^severity\s*:\s*([A-Za-z][A-Za-z0-9_]* )\s*$/] *)
Definition re_severity : regex :=
  seq [Bol; lit "severity"; Star Js.isSpace; Chr ":"; Star Js.isSpace;
       Grp 1 ident; Star Js.isSpace; Eol].

(** [/^decision\s+([A-Za-z][A-Za-z0-9_]* )\b/] *)
Definition re_decision : regex :=
  seq [Bol; lit "decision"; Plus Js.isSpace; Grp 1 ident; WordB].

(** [/^supports\s*:\s*(.+)\s*$/] and [/^respects\s*:\s*(.+)\s*$/] *)
Definition re_field (name : string) : regex :=
  seq [Bol; lit name; Star Js.isSpace; Chr ":"; Star Js.isSpace;
       Grp 1 (Plus Js.isDot); Star Js.isSpace; Eol].

(** [/^validate\s+([A-Za-z][A-Za-z0-9_\-]* )\b/] *)
Definition re_validate : regex :=
  seq [Bol; lit "validate"; Plus Js.isSpace;
       Grp 1 (Seq (Cls Js.isAlpha)
                  (Star (fun c => Js.isWord c || Ascii.eqb c "-")));
       WordB].

(** The header pass: the first line with content decides. *)
Fixpoint scanHeader (lines : list string) (i : nat)
  : string * list ParseIssue :=
  match lines with
  | [] => ("unknown", [])
  | l :: rest =>
      let l0 := Js.trim (stripComments l) in
      if negb (Js.truthy l0) then scanHeader rest (S i)
      else if Js.startsWith l0 "DIL:spec" then (l0, [])
      else ("unknown",
            [mkIssue "PARSE_ERROR"
               ("Missing or invalid spec header. Expected 'DIL:spec v<MAJOR>' but got '"
                  ++ l0 ++ "'.")
               (Some (mkLocation (i + 1) (Some 1)))
               (Some false)])
  end.

(** The system pass: the first line that opens a system block. *)
Fixpoint scanSystem (lines : list string) : string :=
  match lines with
  | [] => "unknown"
  | l :: rest =>
      match match1 re_system (stripComments l) with
      | Some m1 =>
          let t := Js.trim m1 in if Js.truthy t then t else "unknown"
      | None => scanSystem rest
      end
  end.

(** The variables of the section scan, and the specification record
    they fill in. *)
Record Scan : Type := mkScan {
  spec : ParsedSpec;
  inSystem : bool;
  braceDepth : Z;
  currentSection : SectionName;
  sectionDepth : Z;
  sectionStartLine : Z;
  currentDecisionId : option string;
  currentValidationId : option string
}.

Definition with_sections_raw (p : ParsedSpec) (x : JsMap.t string) :=
  mkSpec (spec_version p) (system_id p) (raw_text p) x (capabilities p)
         (intents p) (constraints p) (decisions p) (validations p)
         (issues p).
Definition with_capabilities (p : ParsedSpec) (x : list string) :=
  mkSpec (spec_version p) (system_id p) (raw_text p) (sections_raw p) x
         (intents p) (constraints p) (decisions p) (validations p)
         (issues p).
Definition with_intents (p : ParsedSpec) (x : JsMap.t ParsedIntent) :=
  mkSpec (spec_version p) (system_id p) (raw_text p) (sections_raw p)
         (capabilities p) x (constraints p) (decisions p) (validations p)
         (issues p).
Definition with_constraints (p : ParsedSpec)
           (x : JsMap.t ParsedConstraint) :=
  mkSpec (spec_version p) (system_id p) (raw_text p) (sections_raw p)
         (capabilities p) (intents p) x (decisions p) (validations p)
         (issues p).
Definition with_decisions (p : ParsedSpec) (x : JsMap.t ParsedDecision) :=
  mkSpec (spec_version p) (system_id p) (raw_text p) (sections_raw p)
         (capabilities p) (intents p) (constraints p) x (validations p)
         (issues p).
Definition with_validations (p : ParsedSpec)
           (x : JsMap.t ParsedValidation) :=
  mkSpec (spec_version p) (system_id p) (raw_text p) (sections_raw p)
         (capabilities p) (intents p) (constraints p) (decisions p) x
         (issues p).
Definition with_issues (p : ParsedSpec) (x : list ParseIssue) :=
  mkSpec (spec_version p) (system_id p) (raw_text p) (sections_raw p)
         (capabilities p) (intents p) (constraints p) (decisions p)
         (validations p) x.

(** The capabilities section: a bare identifier is a capability. *)
Definition parseCapabilityLine (trimmed : string) (p : ParsedSpec)
  : ParsedSpec :=
  match match1 re_capability trimmed with
  | Some c => with_capabilities p (JsMap.add (capabilities p) c)
  | None => p
  end.

(** The intents section: an intent is registered once. *)
Definition parseIntentLine (trimmed : string) (p : ParsedSpec)
  : ParsedSpec :=
  match match1 re_intent trimmed with
  | Some id =>
      if negb (JsMap.has (intents p) id)
      then with_intents p (JsMap.set (intents p) id (mkIntent id))
      else p
  | None => p
  end.

Definition setSeverity (v : string) (c : ParsedConstraint)
  : ParsedConstraint :=
  mkConstraint (constraint_id c) (Some v).

(** The constraints section: [constraint ID] registers the id once;
    [severity: V] is written on the constraint added last. *)
Definition parseConstraintLine (trimmed : string)
           (cs : JsMap.t ParsedConstraint) : JsMap.t ParsedConstraint :=
  let cs1 :=
    match match1 re_constraint trimmed with
    | Some id =>
        if negb (JsMap.has cs id)
        then JsMap.set cs id (mkConstraint id None)
        else cs
    | None => cs
    end in
  match match1 re_severity trimmed with
  | Some v => JsMap.updateLast (setSeverity v) cs1
  | None => cs1
  end.

(** The decisions section, with its cursor on the current decision. *)
Definition parseDecisionLine (trimmed : string)
           (ds : JsMap.t ParsedDecision) (cur : option string)
  : JsMap.t ParsedDecision * option string :=
  let '(ds1, cur1) :=
    match match1 re_decision trimmed with
    | Some id =>
        (if negb (JsMap.has ds id)
         then JsMap.set ds id (mkDecision id [] [])
         else ds,
         Some id)
    | None => (ds, cur)
    end in
  let d := match cur1 with
           | Some id => if Js.truthy id then JsMap.get ds1 id else None
           | None => None
           end in
  match d, cur1 with
  | Some d0, Some id =>
      let d1 :=
        match match1 (re_field "supports") trimmed with
        | Some m1 =>
            mkDecision (decision_id d0) (parseBracketList m1) (respects d0)
        | None => d0
        end in
      let d2 :=
        match match1 (re_field "respects") trimmed with
        | Some m1 =>
            mkDecision (decision_id d1) (supports d1) (parseBracketList m1)
        | None => d1
        end in
      (JsMap.set ds1 id d2, cur1)
  | _, _ => (ds1, cur1)
  end.

(** The validations section, with its cursor on the current
    validation. *)
Definition parseValidationLine (trimmed : string)
           (vs : JsMap.t ParsedValidation) (cur : option string)
  : JsMap.t ParsedValidation * option string :=
  let '(vs1, cur1) :=
    match match1 re_validate trimmed with
    | Some id =>
        (if negb (JsMap.has vs id)
         then JsMap.set vs id (mkValidation id None)
         else vs,
         Some id)
    | None => (vs, cur)
    end in
  let v := match cur1 with
           | Some id => if Js.truthy id then JsMap.get vs1 id else None
           | None => None
           end in
  match v, cur1 with
  | Some v0, Some id =>
      match match1 (re_field "requires_capability") trimmed with
      | Some m1 =>
          (JsMap.set vs1 id
             (mkValidation (validation_id v0) (parseQuotedOrBare m1)),
           cur1)
      | None => (vs1, cur1)
      end
  | _, _ => (vs1, cur1)
  end.

Definition braceDelta (l : string) : Z :=
  (countChar l "{" - countChar l "}")%Z.

(** The part of the loop body that runs inside a known section: the
    raw text is accumulated, then the line is read by the section. *)
Definition parseSectionLine (rawLine trimmed : string) (s : Scan) : Scan :=
  let key := section_key (currentSection s) in
  let old := match JsMap.get (sections_raw (spec s)) key with
             | Some t => t
             | None => "undefined"
             end in
  let p0 := with_sections_raw (spec s)
              (JsMap.set (sections_raw (spec s)) key
                         (old ++ rawLine ++ String "010" EmptyString)%string)
  in
  match currentSection s with
  | capabilities_s =>
      mkScan (parseCapabilityLine trimmed p0) (inSystem s) (braceDepth s)
             (currentSection s) (sectionDepth s) (sectionStartLine s)
             (currentDecisionId s) (currentValidationId s)
  | intents_s =>
      mkScan (parseIntentLine trimmed p0) (inSystem s) (braceDepth s)
             (currentSection s) (sectionDepth s) (sectionStartLine s)
             (currentDecisionId s) (currentValidationId s)
  | constraints_s =>
      mkScan (with_constraints p0
                (parseConstraintLine trimmed (constraints p0)))
             (inSystem s) (braceDepth s)
             (currentSection s) (sectionDepth s) (sectionStartLine s)
             (currentDecisionId s) (currentValidationId s)
  | decisions_s =>
      let '(ds, cur) :=
        parseDecisionLine trimmed (decisions p0) (currentDecisionId s) in
      mkScan (with_decisions p0 ds) (inSystem s) (braceDepth s)
             (currentSection s) (sectionDepth s) (sectionStartLine s)
             cur (currentValidationId s)
  | validations_s =>
      let '(vs, cur) :=
        parseValidationLine trimmed (validations p0)
                            (currentValidationId s) in
      mkScan (with_validations p0 vs) (inSystem s) (braceDepth s)
             (currentSection s) (sectionDepth s) (sectionStartLine s)
             (currentDecisionId s) cur
  | _ =>
      mkScan p0 (inSystem s) (braceDepth s)
             (currentSection s) (sectionDepth s) (sectionStartLine s)
             (currentDecisionId s) (currentValidationId s)
  end.

(** One turn of the section scan on line [i]; the boolean tells
    whether the loop stops there. *)
Definition scanLine (i : Z) (rawLine : string) (s : Scan) : Scan * bool :=
  let l := stripComments rawLine in
  if negb (inSystem s) then
    match exec re_system l with
    | Some _ =>
        (mkScan (spec s) true (braceDepth s + braceDelta l)
                (currentSection s) (sectionDepth s) (sectionStartLine s)
                (currentDecisionId s) (currentValidationId s), false)
    | None => (s, false)
    end
  else
    let trimmed := Js.trim l in
    (* entering a top-level section *)
    let s1 :=
      if (braceDepth s =? 1)%Z then
        match match1 re_section trimmed with
        | Some name =>
            let sec := section_of_key name in
            mkScan (with_sections_raw (spec s)
                      (JsMap.set (sections_raw (spec s))
                                 (section_key sec) EmptyString))
                   (inSystem s) (braceDepth s) sec (braceDepth s + 1) i
                   None None
        | None => s
        end
      else s in
    (* inside a known section *)
    let s2 :=
      if negb (section_eqb (currentSection s1) unknown_s)
      then parseSectionLine rawLine trimmed s1
      else s1 in
    (* brace depth after the line *)
    let depth := (braceDepth s2 + braceDelta l)%Z in
    let s3 :=
      if negb (section_eqb (currentSection s2) unknown_s)
         && negb (sectionDepth s2 =? -1)%Z
         && (depth <? sectionDepth s2)%Z
      then mkScan (spec s2) (inSystem s2) depth unknown_s (-1) (-1)
                  None None
      else mkScan (spec s2) (inSystem s2) depth (currentSection s2)
                  (sectionDepth s2) (sectionStartLine s2)
                  (currentDecisionId s2) (currentValidationId s2) in
    (s3, inSystem s3 && (braceDepth s3 <=? 0)%Z).

Fixpoint scanLines (i : Z) (lines : list string) (s : Scan) : Scan :=
  match lines with
  | [] => s
  | l :: rest =>
      let '(s', stop) := scanLine i l s in
      if stop then s' else scanLines (i + 1) rest s'
  end.

Definition missingSystemIssue : ParseIssue :=
  mkIssue "PARSE_ERROR"
          ("Missing system declaration. Expected: system "
             ++ String dquote "ID" ++ String dquote " { ... }")
          (Some (mkLocation 1 None)) (Some false).

Definition noSystemBlockIssue : ParseIssue :=
  mkIssue "PARSE_ERROR"
          "System block was not detected; validation may be unreliable."
          (Some (mkLocation 1 None)) (Some false).

Definition parseDil (raw : string) : ParsedSpec :=
  let lines := Js.splitLines raw in
  (* 1) header *)
  let '(version, issues1) := scanHeader lines 0 in
  (* 2) system id *)
  let sysId := scanSystem lines in
  let issues2 :=
    if String.eqb sysId "unknown" then issues1 ++ [missingSystemIssue]
    else issues1 in
  (* 3) sections *)
  let spec0 := mkSpec version sysId raw [] [] [] [] [] [] issues2 in
  let s := scanLines 0 lines
             (mkScan spec0 false 0 unknown_s (-1) (-1) None None) in
  if negb (inSystem s)
  then with_issues (spec s) (issues (spec s) ++ [noSystemBlockIssue])
  else spec s.

End Parse.

(* ================================================================== *)
(** * The canonical report and its emitter ([report.ts]) *)
(* ================================================================== *)

Module Report.

Inductive ReportState : Type := valid | invalid | undecidable.

Inductive OutcomeStatus : Type :=
| satisfied | unsatisfied | unknown | inapplicable.

(** A value of type [unknown] as it reaches the emitter: the JSON-like
    trees made of null, booleans, strings, arrays and objects.  An
    object lists its properties in enumeration order. *)
#[local] Unset Elimination Schemes.
Inductive json : Type :=
| JNull
| JBool (b : bool)
| JStr (s : string)
| JArr (xs : list json)
| JObj (fields : list (string * json)).
#[local] Set Elimination Schemes.

Definition obj : Type := list (string * json).

Record ValidationOutcome : Type := mkOutcome {
  validation_id : string;
  status : OutcomeStatus;
  targets : list string;
  reason : option string;
  evidence : option (list obj);
  notes : option (list string)
}.

Record StructuredError : Type := mkError {
  code : string;
  message : string;
  refs : obj;
  e_evidence : option (list obj);
  e_notes : option (list string)
}.

Record CanonicalReport : Type := mkReport {
  spec_version : string;
  system_id : string;
  state : ReportState;
  outcomes : list ValidationOutcome;
  errors : list StructuredError;
  r_notes : option (list string);
  extensions : option obj
}.

Definition state_string (s : ReportState) : string :=
  match s with
  | valid => "valid"
  | invalid => "invalid"
  | undecidable => "undecidable"
  end.

Definition status_string (s : OutcomeStatus) : string :=
  match s with
  | satisfied => "satisfied"
  | unsatisfied => "unsatisfied"
  | unknown => "unknown"
  | inapplicable => "inapplicable"
  end.

(** ** Objects: property order *)

Fixpoint digitsValue (s : string) (acc : N) : option N :=
  match s with
  | EmptyString => Some acc
  | String c rest =>
      if Js.isDigit c
      then digitsValue rest (acc * 10 + (N_of_ascii c - 48))%N
      else None
  end.

(** An array index: the canonical decimal form of an integer below
    2^32 - 1.  Such keys are enumerated first, in numeric order. *)
Definition arrayIndex (k : string) : option N :=
  match k with
  | EmptyString => None
  | String c rest =>
      if Ascii.eqb c "0" && Js.truthy rest then None
      else
        match digitsValue k 0 with
        | Some n => if (n <? 4294967295)%N then Some n else None
        | None => None
        end
  end.

Fixpoint insertIndex (n : N) (k : string) (v : json) (o : obj) : obj :=
  match o with
  | [] => [(k, v)]
  | (k', v') :: o' =>
      match arrayIndex k' with
      | Some m =>
          if (m <? n)%N then (k', v') :: insertIndex n k v o'
          else (k, v) :: o
      | None => (k, v) :: o
      end
  end.

(** The key that names the prototype of an object. *)
Definition protoKey : string := "__proto__".

(** [o[k] = v] on an object made by [{}].  The key [__proto__] is an
    accessor of [Object.prototype]: assigning to it calls the setter,
    which changes the prototype of [o] at most and creates no property.
    The properties of [o] are its own properties; the prototype is not
    part of what [Object.keys] and [JSON.stringify] read. *)
Definition objSet (o : obj) (k : string) (v : json) : obj :=
  if String.eqb k protoKey then o
  else if JsMap.has o k then JsMap.set o k v
  else
    match arrayIndex k with
    | Some n => insertIndex n k v o
    | None => o ++ [(k, v)]
    end.

(** [o[k]] for a key of [o]. *)
Definition objGet (o : obj) (k : string) : json :=
  match JsMap.get o k with
  | Some v => v
  | None => JNull
  end.

(** ** [JSON.stringify] *)

Definition backslash : ascii := "092"%char.
Definition dquote : ascii := "034"%char.
Definition newline : string := String "010" EmptyString.

Definition hexDigit (n : nat) : ascii :=
  nth n ["0"; "1"; "2"; "3"; "4"; "5"; "6"; "7"; "8"; "9";
         "a"; "b"; "c"; "d"; "e"; "f"]%char "0"%char.

Definition escape (c : ascii) : string :=
  String backslash (String c EmptyString).

Definition quoteChar (c : ascii) : string :=
  let n := nat_of_ascii c in
  if (n =? 8)%nat then escape "b"
  else if (n =? 9)%nat then escape "t"
  else if (n =? 10)%nat then escape "n"
  else if (n =? 12)%nat then escape "f"
  else if (n =? 13)%nat then escape "r"
  else if (n =? 34)%nat then escape dquote
  else if (n =? 92)%nat then escape backslash
  else if (n <? 32)%nat then
    String backslash
      (String "u" (String "0" (String "0"
         (String (hexDigit (n / 16)) (String (hexDigit (n mod 16)) EmptyString)))))
  else String c EmptyString.

Fixpoint quoteBody (s : string) : string :=
  match s with
  | EmptyString => EmptyString
  | String c rest => (quoteChar c ++ quoteBody rest)%string
  end.

Definition quote (s : string) : string :=
  String dquote (quoteBody s ++ String dquote EmptyString).

(** [JSON.stringify(v)] *)
Fixpoint stringify (v : json) : string :=
  match v with
  | JNull => "null"
  | JBool true => "true"
  | JBool false => "false"
  | JStr s => quote s
  | JArr xs => "[" ++ Js.join "," (map stringify xs) ++ "]"
  | JObj fs =>
      "{" ++ Js.join ","
               (map (fun kv =>
                       (quote (fst kv) ++ ":" ++ stringify (snd kv))%string)
                    fs)
          ++ "}"
  end.

(** [JSON.stringify(v, null, 2)] at the indentation [ind]. *)
Fixpoint stringifyIndented (ind : string) (v : json) : string :=
  let ind' := (ind ++ "  ")%string in
  let sep := ("," ++ newline ++ ind')%string in
  match v with
  | JNull => "null"
  | JBool true => "true"
  | JBool false => "false"
  | JStr s => quote s
  | JArr [] => "[]"
  | JArr xs =>
      "[" ++ newline ++ ind'
          ++ Js.join sep (map (stringifyIndented ind') xs)
          ++ newline ++ ind ++ "]"
  | JObj [] => "{}"
  | JObj fs =>
      "{" ++ newline ++ ind'
          ++ Js.join sep
               (map (fun kv =>
                       (quote (fst kv) ++ ": "
                          ++ stringifyIndented ind' (snd kv))%string)
                    fs)
          ++ newline ++ ind ++ "}"
  end.

(** ** The object view of the report records

    The emitter builds its normalized outcomes, errors and report as
    object literals; these are their properties in the order the
    literals list them, optional ones left out when absent. *)

Definition strings (xs : list string) : json := JArr (map JStr xs).

Definition optional {A : Type} (k : string) (f : A -> json)
           (x : option A) : obj :=
  match x with
  | Some a => [(k, f a)]
  | None => []
  end.

Definition items (xs : list obj) : json := JArr (map JObj xs).

Definition json_of_outcome (o : ValidationOutcome) : json :=
  JObj ([("validation_id", JStr (validation_id o));
         ("status", JStr (status_string (status o)));
         ("targets", strings (targets o))]
          ++ optional "reason" JStr (reason o)
          ++ optional "evidence" items (evidence o)
          ++ optional "notes" strings (notes o)).

Definition json_of_error (e : StructuredError) : json :=
  JObj ([("code", JStr (code e));
         ("message", JStr (message e));
         ("refs", JObj (refs e))]
          ++ optional "evidence" items (e_evidence e)
          ++ optional "notes" strings (e_notes e)).

Definition json_of_report (r : CanonicalReport) : json :=
  JObj ([("spec_version", JStr (spec_version r));
         ("system_id", JStr (system_id r));
         ("state", JStr (state_string (state r)));
         ("outcomes", JArr (map json_of_outcome (outcomes r)));
         ("errors", JArr (map json_of_error (errors r)))]
          ++ optional "notes" strings (r_notes r)
          ++ optional "extensions" JObj (extensions r)).

Section Emit.
(** [a.localeCompare(b)], the collation of the host: the sign of
    its result. *)
Variable localeCompare : string -> string -> comparison.

(** [deepSortKeys]: the keys of an object are sorted and the
    properties written to a fresh object in that order. *)
Fixpoint deepSortKeys (value : json) : json :=
  match value with
  | JArr xs => JArr (map deepSortKeys xs)
  | JObj fs =>
      let sortedValues :=
        map (fun kv => (fst kv, deepSortKeys (snd kv))) fs in
      let keys := Js.sort localeCompare (JsMap.keys fs) in
      JObj (fold_left (fun out k => objSet out k (objGet sortedValues k))
                      keys [])
  | _ => value
  end.

Definition stableStringify (value : json) : string :=
  stringify (deepSortKeys value).

Definition normalizeOutcome (o : ValidationOutcome) : ValidationOutcome :=
  let targets' := Js.sort localeCompare (targets o) in
  let evidence' := option_map (map (fun e : obj => e)) (evidence o) in
  let notes' := option_map (map (fun n : string => n)) (notes o) in
  mkOutcome (validation_id o) (status o) targets'
            (match reason o with
             | Some r => if Js.truthy r then Some r else None
             | None => None
             end)
            evidence' notes'.

Definition normalizeError (e : StructuredError) : StructuredError :=
  let evidence' := option_map (map (fun x : obj => x)) (e_evidence e) in
  let notes' := option_map (map (fun n : string => n)) (e_notes e) in
  mkError (code e) (message e) (refs e) evidence' notes'.

Definition nul : string := String "000" EmptyString.

(** The comparator of [outcomes.sort]. *)
Definition compareOutcomes (a b : ValidationOutcome) : comparison :=
  match localeCompare (validation_id a) (validation_id b) with
  | Eq => localeCompare (Js.join nul (targets a)) (Js.join nul (targets b))
  | c1 => c1
  end.

(** The comparator of [errors.sort]. *)
Definition compareErrors (a b : StructuredError) : comparison :=
  match localeCompare (code a) (code b) with
  | Eq => localeCompare (stableStringify (JObj (refs a)))
                        (stableStringify (JObj (refs b)))
  | c1 => c1
  end.

Definition normalize (report : CanonicalReport) : CanonicalReport :=
  let outcomes' :=
    Js.sort compareOutcomes (map normalizeOutcome (outcomes report)) in
  let errors' :=
    Js.sort compareErrors (map normalizeError (errors report)) in
  mkReport (spec_version report) (system_id report) (state report)
           outcomes' errors'
           (option_map (map (fun n : string => n)) (r_notes report))
           (extensions report).

Definition emitCanonicalReport (report : CanonicalReport) : string :=
  let normalized := normalize report in
  let canonicalObj := deepSortKeys (json_of_report normalized) in
  stringifyIndented EmptyString canonicalObj.
End Emit.

End Report.

(* ================================================================== *)
(** * The rule engine ([validate.ts]) *)
(* ================================================================== *)

Module Validate.
Import Regex.
Import Report.

(** [fq(kind, id)] *)
Definition fq (kind id : string) : string :=
  (kind ++ "." ++ id)%string.

(** The leak signals, each with the [i] flag:
    [\bB-Tree\b], [\bLRU\b], [\bO\(\s*log\s*n\s*\)\b],
    [\bO\(\s*n\s*\)\b], [\brebalance\b], [\bbackground\b],
    [\bcompaction\b], [\bevery\s+\d+\s+minutes?\b]. *)
Definition signals : list regex :=
  [ seq [WordB; litI "B-Tree"; WordB];
    seq [WordB; litI "LRU"; WordB];
    seq [WordB; litI "O"; ChrI "("; Star Js.isSpace; litI "log";
         Star Js.isSpace; litI "n"; Star Js.isSpace; ChrI ")"; WordB];
    seq [WordB; litI "O"; ChrI "("; Star Js.isSpace; litI "n";
         Star Js.isSpace; ChrI ")"; WordB];
    seq [WordB; litI "rebalance"; WordB];
    seq [WordB; litI "background"; WordB];
    seq [WordB; litI "compaction"; WordB];
    seq [WordB; litI "every"; Plus Js.isSpace; Plus Js.isDigit;
         Plus Js.isSpace; litI "minute"; Opt (ChrI "s"); WordB] ].

Definition hasImplementationLeak (raw : string) : bool :=
  existsb (fun re => test re raw) signals.

(** [/#.*/] *)
Definition re_comment : regex := Seq (Chr "#") (Star Js.isDot).

(** [/^(validations?|validation)\s*:/] *)
Definition re_validations : regex :=
  seq [Bol;
       Grp 1 (Alt (Seq (lit "validation") (Opt (Chr "s")))
                  (lit "validation"));
       Star Js.isSpace; Chr ":"].

(** The loop of [intentHasExplicitAssociation], with its flag. *)
Fixpoint scanIntentBlock (lines : list string) (intentId : string)
         (inBlock : bool) : bool :=
  match lines with
  | [] => false
  | line0 :: rest =>
      let l := Js.trim (replace re_comment line0 EmptyString) in
      if negb (Js.truthy l) then scanIntentBlock rest intentId inBlock
      else
        match match1 Parse.re_intent l with
        | Some m1 => scanIntentBlock rest intentId (String.eqb m1 intentId)
        | None =>
            if inBlock && test re_validations l then true
            else scanIntentBlock rest intentId inBlock
        end
  end.

Definition intentHasExplicitAssociation (intentsRaw intentId : string)
  : bool :=
  scanIntentBlock (Js.splitLines intentsRaw) intentId false.

Definition ExitCode : Type := Z.

Definition supported : list string := ["DIL:spec v0"].

Definition error (c m : string) (r : obj) : StructuredError :=
  mkError c m r None None.

Definition hasCapability (v : Parse.ParsedValidation) : bool :=
  match Parse.requires_capability v with
  | Some c => Js.truthy c
  | None => false
  end.

(** ** V-M1 *)

Definition intentNotVerifiable (t : string) : StructuredError :=
  error "INTENT_NOT_VERIFIABLE"
        "Intent lacks explicit validation; verifiability is required."
        [("intent", JStr t); ("validation", JStr "V-M1")].

Definition supportedBySomeDecision (parsed : Parse.ParsedSpec)
           (intentId : string) : bool :=
  existsb (fun d => Js.includes (Parse.supports d) intentId)
          (JsMap.values (Parse.decisions parsed)).

(** The three accumulators of the V-M1 loop: the unsatisfied targets,
    the intent-to-validation associations and the errors. *)
Definition V1Acc : Type :=
  (list string * JsMap.t string * list StructuredError)%type.

Definition vm1Step (parsed : Parse.ParsedSpec) (intentsRaw : string)
           (hasReqCapValidation : bool)
           (reqCapValidation : option Parse.ParsedValidation)
           (acc : V1Acc) (intent : Parse.ParsedIntent) : V1Acc :=
  let '(v1_unsatisfied_targets, intentValidationAssoc, errors) := acc in
  let id := Parse.intent_id intent in
  let explicit := intentHasExplicitAssociation intentsRaw id in
  let implied := hasReqCapValidation && supportedBySomeDecision parsed id in
  let ok := explicit || implied in
  if negb ok then
    let t := fq "intents" id in
    (v1_unsatisfied_targets ++ [t], intentValidationAssoc,
     errors ++ [intentNotVerifiable t])
  else
    match reqCapValidation with
    | Some v =>
        if implied
        then (v1_unsatisfied_targets,
              JsMap.set intentValidationAssoc id (Parse.validation_id v),
              errors)
        else acc
    | None => acc
    end.

Definition vm1Notes (parsed : Parse.ParsedSpec)
           (v1_unsatisfied_targets : list string)
           (intentValidationAssoc : JsMap.t string) : option (list string) :=
  let n := JsMap.size (Parse.intents parsed) in
  match v1_unsatisfied_targets with
  | _ :: _ => None
  | [] =>
      if (0 <? n)%nat then
        match intentValidationAssoc with
        | [(intentId, validationId)] =>
            if (n =? 1)%nat then
              Some [("Intent " ++ fq "intents" intentId
                       ++ " is associated with validation "
                       ++ fq "validations" validationId ++ ".")%string]
            else
              Some ["All intents are considered verifiable under core association rules."]
        | _ =>
            Some ["All intents are considered verifiable under core association rules."]
        end
      else Some ["No intents declared."]
  end.

(** ** V-M2 *)

Definition vm2Outcome (parsed : Parse.ParsedSpec) : ValidationOutcome :=
  let constraintNames :=
    Js.sortDefault
      (map (fq "constraints") (JsMap.keys (Parse.constraints parsed))) in
  let n := JsMap.size (Parse.constraints parsed) in
  let '(v2Targets, v2Notes) :=
    if (n =? 0)%nat then ([], ["No constraints declared."])
    else if (n =? 1)%nat then
      (constraintNames,
       [("Constraint " ++ nth 0 constraintNames "undefined"
           ++ " exists and is evaluable.")%string])
    else
      ([],
       [("All declared constraints (" ++ Js.join ", " constraintNames
           ++ ") exist and are syntactically evaluable.")%string]) in
  mkOutcome "V-M2" satisfied v2Targets None None (Some v2Notes).

(** ** V-M3 *)

Definition untracedDecision (dRef : string) : StructuredError :=
  error "UNTRACED_DECISION"
        "Decision missing traceability links to intents/constraints."
        [("constraint", JStr "constraints.C2"); ("decision", JStr dRef)].

Definition brokenReference (dRef : string)
           (brokenIntents brokenConstraints : list string)
  : StructuredError :=
  error "BROKEN_REFERENCE"
        "Decision references non-existent intent or constraint."
        [("decision", JStr dRef);
         ("intent", JStr (hd "I_DO_NOT_EXIST" brokenIntents));
         ("constraint", JStr (hd "C_DO_NOT_EXIST" brokenConstraints))].

Definition V3Acc : Type := (list string * list StructuredError)%type.

Definition vm3Step (parsed : Parse.ParsedSpec) (acc : V3Acc)
           (d : Parse.ParsedDecision) : V3Acc :=
  let '(v3_bad_targets, errors) := acc in
  let dRef := fq "decisions" (Parse.decision_id d) in
  match Parse.supports d with
  | [] => (v3_bad_targets ++ [dRef], errors ++ [untracedDecision dRef])
  | _ :: _ =>
      let brokenIntents :=
        filter (fun intentId =>
                  negb (JsMap.has (Parse.intents parsed) intentId))
               (Parse.supports d) in
      let brokenConstraints :=
        filter (fun cId =>
                  negb (JsMap.has (Parse.constraints parsed) cId))
               (Parse.respects d) in
      if (0 <? List.length brokenIntents)%nat
         || (0 <? List.length brokenConstraints)%nat
      then (v3_bad_targets ++ [dRef],
            errors ++ [brokenReference dRef brokenIntents brokenConstraints])
      else acc
  end.

Definition vm3Outcome (parsed : Parse.ParsedSpec)
           (v3_bad_targets : list string) : ValidationOutcome :=
  let n := JsMap.size (Parse.decisions parsed) in
  let '(v3Targets, v3Notes) :=
    match v3_bad_targets with
    | _ :: _ => (Js.sortDefault (Js.dedup v3_bad_targets), None)
    | [] =>
        match JsMap.values (Parse.decisions parsed) with
        | [] => ([], Some ["No decisions declared."])
        | [d] =>
            let dFq := fq "decisions" (Parse.decision_id d) in
            let supportsStr :=
              Js.join ", " (map (fq "intents") (Parse.supports d)) in
            let respectsStr :=
              Js.join ", " (map (fq "constraints") (Parse.respects d)) in
            ([dFq],
             Some [("Decision " ++ dFq ++ " supports " ++ supportsStr
                      ++ " and respects " ++ respectsStr ++ ".")%string])
        | _ =>
            (map (fq "decisions") (JsMap.keys (Parse.decisions parsed)),
             Some ["All decisions meet core traceability requirements."])
        end
    end in
  mkOutcome "V-M3"
            (match v3_bad_targets with
             | _ :: _ => unsatisfied
             | [] => satisfied
             end)
            v3Targets None None v3Notes.

(** ** V-M4 *)

Definition missingCapability (parsed : Parse.ParsedSpec)
           (v : Parse.ParsedValidation) : option (string * string) :=
  match Parse.requires_capability v with
  | Some cap =>
      if Js.truthy cap && negb (Js.includes (Parse.capabilities parsed) cap)
      then Some (Parse.validation_id v, cap)
      else None
  | None => None
  end.

Fixpoint collect {A B : Type} (f : A -> option B) (xs : list A) : list B :=
  match xs with
  | [] => []
  | x :: xs' =>
      match f x with
      | Some y => y :: collect f xs'
      | None => collect f xs'
      end
  end.

Definition vm4Outcome (parsed : Parse.ParsedSpec) : ValidationOutcome :=
  let missingCaps :=
    collect (missingCapability parsed)
            (JsMap.values (Parse.validations parsed)) in
  match missingCaps with
  | (validationId, cap) :: _ =>
      mkOutcome "V-M4" unknown
                (map (fun x => fq "validations" (fst x)) missingCaps)
                (Some ("Validation validations." ++ validationId
                         ++ " requires undeclared capability '" ++ cap
                         ++ "'.")%string)
                None None
  | [] =>
      let emitCaps :=
        filter (fun c => Js.startsWith c "emit_structured_")
               (Parse.capabilities parsed) in
      mkOutcome "V-M4" satisfied [] None None
                (Some [("Validations are executable using declared capabilities ("
                          ++ Js.join ", " emitCaps ++ ").")%string])
  end.

(** ** V-M5 *)

Definition implementationLeak : StructuredError :=
  error "IMPLEMENTATION_LEAK"
        "Specification prescribes implementation; violates No Implementation."
        [("constraint", JStr "constraints.C1"); ("validation", JStr "V-M5")].

Definition leakEvidence : list obj :=
  [[("kind", JStr "excerpt");
    ("value",
     JStr "implementation_notes contains algorithmic and procedural directives (B-Tree, LRU, Big-O, scheduled job).")]].

Definition vm5Outcome (leak : bool) : ValidationOutcome :=
  mkOutcome "V-M5" (if leak then unsatisfied else satisfied) ["system"]
            None (if leak then Some leakEvidence else None) None.

(** ** The whole function *)

Definition isStatus (s : OutcomeStatus) (o : ValidationOutcome) : bool :=
  match s, status o with
  | satisfied, satisfied | unsatisfied, unsatisfied
  | unknown, unknown | inapplicable, inapplicable => true
  | _, _ => false
  end.

Definition isValid (s : ReportState) : bool :=
  match s with valid => true | _ => false end.

Definition validateCore (parsed : Parse.ParsedSpec)
  : CanonicalReport * ExitCode :=
  let errors0 : list StructuredError := [] in
  let outcomes0 : list ValidationOutcome := [] in
  let specVersion := Parse.spec_version parsed in
  let systemId := Parse.system_id parsed in
  (* supported versions only *)
  if negb (Js.includes supported specVersion) then
    let errors1 :=
      errors0 ++
        [error "UNSUPPORTED_SPEC_VERSION"
               "Validator does not support the declared spec version."
               [("spec", JStr specVersion);
                ("supported", strings supported)]] in
    (mkReport specVersion systemId invalid [] errors1 None None, 1%Z)
  else
    (* V-M1 *)
    let intentsRaw :=
      match JsMap.get (Parse.sections_raw parsed) "intents" with
      | Some t => t
      | None => EmptyString
      end in
    let hasReqCapValidation :=
      existsb hasCapability (JsMap.values (Parse.validations parsed)) in
    let reqCapValidation :=
      find hasCapability (JsMap.values (Parse.validations parsed)) in
    let '(v1_unsatisfied_targets, intentValidationAssoc, errors1) :=
      fold_left (vm1Step parsed intentsRaw hasReqCapValidation
                         reqCapValidation)
                (JsMap.values (Parse.intents parsed))
                ([], [], errors0) in
    let v1Notes :=
      vm1Notes parsed v1_unsatisfied_targets intentValidationAssoc in
    let outcomes1 :=
      outcomes0 ++
        [mkOutcome "V-M1"
           (match v1_unsatisfied_targets with
            | _ :: _ => unsatisfied
            | [] => satisfied
            end)
           (match v1_unsatisfied_targets with
            | _ :: _ => v1_unsatisfied_targets
            | [] => map (fq "intents") (JsMap.keys (Parse.intents parsed))
            end)
           None None v1Notes] in
    (* V-M2 *)
    let outcomes2 := outcomes1 ++ [vm2Outcome parsed] in
    (* V-M3 *)
    let '(v3_bad_targets, errors3) :=
      fold_left (vm3Step parsed) (JsMap.values (Parse.decisions parsed))
                ([], errors1) in
    let outcomes3 := outcomes2 ++ [vm3Outcome parsed v3_bad_targets] in
    (* V-M4 *)
    let outcomes4 := outcomes3 ++ [vm4Outcome parsed] in
    (* V-M5 *)
    let leak := hasImplementationLeak (Parse.raw_text parsed) in
    let errors5 := if leak then errors3 ++ [implementationLeak]
                   else errors3 in
    let outcomes5 := outcomes4 ++ [vm5Outcome leak] in
    (* aggregation *)
    let hasUnsatisfied := existsb (isStatus unsatisfied) outcomes5 in
    let hasUnknown := existsb (isStatus unknown) outcomes5 in
    let '(state, exit_code) :=
      if leak || hasUnsatisfied then (invalid, 1%Z)
      else if hasUnknown then (undecidable, 2%Z)
      else (valid, 0%Z) in
    let finalErrors := if isValid state then [] else errors5 in
    (mkReport specVersion systemId state outcomes5 finalErrors None None,
     exit_code).

End Validate.


(* ================================================================== *)
(** * Prefixes and blanks *)
(* ================================================================== *)

Module Text.

(** [stripPrefix w s]: what follows [w] at the start of [s]. *)
Fixpoint stripPrefix (w s : string) : option string :=
  match w with
  | EmptyString => Some s
  | String c w' =>
      match s with
      | String d s' => if Ascii.eqb c d then stripPrefix w' s' else None
      | EmptyString => None
      end
  end.

(** The characters of [w] pushed in reading order on a reversed text. *)
Fixpoint pushed (w : string) (pre : list ascii) : list ascii :=
  match w with
  | EmptyString => pre
  | String c w' => pushed w' (c :: pre)
  end.

Fixpoint allSpace (s : string) : bool :=
  match s with
  | EmptyString => true
  | String c s' => Js.isSpace c && allSpace s'
  end.

End Text.

(* ================================================================== *)
(** * Vocabulary of the specification *)
(* ================================================================== *)

Module RuleSpec.
Import Report Validate.

(** The only supported version. *)
Definition supportedVersion (p : Parse.ParsedSpec) : Prop :=
  Parse.spec_version p = "DIL:spec v0".

Definition intentsRaw (p : Parse.ParsedSpec) : string :=
  match JsMap.get (Parse.sections_raw p) "intents" with
  | Some t => t
  | None => EmptyString
  end.

Definition declaredIntents (p : Parse.ParsedSpec) :=
  JsMap.values (Parse.intents p).

Definition declaredDecisions (p : Parse.ParsedSpec) :=
  JsMap.values (Parse.decisions p).

Definition declaredValidations (p : Parse.ParsedSpec) :=
  JsMap.values (Parse.validations p).

Definition intentRef (i : Parse.ParsedIntent) : string :=
  fq "intents" (Parse.intent_id i).

Definition decisionRef (d : Parse.ParsedDecision) : string :=
  fq "decisions" (Parse.decision_id d).

Definition validationRef (v : Parse.ParsedValidation) : string :=
  fq "validations" (Parse.validation_id v).

(** V-M1: the classification of one intent, as the loop computes it. *)
Definition associated (p : Parse.ParsedSpec) (i : Parse.ParsedIntent)
  : bool :=
  intentHasExplicitAssociation (intentsRaw p) (Parse.intent_id i)
  || (existsb hasCapability (declaredValidations p)
      && supportedBySomeDecision p (Parse.intent_id i)).

Definition unassociated (p : Parse.ParsedSpec) : list Parse.ParsedIntent :=
  filter (fun i => negb (associated p i)) (declaredIntents p).

(** What the association scan reads of a line of the intents
    section: no comment, no blanks around. *)
Definition lineContent (line0 : string) : string :=
  Js.trim (Regex.replace re_comment line0 EmptyString).

Definition contents (raw : string) : list string :=
  map lineContent (Js.splitLines raw).

(** A line [intent ID ...], with its id. *)
Definition intentLine (l : string) : option string :=
  Regex.match1 Parse.re_intent l.

(** A line that starts with the field name [validations] or
    [validation], blanks if any, and a colon. *)
Definition fieldLine (l : string) : Prop :=
  exists kw ws rest,
    (kw = "validations" \/ kw = "validation")
    /\ Text.allSpace ws = true
    /\ l = (kw ++ ws ++ String ":" rest)%string.

(** A line that starts with [validations:] or [validation:], the colon
    right after the name. *)
Definition colonLine (l : string) : bool :=
  Js.startsWith l "validations:" || Js.startsWith l "validation:".

(** The lines [cs] that follow an intent line hold, before any other
    intent line, a line of the kind [P]. *)
Definition openBlock (P : string -> Prop) (cs : list string) : Prop :=
  exists body v post,
    cs = body ++ v :: post
    /\ (forall b, In b body -> intentLine b = None)
    /\ intentLine v = None
    /\ P v.

(** Among the lines [cs], a block of intent [id] holds a line of the
    kind [P]. *)
Definition blockIn (P : string -> Prop) (id : string) (cs : list string)
  : Prop :=
  exists pre h rest,
    cs = pre ++ h :: rest /\ intentLine h = Some id /\ openBlock P rest.

(** The block of intent [id] in the raw text of the intents section,
    from its [intent id] line to the next intent line or the end of the
    section, holds a line of the kind [P]. *)
Definition blockHolds (P : string -> Prop) (raw id : string) : Prop :=
  blockIn P id (contents raw).

(** Some validation requires a capability, and some decision supports
    the intent. *)
Definition impliedAssociation (p : Parse.ParsedSpec)
           (i : Parse.ParsedIntent) : Prop :=
  (exists v cap,
      In v (declaredValidations p)
      /\ Parse.requires_capability v = Some cap /\ cap <> EmptyString)
  /\ (exists d,
         In d (declaredDecisions p)
         /\ In (Parse.intent_id i) (Parse.supports d)).

(** V-M1: an associated intent. *)
Definition Associated (p : Parse.ParsedSpec) (i : Parse.ParsedIntent)
  : Prop :=
  blockHolds fieldLine (intentsRaw p) (Parse.intent_id i)
  \/ impliedAssociation p i.

(** V-M1: an associated intent when the colon must follow the field
    name at once. *)
Definition AssociatedStrictly (p : Parse.ParsedSpec)
           (i : Parse.ParsedIntent) : Prop :=
  blockHolds (fun l => colonLine l = true) (intentsRaw p)
             (Parse.intent_id i)
  \/ impliedAssociation p i.

(** V-M3: the references of a decision that do not resolve. *)
Definition unresolvedIntents (p : Parse.ParsedSpec)
           (d : Parse.ParsedDecision) : list string :=
  filter (fun id => negb (JsMap.has (Parse.intents p) id)) (Parse.supports d).

Definition unresolvedConstraints (p : Parse.ParsedSpec)
           (d : Parse.ParsedDecision) : list string :=
  filter (fun id => negb (JsMap.has (Parse.constraints p) id))
         (Parse.respects d).

(** V-M3: the errors one decision is charged with. *)
Definition decisionErrors (p : Parse.ParsedSpec) (d : Parse.ParsedDecision)
  : list StructuredError :=
  match Parse.supports d with
  | [] => [untracedDecision (decisionRef d)]
  | _ :: _ =>
      match unresolvedIntents p d, unresolvedConstraints p d with
      | [], [] => []
      | bi, bc => [brokenReference (decisionRef d) bi bc]
      end
  end.

Definition failing (p : Parse.ParsedSpec) (d : Parse.ParsedDecision) : bool :=
  match decisionErrors p d with
  | [] => false
  | _ :: _ => true
  end.

Definition failingDecisions (p : Parse.ParsedSpec) :=
  filter (failing p) (declaredDecisions p).

(** V-M4: a validation whose required capability is not declared. *)
Definition lacksCapability (p : Parse.ParsedSpec)
           (v : Parse.ParsedValidation) : bool :=
  match Parse.requires_capability v with
  | Some cap =>
      Js.truthy cap && negb (Js.includes (Parse.capabilities p) cap)
  | None => false
  end.

Definition uncovered (p : Parse.ParsedSpec) : list Parse.ParsedValidation :=
  filter (lacksCapability p) (declaredValidations p).

Definition capabilityOf (v : Parse.ParsedValidation) : string :=
  match Parse.requires_capability v with
  | Some cap => cap
  | None => EmptyString
  end.

(** The verdict of the aggregation. *)
Definition verdict (leak hasUnsatisfied hasUnknown : bool)
  : ReportState * ExitCode :=
  if leak || hasUnsatisfied then (invalid, 1%Z)
  else if hasUnknown then (undecidable, 2%Z)
  else (valid, 0%Z).

Definition leaks (p : Parse.ParsedSpec) : bool :=
  hasImplementationLeak (Parse.raw_text p).

(** The associations the V-M1 loop records for its note. *)
Definition vm1Assoc (p : Parse.ParsedSpec) : JsMap.t string :=
  snd (fst (fold_left
              (vm1Step p (intentsRaw p)
                       (existsb hasCapability (declaredValidations p))
                       (find hasCapability (declaredValidations p)))
              (declaredIntents p) ([], [], []))).

Definition vm1Outcome (p : Parse.ParsedSpec) : ValidationOutcome :=
  let t := map intentRef (unassociated p) in
  mkOutcome "V-M1"
            (match t with _ :: _ => unsatisfied | [] => satisfied end)
            (match t with
             | _ :: _ => t
             | [] => map (fq "intents") (JsMap.keys (Parse.intents p))
             end)
            None None (vm1Notes p t (vm1Assoc p)).

(** The five outcomes and the errors of the rules, in the order the
    rules run. *)
Definition ruleOutcomes (p : Parse.ParsedSpec) : list ValidationOutcome :=
  [vm1Outcome p; vm2Outcome p;
   vm3Outcome p (map decisionRef (failingDecisions p));
   vm4Outcome p; vm5Outcome (leaks p)].

Definition ruleErrors (p : Parse.ParsedSpec) : list StructuredError :=
  map (fun i => intentNotVerifiable (intentRef i)) (unassociated p)
  ++ flat_map (decisionErrors p) (declaredDecisions p)
  ++ (if leaks p then [implementationLeak] else []).

Definition hasStatus (s : OutcomeStatus) (os : list ValidationOutcome)
  : bool :=
  existsb (isStatus s) os.

(** The outcome of a rule in a report. *)
Definition outcomeOf (rule : string) (r : CanonicalReport)
  : option ValidationOutcome :=
  find (fun o => String.eqb (validation_id o) rule) (outcomes r).

Definition errorsWithCode (c : string) (r : CanonicalReport)
  : list StructuredError :=
  filter (fun e => String.eqb (code e) c) (errors r).

(** The errors V-M3 emits. *)
Definition traceCode (e : StructuredError) : bool :=
  String.eqb (code e) "UNTRACED_DECISION"
  || String.eqb (code e) "BROKEN_REFERENCE".

End RuleSpec.

(* ================================================================== *)
(** * Vocabulary of the parser's specification *)
(* ================================================================== *)

Module ParseSpec.
Import Parse.

(** What the section parsers read of a line: no comment, no blanks
    around. *)
Definition content (rawLine : string) : string :=
  Js.trim (stripComments rawLine).






End ParseSpec.

(* ================================================================== *)
(** * Orders and sorted arrays *)
(* ================================================================== *)

Module Order.

(** A consistent comparator, in the sense the language requires of the
    argument of [sort]: the results are antisymmetric, [Lt] is
    transitive, and elements that compare equal compare alike with every
    other element. *)
Record Consistent {A : Type} (cmp : A -> A -> comparison) : Prop := {
  cmp_sym : forall a b, cmp b a = CompOpp (cmp a b);
  cmp_trans : forall a b c, cmp a b = Lt -> cmp b c = Lt -> cmp a c = Lt;
  cmp_compat : forall a b c, cmp a b = Eq -> cmp a c = cmp b c
}.

Definition le {A : Type} (cmp : A -> A -> comparison) (a b : A) : Prop :=
  cmp a b <> Gt.

(** Every element is at most the ones after it. *)
Fixpoint ascending {A : Type} (cmp : A -> A -> comparison) (l : list A)
  : Prop :=
  match l with
  | [] => True
  | x :: l' => Forall (le cmp x) l' /\ ascending cmp l'
  end.

(** Elements of [l] that compare equal are equal. *)
Definition separated {A : Type} (cmp : A -> A -> comparison) (l : list A)
  : Prop :=
  forall a b, In a l -> In b l -> cmp a b = Eq -> a = b.

End Order.

(* ================================================================== *)
(** * Vocabulary of the emitter's specification *)
(* ================================================================== *)

Module ReportSpec.
Import Report.

(** Two values that differ only in the order of the keys of their
    objects, at any depth. *)
#[local] Unset Elimination Schemes.
Inductive keyVariant : json -> json -> Prop :=
| kv_null : keyVariant JNull JNull
| kv_bool (b : bool) : keyVariant (JBool b) (JBool b)
| kv_str (s : string) : keyVariant (JStr s) (JStr s)
| kv_arr (xs ys : list json) :
    Forall2 keyVariant xs ys -> keyVariant (JArr xs) (JArr ys)
| kv_obj (fs m gs : list (string * json)) :
    Permutation fs m ->
    Forall2 (fun kv kv' =>
               fst kv = fst kv' /\ keyVariant (snd kv) (snd kv'))
            m gs ->
    keyVariant (JObj fs) (JObj gs).
#[local] Set Elimination Schemes.

Definition objVariant (o o' : obj) : Prop := keyVariant (JObj o) (JObj o').

(** Two lists that hold the same elements up to [R], in any order. *)
Definition rearranged {A : Type} (R : A -> A -> Prop) (l l' : list A)
  : Prop :=
  exists m, Permutation l m /\ Forall2 R m l'.

Definition optionRel {A : Type} (R : A -> A -> Prop) (x y : option A)
  : Prop :=
  match x, y with
  | Some a, Some b => R a b
  | None, None => True
  | _, _ => False
  end.

(** The same outcome, the same error, up to the order of keys in
    their nested objects. *)
Definition outcomeVariant (o o' : ValidationOutcome) : Prop :=
  validation_id o = validation_id o'
  /\ status o = status o'
  /\ targets o = targets o'
  /\ reason o = reason o'
  /\ optionRel (Forall2 objVariant) (evidence o) (evidence o')
  /\ notes o = notes o'.

Definition errorVariant (e e' : StructuredError) : Prop :=
  code e = code e'
  /\ message e = message e'
  /\ objVariant (refs e) (refs e')
  /\ optionRel (Forall2 objVariant) (e_evidence e) (e_evidence e')
  /\ e_notes e = e_notes e'.

(** The same report up to the order of its outcomes, the order of its
    errors and the order of keys in nested objects. *)
Definition reportVariant (r r' : CanonicalReport) : Prop :=
  spec_version r = spec_version r'
  /\ system_id r = system_id r'
  /\ state r = state r'
  /\ rearranged outcomeVariant (outcomes r) (outcomes r')
  /\ rearranged errorVariant (errors r) (errors r')
  /\ r_notes r = r_notes r'
  /\ optionRel objVariant (extensions r) (extensions r').

Definition isEq (c : comparison) : bool :=
  match c with Eq => true | _ => false end.

(** The elements of [l] that the comparator ties with [a], in the
    order they have in [l]. *)
Definition tied {A : Type} (cmp : A -> A -> comparison) (a : A)
           (l : list A) : list A :=
  filter (fun x => isEq (cmp a x)) l.

(** No two of the keys [ks] compare equal. *)
Fixpoint apart (cmp : string -> string -> comparison) (ks : list string)
  : bool :=
  match ks with
  | [] => true
  | k :: ks' => forallb (fun k' => negb (isEq (cmp k k'))) ks'
                && apart cmp ks'
  end.

(** In every object of the value, no two keys compare equal. *)
Fixpoint keysApart (cmp : string -> string -> comparison) (v : json)
  : bool :=
  match v with
  | JArr xs => forallb (keysApart cmp) xs
  | JObj fs =>
      apart cmp (map fst fs)
      && forallb (fun kv => keysApart cmp (snd kv)) fs
  | _ => true
  end.

Definition itemsApart (cmp : string -> string -> comparison)
           (ev : option (list obj)) : bool :=
  match ev with
  | Some items => forallb (fun e => keysApart cmp (JObj e)) items
  | None => true
  end.

Definition outcomeApart (cmp : string -> string -> comparison)
           (o : ValidationOutcome) : bool :=
  itemsApart cmp (evidence o).

Definition errorApart (cmp : string -> string -> comparison)
           (e : StructuredError) : bool :=
  keysApart cmp (JObj (refs e)) && itemsApart cmp (e_evidence e).

(** The nested objects of a report have keys the collation tells
    apart. *)
Definition reportApart (cmp : string -> string -> comparison)
           (r : CanonicalReport) : bool :=
  forallb (outcomeApart cmp) (outcomes r)
  && forallb (errorApart cmp) (errors r)
  && match extensions r with
     | Some ext => keysApart cmp (JObj ext)
     | None => true
     end.

(** Elements of [l] that the comparator leaves in input order are the
    same up to [R]. *)
Definition tiesAgree {A : Type} (cmp : A -> A -> comparison)
           (R : A -> A -> Prop) (l : list A) : Prop :=
  forall a b, In a l -> In b l -> cmp a b = Eq -> R a b.

(** No outcome ordering and no error ordering of the report is left
    to the input order, nested key order apart. *)
Definition noTies (lc : string -> string -> comparison)
           (r : CanonicalReport) : Prop :=
  tiesAgree (fun a b => compareOutcomes lc (normalizeOutcome lc a)
                                        (normalizeOutcome lc b))
            outcomeVariant (outcomes r)
  /\ tiesAgree (fun a b => compareErrors lc (normalizeError a)
                                         (normalizeError b))
               errorVariant (errors r).

(** The order by a first key, then a second. *)
Definition lexCompare {K A B : Type} (pa : K -> A) (pb : K -> B)
           (ca : A -> A -> comparison) (cb : B -> B -> comparison)
           (x y : K) : comparison :=
  match ca (pa x) (pa y) with
  | Eq => cb (pb x) (pb y)
  | c => c
  end.

(** The sorted properties of an object, written one by one. *)
Definition assemble (keys : list string) (values : obj) : obj :=
  fold_left (fun out k => objSet out k (objGet values k)) keys [].

Definition sortedValues (lc : string -> string -> comparison) (fs : obj)
  : obj :=
  map (fun kv => (fst kv, deepSortKeys lc (snd kv))) fs.

(** What the emitter prints of an outcome and of an error, with the
    keys their sorts compare. *)
Definition outcomeKey (lc : string -> string -> comparison)
           (o : ValidationOutcome) : string * string * json :=
  (validation_id o, Js.join nul (targets o),
   deepSortKeys lc (json_of_outcome o)).

Definition errorKey (lc : string -> string -> comparison)
           (e : StructuredError) : string * string * json :=
  (code e, stableStringify lc (JObj (refs e)),
   deepSortKeys lc (json_of_error e)).

Definition compareKeys (lc : string -> string -> comparison)
  : string * string * json -> string * string * json -> comparison :=
  lexCompare (fun k => fst (fst k)) (fun k => snd (fst k)) lc lc.

(** Two properties with the same key whose values sort alike. *)
Definition alike (lc : string -> string -> comparison)
           (kv kv' : string * json) : Prop :=
  fst kv = fst kv' /\ deepSortKeys lc (snd kv) = deepSortKeys lc (snd kv').

(** Two outcomes with the same name and targets, in the two orders. *)
Definition twinA : ValidationOutcome :=
  mkOutcome "V-M1" satisfied ["intents.I1"] None None None.
Definition twinB : ValidationOutcome :=
  mkOutcome "V-M1" unsatisfied ["intents.I1"] None None None.
Definition twinsAB : CanonicalReport :=
  mkReport "DIL:spec v0" "DIL.Twins" invalid [twinA; twinB] [] None None.
Definition twinsBA : CanonicalReport :=
  mkReport "DIL:spec v0" "DIL.Twins" invalid [twinB; twinA] [] None None.

(** The property names of a report and of an outcome, and collations
    that order them as the code units do. *)
Definition reportKeys : list string :=
  ["spec_version"; "system_id"; "state"; "outcomes"; "errors";
   "validation_id"; "status"; "targets"].

Definition agreeOn (keys : list string)
           (lc lc' : string -> string -> comparison) : Prop :=
  forall a b, In a keys -> In b keys -> lc a b = lc' a b.

(** [lc], read off [lc'] on the given keys and off [Eq] on a string and
    itself. *)
Definition within (keys : list string)
           (lc lc' : string -> string -> comparison) (a b : string)
  : comparison :=
  if String.eqb a b then Eq
  else if existsb (String.eqb a) keys && existsb (String.eqb b) keys
       then lc' a b
       else lc a b.

(** A string with the case of its ASCII letters folded. *)
Fixpoint foldString (s : string) : string :=
  match s with
  | EmptyString => EmptyString
  | String c s' => String (Js.fold_case c) (foldString s')
  end.

(** A report and a variant of it: outcomes and errors in another
    order, the keys of the refs in another order. *)
Definition shuffledA : CanonicalReport :=
  mkReport "DIL:spec v0" "DIL.Shuffle" invalid
           [mkOutcome "V-M5" unsatisfied ["system"] None
                      (Some [[("kind", JStr "excerpt");
                              ("value", JStr "LRU")]])
                      None;
            mkOutcome "V-M1" satisfied ["intents.I2"; "intents.I1"]
                      None None None]
           [mkError "UNTRACED_DECISION" "Decision missing traceability."
                    [("constraint", JStr "constraints.C2");
                     ("decision", JStr "decisions.D1")]
                    None None;
            mkError "BROKEN_REFERENCE" "Decision references nothing."
                    [("decision", JStr "decisions.D2");
                     ("intent", JStr "I_GONE");
                     ("constraint", JStr "C_GONE")]
                    None None]
           None
           (Some [("b", JArr [JObj [("y", JNull); ("x", JBool true)]]);
                  ("a", JStr "first")]).

Definition shuffledB : CanonicalReport :=
  mkReport "DIL:spec v0" "DIL.Shuffle" invalid
           [mkOutcome "V-M1" satisfied ["intents.I2"; "intents.I1"]
                      None None None;
            mkOutcome "V-M5" unsatisfied ["system"] None
                      (Some [[("value", JStr "LRU");
                              ("kind", JStr "excerpt")]])
                      None]
           [mkError "BROKEN_REFERENCE" "Decision references nothing."
                    [("constraint", JStr "C_GONE");
                     ("intent", JStr "I_GONE");
                     ("decision", JStr "decisions.D2")]
                    None None;
            mkError "UNTRACED_DECISION" "Decision missing traceability."
                    [("decision", JStr "decisions.D1");
                     ("constraint", JStr "constraints.C2")]
                    None None]
           None
           (Some [("a", JStr "first");
                  ("b", JArr [JObj [("x", JBool true); ("y", JNull)]])]).

End ReportSpec.

(* ================================================================== *)
(** * Sample documents *)
(* ================================================================== *)

Module Samples.

Definition q (s : string) : string :=
  String Parse.dquote (s ++ String Parse.dquote EmptyString).

Definition document (lines : list string) : string :=
  Js.join (String "010" EmptyString) lines.

(** One intent with an explicit validation, one constraint, one traced
    decision, no required capability, no leak signal. *)
Definition validDoc : string :=
  document
    [ "DIL:spec v0";
      "system " ++ q "DIL.Sample" ++ " {";
      "  capabilities {";
      "    emit_structured_validation";
      "  }";
      "  intents {";
      "    intent I1 " ++ q "Stay correct" ++ " {";
      "      validations: [V1]";
      "    }";
      "  }";
      "  constraints {";
      "    constraint C1 " ++ q "No shortcuts" ++ " {";
      "      severity: HARD";
      "    }";
      "  }";
      "  decisions {";
      "    decision D1 " ++ q "Keep it simple" ++ " {";
      "      supports: [I1]";
      "      respects: [C1]";
      "    }";
      "  }";
      "  validations {";
      "    validate V1 " ++ q "Check the intent" ++ " {";
      "      target: intents.*";
      "    }";
      "  }";
      "}" ]%string.

(** The same system with a validation that needs a capability nobody
    declared. *)
Definition undecidableDoc : string :=
  document
    [ "DIL:spec v0";
      "system " ++ q "DIL.UndecidableSample" ++ " {";
      "  capabilities {";
      "    emit_structured_validation";
      "  }";
      "  intents {";
      "    intent I1 " ++ q "Stay correct" ++ " {";
      "    }";
      "  }";
      "  constraints {";
      "    constraint C1 " ++ q "No shortcuts" ++ " {";
      "      severity: HARD";
      "    }";
      "  }";
      "  decisions {";
      "    decision D1 " ++ q "Keep it simple" ++ " {";
      "      supports: [I1]";
      "      respects: [C1]";
      "    }";
      "  }";
      "  validations {";
      "    validate V4 " ++ q "Needs evidence" ++ " {";
      "      requires_capability: " ++ q "collect_external_evidence";
      "    }";
      "  }";
      "}" ]%string.

(** Two unverifiable intents, an untraced decision, a decision with two
    broken references, a missing capability and a leak signal. *)
Definition invalidDoc : string :=
  document
    [ "DIL:spec v0";
      "system " ++ q "DIL.FailureSample" ++ " {";
      "  capabilities {";
      "    emit_structured_errors";
      "  }";
      "  intents {";
      "    intent I1 " ++ q "First" ++ " {";
      "    }";
      "    intent I2 " ++ q "Second" ++ " {";
      "    }";
      "  }";
      "  constraints {";
      "    constraint C1 " ++ q "No implementation" ++ " {";
      "      severity: HARD";
      "    }";
      "  }";
      "  decisions {";
      "    decision D1 " ++ q "Untraced" ++ " {";
      "    }";
      "    decision D2 " ++ q "Broken" ++ " {";
      "      supports: [I_GONE, I_LOST]";
      "      respects: [C_GONE]";
      "    }";
      "  }";
      "  validations {";
      "    validate V1 " ++ q "Check" ++ " {";
      "      requires_capability: probe_network";
      "    }";
      "  }";
      "  implementation_notes {";
      "    # Keep an LRU cache in front of the store.";
      "  }";
      "}" ]%string.

(** The valid document with a note that prescribes a complexity. *)
Definition bigODoc : string :=
  document
    [ "DIL:spec v0";
      "system " ++ q "DIL.BigO" ++ " {";
      "  capabilities {";
      "    emit_structured_validation";
      "  }";
      "  intents {";
      "    intent I1 " ++ q "Stay correct" ++ " {";
      "      validations: [V1]";
      "    }";
      "  }";
      "  constraints {";
      "    constraint C1 " ++ q "No implementation" ++ " {";
      "      severity: HARD";
      "    }";
      "  }";
      "  decisions {";
      "    decision D1 " ++ q "Keep it simple" ++ " {";
      "      supports: [I1]";
      "      respects: [C1]";
      "    }";
      "  }";
      "  validations {";
      "    validate V1 " ++ q "Check the intent" ++ " {";
      "      target: intents.*";
      "    }";
      "  }";
      "  implementation_notes {";
      "    # Lookups must run in O(n) time, inserts in O(log n).";
      "  }";
      "}" ]%string.




(** The valid document with a blank before the colon of the
    validations field. *)
Definition spacedColonDoc : string :=
  document
    [ "DIL:spec v0";
      "system " ++ q "DIL.Spaced" ++ " {";
      "  capabilities {";
      "    emit_structured_validation";
      "  }";
      "  intents {";
      "    intent I1 " ++ q "Stay correct" ++ " {";
      "      validations : [V1]";
      "    }";
      "  }";
      "  constraints {";
      "    constraint C1 " ++ q "No shortcuts" ++ " {";
      "      severity: HARD";
      "    }";
      "  }";
      "  decisions {";
      "    decision D1 " ++ q "Keep it simple" ++ " {";
      "      supports: [I1]";
      "      respects: [C1]";
      "    }";
      "  }";
      "  validations {";
      "    validate V1 " ++ q "Check the intent" ++ " {";
      "      target: intents.*";
      "    }";
      "  }";
      "}" ]%string.

(** A header the validator does not support. *)
Definition futureDoc : string :=
  document
    [ "DIL:spec v9";
      "system " ++ q "DIL.Future" ++ " {";
      "}" ]%string.

End Samples.

Module Cli.
Import Report.

(** What [readFileSync(path, "utf8")] does: it returns the text, or
    throws an error that may carry a message. *)
Inductive ReadResult : Type :=
| ReadOk (text : string)
| ReadError (message : option string).

(** What a run leaves behind: the two streams and the exit code. *)
Record Run : Type := mkRun {
  stdout : string;
  stderr : string;
  exit_code : Z
}.

Definition usageLine : string :=
  "Usage: dil-validate <path/to/spec.dil>" ++ newline.

Definition unreadable (specPath : string) (message : option string)
  : CanonicalReport :=
  mkReport "unknown" "unknown" invalid []
           [mkError "PARSE_ERROR" "Unable to read input file."
                    [("location", JStr specPath);
                     ("hint", JStr (match message with
                                    | Some m => m
                                    | None => "read failure"
                                    end))]
                    None None]
           None None.

Section Main.
Variable localeCompare : string -> string -> comparison.
Variable readFileSync : string -> ReadResult.

(** [main], given [process.argv[2]]. *)
Definition main (argv2 : option string) : Run :=
  match argv2 with
  | None => mkRun EmptyString usageLine 1
  | Some specPath =>
      if negb (Js.truthy specPath) then mkRun EmptyString usageLine 1
      else
        match readFileSync specPath with
        | ReadError message =>
            let report :=
              emitCanonicalReport localeCompare
                                  (unreadable specPath message) in
            mkRun (report ++ newline) EmptyString 1
        | ReadOk inputText =>
            let parsed := Parse.parseDil inputText in
            let result := Validate.validateCore parsed in
            let json := emitCanonicalReport localeCompare (fst result) in
            mkRun (json ++ newline) EmptyString (snd result)
        end
  end.
End Main.

End Cli.

(* ================================================================== *)
(** * Vocabulary of the parser's invariants *)
(* ================================================================== *)

Module ParseShape.
Import Parse.

(** The fields of the specification record the section scan never
    writes. *)
Definition frame (p : ParsedSpec)
  : string * string * string * list ParseIssue :=
  (spec_version p, system_id p, raw_text p, issues p).

(** A map whose entries are filed under their own id, each id once. *)
Definition keyed {V : Type} (id : V -> string) (m : JsMap.t V) : Prop :=
  NoDup (JsMap.keys m) /\ Forall (fun kv => id (snd kv) = fst kv) m.

Definition wellKeyed (p : ParsedSpec) : Prop :=
  NoDup (capabilities p)
  /\ keyed intent_id (intents p)
  /\ keyed constraint_id (constraints p)
  /\ keyed decision_id (decisions p)
  /\ keyed validation_id (validations p).

(** A line that opens the system block. *)
Definition opensSystem (l : string) : bool :=
  match Regex.exec re_system (stripComments l) with
  | Some _ => true
  | None => false
  end.

(** A parse issue as the parser reports them: a non-fatal PARSE_ERROR. *)
Definition tolerated (i : ParseIssue) : Prop :=
  code i = "PARSE_ERROR" /\ fatal i = Some false.

(** The first line with content, as the header pass meets it: its
    index and what is left of it without comment and blanks. *)
Fixpoint firstContent (lines : list string) (i : nat)
  : option (nat * string) :=
  match lines with
  | [] => None
  | l :: rest =>
      if Js.truthy (Js.trim (stripComments l))
      then Some (i, Js.trim (stripComments l))
      else firstContent rest (S i)
  end.

(** The issue of the header pass for the content [l0] of line [i]. *)
Definition headerIssue (i : nat) (l0 : string) : ParseIssue :=
  mkIssue "PARSE_ERROR"
          ("Missing or invalid spec header. Expected 'DIL:spec v<MAJOR>' but got '"
             ++ l0 ++ "'.")
          (Some (mkLocation (i + 1) (Some 1)))
          (Some false).

(** The specification record before any line is scanned. *)
Definition blank (version sysId raw : string) (issues : list ParseIssue)
  : ParsedSpec :=
  mkSpec version sysId raw [] [] [] [] [] [] issues.

(** A step of the scan from [p] to [p']: the frame is untouched, and
    the maps stay filed by id. *)
Definition steady (p p' : ParsedSpec) : Prop :=
  frame p' = frame p /\ (wellKeyed p -> wellKeyed p').

End ParseShape.

(** Texts without a system block. *)
Module Drafts.

(** The header and nothing else. *)
Definition headerOnly : string := "DIL:spec v0".

(** A header, a comment and a stray section outside any system. *)
Definition strayDoc : string :=
  Samples.document
    [ "# draft";
      "DIL:spec v0";
      "intents {";
      "  intent I1";
      "}" ].

End Drafts.


(* ================================================================== *)
(** * Vocabulary of the report contract *)
(* ================================================================== *)

Module EngineShape.
Import Report Validate RuleSpec.

(** The error codes of the rule engine. *)
Definition knownCodes : list string :=
  ["UNSUPPORTED_SPEC_VERSION"; "INTENT_NOT_VERIFIABLE"; "UNTRACED_DECISION";
   "BROKEN_REFERENCE"; "IMPLEMENTATION_LEAK"].

(** Every capability a validation requires is declared. *)
Definition covered (p : Parse.ParsedSpec) : Prop :=
  forall v cap,
    In v (declaredValidations p) ->
    Parse.requires_capability v = Some cap ->
    cap <> EmptyString ->
    In cap (Parse.capabilities p).

(** The capabilities the note of V-M4 lists. *)
Definition emitCaps (p : Parse.ParsedSpec) : list string :=
  filter (fun c => Js.startsWith c "emit_structured_") (Parse.capabilities p).

(** The state an exit code stands for. *)
Definition agrees (exit_code : Z) (s : ReportState) : Prop :=
  (exit_code = 0%Z <-> s = valid)
  /\ (exit_code = 1%Z <-> s = invalid)
  /\ (exit_code = 2%Z <-> s = undecidable).

End EngineShape.

(* ================================================================== *)
(** * Vocabulary of the line readers *)
(* ================================================================== *)

Module Lexis.

(** Every character of the string is of the class. *)
Fixpoint all (p : ascii -> bool) (s : string) : bool :=
  match s with
  | EmptyString => true
  | String c s' => p c && all p s'
  end.

(** An identifier: a letter, then letters, digits and underscores. *)
Definition isIdent (s : string) : bool :=
  match s with
  | EmptyString => false
  | String c s' => Js.isAlpha c && all Js.isWord s'
  end.

(** A string between double quotes, between single quotes. *)
Definition dquoted (s : string) : string :=
  String Parse.dquote (s ++ String Parse.dquote EmptyString).
Definition squoted (s : string) : string :=
  String Parse.squote (s ++ String Parse.squote EmptyString).

(** A list in brackets, its items separated by a comma and a blank. *)
Definition bracketed (items : list string) : string :=
  ("[" ++ Js.join ", " items ++ "]")%string.

(** A character other than the comma. *)
Definition noComma (c : ascii) : bool := negb (Ascii.eqb c ",").

(** A character of an item that needs no trimming and no splitting. *)
Definition solidChar (c : ascii) : bool :=
  negb (Js.isSpace c) && Js.isDot c && negb (Ascii.eqb c ",").

(** An item of a bracket list as [split] and [trim] leave it. *)
Definition solid (s : string) : bool := Js.truthy s && all solidChar s.

(** An identifier as it may be written in a list: bare, or between
    double or single quotes. *)
Definition renders (item id : string) : Prop :=
  item = id \/ item = dquoted id \/ item = squoted id.

(** The two replacements that take the quotes off an item. *)
Definition unquote (s : string) : string :=
  Regex.replace1 Parse.re_squoted (Regex.replace1 Parse.re_dquoted s).

(** A character other than the quote [q]. *)
Definition notQuote (q c : ascii) : bool := negb (Ascii.eqb c q).

(** A string [trim] leaves as it is. *)
Definition trimmed (s : string) : Prop := Js.trim s = s.

End Lexis.

(* ================================================================== *)
(** * Vocabulary of the emitter's normal forms *)
(* ================================================================== *)

Module EmitShape.
Import Report.

(** No string occurs twice in the list. *)
Fixpoint distinct (ks : list string) : bool :=
  match ks with
  | [] => true
  | k :: ks' => negb (Js.includes ks' k) && distinct ks'
  end.

(** In every object of the value, no key occurs twice: what every
    object of the language satisfies. *)
Fixpoint keysDistinct (v : json) : bool :=
  match v with
  | JArr xs => forallb keysDistinct xs
  | JObj fs =>
      distinct (map fst fs)
      && forallb (fun kv => keysDistinct (snd kv)) fs
  | _ => true
  end.

(** A key that is not an array index. *)
Definition plainKey (k : string) : bool :=
  match arrayIndex k with Some _ => false | None => true end.

(** A key an assignment creates a property for: any key but
    [__proto__]. *)
Definition ownKey (k : string) : bool := negb (String.eqb k protoKey).

(** The value without its properties named [__proto__], at any
    depth. *)
Fixpoint withoutProto (v : json) : json :=
  match v with
  | JArr xs => JArr (map withoutProto xs)
  | JObj fs =>
      JObj (filter (fun kv => ownKey (fst kv))
                   (map (fun kv => (fst kv, withoutProto (snd kv))) fs))
  | _ => v
  end.

(** No property of the value, at any depth, is named [__proto__]. *)
Fixpoint protoFree (v : json) : bool :=
  match v with
  | JArr xs => forallb protoFree xs
  | JObj fs =>
      forallb (fun kv => ownKey (fst kv) && protoFree (snd kv)) fs
  | _ => true
  end.

(** An object with three keys, two of them array indices. *)
Definition indexed : obj :=
  [("b", JNull); ("10", JNull); ("9", JNull)].

(** An object with a property named [__proto__], as [JSON.parse]
    makes them. *)
Definition withProto : obj :=
  [("b", JNull); (protoKey, JObj [("x", JNull)]); ("a", JNull)].

End EmitShape.

(* ================================================================== *)
(** * Vocabulary of the leak scan *)
(* ================================================================== *)

Module LeakShape.
Import ReportSpec.

(** The signals that are plain words. *)
Definition signalWords : list string :=
  ["B-Tree"; "LRU"; "rebalance"; "background"; "compaction"].

(** The text starts, ends, with a word character. *)
Definition startsWord (s : string) : bool :=
  match s with String c _ => Js.isWord c | EmptyString => false end.

Fixpoint endsWord (s : string) : bool :=
  match s with
  | EmptyString => false
  | String c EmptyString => Js.isWord c
  | String _ s' => endsWord s'
  end.

(** The same text up to the case of its ASCII letters. *)
Definition sameUpToCase (s t : string) : Prop :=
  foldString s = foldString t.

(** Whether a match attempt succeeded. *)
Definition hit {A : Type} (o : option A) : bool :=
  match o with Some _ => true | None => false end.

(** A position in the folded text. *)
Definition foldPos (x : Regex.pos) : Regex.pos :=
  (map Js.fold_case (fst x), foldString (snd x)).

(** A pattern that cannot tell the case of a letter: its literals are
    under the [i] flag and its classes hold a letter in both cases or
    in none. *)
Fixpoint caseBlind (r : Regex.regex) : Prop :=
  match r with
  | Regex.Chr _ => False
  | Regex.Cls p | Regex.Star p | Regex.Plus p =>
      forall c, p (Js.fold_case c) = p c
  | Regex.Seq a b | Regex.Alt a b => caseBlind a /\ caseBlind b
  | Regex.Opt a | Regex.Grp _ a => caseBlind a
  | _ => True
  end.

End LeakShape.

(* ================================================================== *)
(** * Vocabulary of the names the parser extracts *)
(* ================================================================== *)

Module IdShape.
Import Lexis Parse.

(** The name of a validation: an identifier that may hold hyphens. *)
Definition isLabel (s : string) : bool :=
  match s with
  | EmptyString => false
  | String c s' =>
      Js.isAlpha c && all (fun d => Js.isWord d || Ascii.eqb d "-") s'
  end.

(** The names of the eight sections. *)
Definition sectionNames : list string := map section_key known_sections.

(** A choice between literal words. *)
Fixpoint alts (ws : list string) : Regex.regex :=
  match ws with
  | [] => Regex.Eps
  | [w] => Regex.lit w
  | w :: ws' => Regex.Alt (Regex.lit w) (alts ws')
  end.

(** Every name the parser extracted has the shape its pattern asks
    for. *)
Definition wellNamed (p : ParsedSpec) : Prop :=
  Forall (fun k => In k sectionNames) (JsMap.keys (sections_raw p))
  /\ Forall (fun c => isIdent c = true) (capabilities p)
  /\ Forall (fun k => isIdent k = true) (JsMap.keys (intents p))
  /\ Forall (fun k => isIdent k = true) (JsMap.keys (constraints p))
  /\ Forall (fun c => match severity c with
                      | Some v => isIdent v = true
                      | None => True
                      end) (JsMap.values (constraints p))
  /\ Forall (fun k => isIdent k = true) (JsMap.keys (decisions p))
  /\ Forall (fun k => isLabel k = true) (JsMap.keys (validations p)).

End IdShape.

(* ================================================================== *)
(** * Properties of sorting *)
(* ================================================================== *)

Module SortFacts.
Import Order ReportSpec.

Section Generic.
Context {A : Type} (cmp : A -> A -> comparison).
Hypothesis Hc : Consistent cmp.

Lemma cmp_refl (a : A) : cmp a a = Eq.
Proof.
  pose proof (cmp_sym cmp Hc a a) as H.
  destruct (cmp a a); simpl in H; congruence.
Qed.

Lemma le_refl (a : A) : le cmp a a.
Proof. unfold le. rewrite cmp_refl. discriminate. Qed.

Lemma le_trans (a b c : A) : le cmp a b -> le cmp b c -> le cmp a c.
Proof.
  unfold le. intros Hab Hbc.
  destruct (cmp a b) eqn:E1; [| |congruence].
  - rewrite (cmp_compat cmp Hc a b c E1). exact Hbc.
  - destruct (cmp b c) eqn:E2; [| |congruence].
    + assert (E3 : cmp c b = Eq).
      { rewrite (cmp_sym cmp Hc b c), E2. reflexivity. }
      pose proof (cmp_compat cmp Hc c b a E3) as H.
      rewrite (cmp_sym cmp Hc a c), (cmp_sym cmp Hc a b), E1 in H.
      simpl in H. destruct (cmp a c); simpl in H; congruence.
    + rewrite (cmp_trans cmp Hc a b c E1 E2). discriminate.
Qed.

Lemma gt_le (a b : A) : cmp a b = Gt -> le cmp b a.
Proof.
  intros H. unfold le. rewrite (cmp_sym cmp Hc a b), H. discriminate.
Qed.

Lemma le_le_eq (a b : A) : le cmp a b -> le cmp b a -> cmp a b = Eq.
Proof.
  unfold le. rewrite (cmp_sym cmp Hc a b).
  destruct (cmp a b); simpl; congruence.
Qed.

Lemma insert_perm (x : A) (l : list A) :
  Permutation (Js.insert cmp x l) (x :: l).
Proof.
  induction l as [|y l IH]; simpl; [reflexivity|].
  destruct (cmp x y); try reflexivity.
  rewrite IH. apply perm_swap.
Qed.

Lemma sort_perm (l : list A) : Permutation (Js.sort cmp l) l.
Proof.
  induction l as [|x l IH]; simpl; [reflexivity|].
  rewrite insert_perm. now constructor.
Qed.

Lemma insert_ascending (x : A) (l : list A) :
  ascending cmp l -> ascending cmp (Js.insert cmp x l).
Proof.
  induction l as [|y l IH]; simpl; intros Hl.
  - split; [constructor | exact I].
  - destruct Hl as [Hy Hl].
    assert (Hle : le cmp x y -> ascending cmp (x :: y :: l)).
    { intros Hxy. simpl. repeat split; trivial.
      constructor; [exact Hxy|].
      eapply Forall_impl; [|exact Hy].
      intros z Hz. eapply le_trans; eauto. }
    destruct (cmp x y) eqn:E.
    + apply Hle. unfold le. rewrite E. discriminate.
    + apply Hle. unfold le. rewrite E. discriminate.
    + simpl. split; [|now apply IH].
      eapply Permutation_Forall;
        [symmetry; apply insert_perm|].
      constructor; [now apply gt_le | exact Hy].
Qed.

Lemma sort_ascending (l : list A) : ascending cmp (Js.sort cmp l).
Proof.
  induction l as [|x l IH]; simpl; [exact I|].
  now apply insert_ascending.
Qed.

Lemma ascending_head_le (a : A) (l : list A) (b : A) :
  ascending cmp (a :: l) -> In b (a :: l) -> le cmp a b.
Proof.
  intros [Ha _] [<-|Hb]; [apply le_refl|].
  rewrite Forall_forall in Ha. now apply Ha.
Qed.

(** Two ascending arrangements of the same elements coincide when
    elements that compare equal are equal. *)
Lemma ascending_unique (l1 : list A) :
  forall l2,
    ascending cmp l1 -> ascending cmp l2 -> Permutation l1 l2 ->
    separated cmp l1 -> l1 = l2.
Proof.
  induction l1 as [|a t1 IH]; intros l2 H1 H2 Hp Hs.
  - apply Permutation_nil in Hp. now subst.
  - destruct l2 as [|b t2].
    { symmetry in Hp. apply Permutation_nil in Hp. discriminate. }
    assert (Hb : In b (a :: t1)).
    { eapply Permutation_in; [symmetry; exact Hp | now left]. }
    assert (Ha : In a (b :: t2)).
    { eapply Permutation_in; [exact Hp | now left]. }
    assert (Heq : a = b).
    { apply Hs; [now left | exact Hb |].
      apply le_le_eq; eapply ascending_head_le; eauto. }
    subst b. f_equal.
    apply IH.
    + apply H1.
    + apply H2.
    + eapply Permutation_cons_inv; exact Hp.
    + intros x y Hx Hy. apply Hs; now right.
Qed.

Lemma sort_unique (l1 l2 : list A) :
  Permutation l1 l2 -> separated cmp l1 ->
  Js.sort cmp l1 = Js.sort cmp l2.
Proof.
  intros Hp Hs. apply ascending_unique.
  - apply sort_ascending.
  - apply sort_ascending.
  - rewrite !sort_perm. exact Hp.
  - intros a b Ha Hb.
    apply Hs; (eapply Permutation_in; [apply sort_perm | assumption]).
Qed.

(** An element is inserted in front of the elements it ties with. *)
Lemma insert_tied (a x : A) (l : list A) :
  tied cmp a (Js.insert cmp x l)
  = if isEq (cmp a x) then x :: tied cmp a l else tied cmp a l.
Proof.
  unfold tied. induction l as [|y l IH]; cbn [Js.insert filter].
  - reflexivity.
  - destruct (cmp x y) eqn:E; cbn [filter]; try reflexivity.
    rewrite IH.
    destruct (cmp a x) eqn:Eax; cbn [isEq]; [|reflexivity..].
    rewrite (cmp_compat cmp Hc a x y Eax), E. reflexivity.
Qed.

(** The sort is stable: elements that tie keep their input order. *)
Lemma sort_stable (a : A) (l : list A) :
  tied cmp a (Js.sort cmp l) = tied cmp a l.
Proof.
  induction l as [|x l IH]; [reflexivity|].
  cbn [Js.sort]. rewrite insert_tied, IH. reflexivity.
Qed.

Lemma ascending_filter (p : A -> bool) (l : list A) :
  ascending cmp l -> ascending cmp (filter p l).
Proof.
  induction l as [|x l IH]; [trivial|].
  cbn [ascending filter]. intros [Hx Hl].
  destruct (p x); [|now apply IH].
  cbn [ascending]. split; [|now apply IH].
  apply Forall_forall. intros y Hy. apply filter_In in Hy.
  apply (proj1 (Forall_forall _ _) Hx). tauto.
Qed.

Lemma insert_filter (p : A -> bool) (x : A) (l : list A) :
  ascending cmp l ->
  filter p (Js.insert cmp x l)
  = if p x then Js.insert cmp x (filter p l) else filter p l.
Proof.
  induction l as [|y l IH]; intros Hl.
  - cbn. destruct (p x); reflexivity.
  - destruct Hl as [Hy Hl]. specialize (IH Hl).
    cbn [Js.insert].
    assert (Hle : le cmp x y ->
                  filter p (x :: y :: l)
                  = if p x then Js.insert cmp x (filter p (y :: l))
                    else filter p (y :: l)).
    { intros Hxy. cbn [filter]. destruct (p x); [|reflexivity].
      assert (Hall : Forall (le cmp x) (filter p (y :: l))).
      { apply Forall_forall. intros z Hz. apply filter_In in Hz.
        destruct Hz as [[<-|Hz] _]; [exact Hxy|].
        apply (le_trans x y z Hxy).
        apply (proj1 (Forall_forall _ _) Hy z Hz). }
      cbn [filter] in Hall.
      destruct (if p y then y :: filter p l else filter p l)
        as [|z t] eqn:Ez; [reflexivity|].
      cbn [Js.insert]. apply Forall_cons_iff in Hall.
      destruct Hall as [Hz _]. unfold le in Hz.
      destruct (cmp x z); [reflexivity | reflexivity | congruence]. }
    destruct (cmp x y) eqn:E.
    + apply Hle. unfold le. rewrite E. discriminate.
    + apply Hle. unfold le. rewrite E. discriminate.
    + cbn [filter]. rewrite IH.
      destruct (p y), (p x); try reflexivity.
      cbn [Js.insert]. now rewrite E.
Qed.

(** Sorting commutes with leaving elements out. *)
Lemma sort_filter (p : A -> bool) (l : list A) :
  Js.sort cmp (filter p l) = filter p (Js.sort cmp l).
Proof.
  induction l as [|x l IH]; [reflexivity|].
  cbn [Js.sort filter].
  rewrite (insert_filter p x _ (sort_ascending l)).
  destruct (p x); [|exact IH]. cbn [Js.sort]. now rewrite IH.
Qed.
End Generic.

(** Sorting commutes with a map the comparator factors through. *)
Lemma sort_map {A B : Type} (f : A -> B) (cmpA : A -> A -> comparison)
      (cmpB : B -> B -> comparison) :
  (forall a b, cmpA a b = cmpB (f a) (f b)) ->
  forall l, map f (Js.sort cmpA l) = Js.sort cmpB (map f l).
Proof.
  intros Hf.
  assert (Hi : forall x l,
             map f (Js.insert cmpA x l) = Js.insert cmpB (f x) (map f l)).
  { intros x l. induction l as [|y l IH]; simpl; [reflexivity|].
    rewrite <- Hf. destruct (cmpA x y); simpl; try reflexivity.
    now rewrite IH. }
  induction l as [|x l IH]; simpl; [reflexivity|].
  now rewrite Hi, IH.
Qed.

(** Sorting sees its comparator only through its results. *)
Lemma insert_ext {A : Type} (c c' : A -> A -> comparison) :
  (forall a b, c a b = c' a b) ->
  forall x l, Js.insert c x l = Js.insert c' x l.
Proof.
  intros Hcc x l. induction l as [|y l IH]; [reflexivity|].
  simpl. rewrite Hcc, IH. reflexivity.
Qed.

Lemma sort_ext {A : Type} (c c' : A -> A -> comparison) :
  (forall a b, c a b = c' a b) ->
  forall l, Js.sort c l = Js.sort c' l.
Proof.
  intros Hcc l. induction l as [|x l IH]; [reflexivity|].
  simpl. rewrite IH. now apply insert_ext.
Qed.

(** ** The code unit order *)

Lemma codeUnit_sym (a b : string) :
  Js.codeUnitCompare b a = CompOpp (Js.codeUnitCompare a b).
Proof.
  revert b. induction a as [|c a IH]; intros [|d b]; simpl; try reflexivity.
  rewrite (Nat.compare_antisym (nat_of_ascii c) (nat_of_ascii d)).
  destruct (Nat.compare (nat_of_ascii c) (nat_of_ascii d)); simpl; auto.
Qed.

Lemma codeUnit_eq (a b : string) : Js.codeUnitCompare a b = Eq -> a = b.
Proof.
  revert b. induction a as [|c a IH]; intros [|d b]; simpl;
    try discriminate; [reflexivity|].
  destruct (Nat.compare (nat_of_ascii c) (nat_of_ascii d)) eqn:E; try discriminate.
  intros H. apply Nat.compare_eq in E.
  assert (c = d).
  { rewrite <- (ascii_nat_embedding c), <- (ascii_nat_embedding d).
    now rewrite E. }
  subst d. f_equal. now apply IH.
Qed.

Lemma codeUnit_refl (a : string) : Js.codeUnitCompare a a = Eq.
Proof.
  induction a as [|c a IH]; simpl; [reflexivity|].
  now rewrite Nat.compare_refl.
Qed.

Lemma codeUnit_trans (a b c : string) :
  Js.codeUnitCompare a b = Lt -> Js.codeUnitCompare b c = Lt ->
  Js.codeUnitCompare a c = Lt.
Proof.
  revert b c. induction a as [|x a IH]; intros [|y b] [|z c]; simpl;
    try discriminate; try reflexivity.
  destruct (Nat.compare (nat_of_ascii x) (nat_of_ascii y)) eqn:E1;
    destruct (Nat.compare (nat_of_ascii y) (nat_of_ascii z)) eqn:E2;
    try discriminate; intros H1 H2.
  - apply Nat.compare_eq in E1, E2. rewrite E1, E2, Nat.compare_refl.
    eapply IH; eauto.
  - apply Nat.compare_eq in E1. rewrite E1, E2. reflexivity.
  - apply Nat.compare_eq in E2. rewrite <- E2, E1. reflexivity.
  - apply Nat.compare_lt_iff in E1, E2.
    assert (E3 : (Nat.compare (nat_of_ascii x) (nat_of_ascii z)) = Lt).
    { apply Nat.compare_lt_iff. lia. }
    now rewrite E3.
Qed.

Lemma codeUnit_consistent : Consistent Js.codeUnitCompare.
Proof.
  constructor.
  - apply codeUnit_sym.
  - apply codeUnit_trans.
  - intros a b c H. apply codeUnit_eq in H. now subst.
Qed.

Lemma codeUnit_separated (l : list string) :
  separated Js.codeUnitCompare l.
Proof. intros a b _ _. apply codeUnit_eq. Qed.

End SortFacts.

(* ================================================================== *)
(** * Properties of the matcher *)
(* ================================================================== *)

Module RegexFacts.
Import Regex Text.

Lemma stripPrefix_app (w s s' : string) :
  stripPrefix w s = Some s' -> s = (w ++ s')%string.
Proof.
  revert s. induction w as [|c w IH]; intros s; simpl.
  - congruence.
  - destruct s as [|d s]; [discriminate|].
    destruct (Ascii.eqb c d) eqn:E; [|discriminate].
    apply Ascii.eqb_eq in E. subst d. intros H. f_equal. now apply IH.
Qed.

Lemma rmatch_lit {R : Type} (w : string) :
  forall (pre : list ascii) (s : string) (cs : caps)
         (k : pos -> caps -> option R),
    rmatch (lit w) (pre, s) cs k
    = match stripPrefix w s with
      | Some s' => k (pushed w pre, s') cs
      | None => None
      end.
Proof.
  induction w as [|c w IH]; intros pre s cs k; [reflexivity|].
  destruct w as [|d w].
  - simpl. destruct s as [|e s]; [reflexivity|].
    destruct (Ascii.eqb c e) eqn:E; [|reflexivity].
    apply Ascii.eqb_eq in E. now subst.
  - change (lit (String c (String d w)))
      with (Seq (Chr c) (lit (String d w))).
    cbn [rmatch snd fst]. destruct s as [|e s]; [reflexivity|].
    cbn [stripPrefix]. destruct (Ascii.eqb c e) eqn:E; [|reflexivity].
    apply Ascii.eqb_eq in E. subst e. rewrite IH. reflexivity.
Qed.

Lemma searchFrom_bol (r : regex) (s : string) :
  forall pre, pre <> [] -> searchFrom (Seq Bol r) pre s = None.
Proof.
  induction s as [|c s IH]; intros pre Hpre;
    destruct pre as [|a pre]; try congruence; simpl.
  - reflexivity.
  - apply IH. discriminate.
Qed.

(** An anchored pattern is tried at the start only. *)
Lemma exec_bol (r : regex) (s : string) :
  exec (Seq Bol r) s
  = rmatch r ([], s) [] (fun y cs => Some (mkFound [] y cs)).
Proof.
  assert (Hm : matchAt (Seq Bol r) ([], s)
               = rmatch r ([], s) [] (fun y cs => Some (mkFound [] y cs)))
    by reflexivity.
  unfold exec. destruct s as [|c s]; cbn [searchFrom]; rewrite Hm.
  - now destruct (rmatch r _ _ _).
  - destruct (rmatch r _ _ _); [reflexivity|].
    apply searchFrom_bol. discriminate.
Qed.



(** Blanks, then a colon. *)
Lemma star_colon {R : Type} (cs : caps) (k : pos -> caps -> option R)
      (rest : string) :
  (forall y cs', k y cs' <> None) ->
  forall pre,
    star Js.isSpace pre rest (fun y => rmatch (Chr ":") y cs k) <> None
    <-> exists ws rest',
        rest = (ws ++ String ":" rest')%string /\ allSpace ws = true.
Proof.
  intros Hk. induction rest as [|c rest IH]; intros pre.
  - simpl. split; [congruence|].
    intros [ws [rest' [H _]]]. destruct ws; discriminate.
  - cbn [star].
    destruct (Js.isSpace c) eqn:Ec.
    + assert (Hc : Ascii.eqb ":" c = false).
      { destruct (Ascii.eqb ":" c) eqn:E; [|reflexivity].
        apply Ascii.eqb_eq in E. subst c. discriminate. }
      destruct (star Js.isSpace (c :: pre) rest _) eqn:Es.
      * split; [intros _ | congruence].
        assert (Hs : star Js.isSpace (c :: pre) rest
                          (fun y => rmatch (Chr ":") y cs k) <> None)
          by congruence.
        apply IH in Hs. destruct Hs as [ws [rest' [-> Hw]]].
        exists (String c ws), rest'. simpl. now rewrite Ec, Hw.
      * cbn [rmatch snd]. rewrite Hc.
        split; [congruence|].
        intros [ws [rest' [H Hw]]]. exfalso.
        destruct ws as [|d ws]; simpl in H.
        -- injection H as -> _. discriminate.
        -- injection H as <- ->. simpl in Hw.
           apply andb_true_iff in Hw.
           assert (Hn : star Js.isSpace (c :: pre)
                             (ws ++ String ":" rest')%string
                             (fun y => rmatch (Chr ":") y cs k) <> None).
           { apply IH. exists ws, rest'. tauto. }
           congruence.
    + cbn [rmatch snd fst].
      destruct (Ascii.eqb ":" c) eqn:E.
      * apply Ascii.eqb_eq in E. subst c.
        split; [intros _ | intros _; apply Hk].
        exists EmptyString, rest. split; reflexivity.
      * split; [congruence|].
        intros [ws [rest' [H Hw]]]. exfalso.
        destruct ws as [|d ws]; simpl in H.
        -- injection H as -> _. rewrite Ascii.eqb_refl in E. discriminate.
        -- injection H as <- _. simpl in Hw. rewrite Ec in Hw.
           discriminate.
Qed.

Lemma some_true {A : Type} (o : option A) :
  match o with Some _ => true | None => false end = true <-> o <> None.
Proof. destruct o; split; congruence. Qed.

(** [validations?|validation] before any continuation. *)
Lemma validation_word {R : Type} (k : pos -> caps -> option R)
      (l : string) :
  rmatch (Alt (Seq (lit "validation") (Opt (Chr "s"))) (lit "validation"))
         ([], l) [] k <> None
  <-> exists s',
      stripPrefix "validation" l = Some s'
      /\ ((exists s'',
              s' = String "s" s''
              /\ k ("s"%char :: pushed "validation" [], s'') [] <> None)
          \/ k (pushed "validation" [], s') [] <> None).
Proof.
  cbn [rmatch]. rewrite !rmatch_lit.
  destruct (stripPrefix "validation" l) as [s'|].
  - cbn [rmatch snd fst].
    destruct s' as [|c s''].
    + destruct (k (pushed "validation" [], EmptyString) []) eqn:E.
      * split; [intros _ | congruence].
        exists EmptyString. split; [reflexivity|]. right. congruence.
      * split; [congruence|].
        intros [s' [Hs [[s'' [Hs' _]]|H]]]; injection Hs as <-;
          congruence.
    + destruct (Ascii.eqb "s" c) eqn:Ec.
      * apply Ascii.eqb_eq in Ec. subst c.
        destruct (k ("s"%char :: pushed "validation" [], s'') []) eqn:E1.
        -- split; [intros _ | congruence].
           exists (String "s" s''). split; [reflexivity|]. left.
           exists s''. split; [reflexivity | congruence].
        -- destruct (k (pushed "validation" [], String "s" s'') []) eqn:E2.
           ++ split; [intros _ | congruence].
              exists (String "s" s''). split; [reflexivity|]. right.
              congruence.
           ++ split; [congruence|].
              intros [s' [Hs [[t [Hs' H]]|H]]]; injection Hs as <-.
              ** injection Hs' as <-. congruence.
              ** congruence.
      * destruct (k (pushed "validation" [], String c s'') []) eqn:E.
        -- split; [intros _ | congruence].
           exists (String c s''). split; [reflexivity|]. right. congruence.
        -- split; [congruence|].
           intros [s' [Hs [[t [Hs' H]]|H]]]; injection Hs as <-.
           ++ injection Hs' as Hc _. subst c.
              rewrite Ascii.eqb_refl in Ec. discriminate.
           ++ congruence.
  - split; [congruence|]. intros [s' [Hs _]]. discriminate.
Qed.

(** The pattern of the validations field, in words. *)
Lemma validations_field (l : string) :
  test Validate.re_validations l = true <-> RuleSpec.fieldLine l.
Proof.
  unfold test, Validate.re_validations. cbn [seq].
  rewrite exec_bol, some_true.
  change (rmatch _ ([], l) [] _)
    with (rmatch
            (Alt (Seq (lit "validation") (Opt (Chr "s")))
                 (lit "validation"))
            ([], l) []
            (fun y cs' =>
               star Js.isSpace (fst y) (snd y)
                    (fun z => rmatch (Chr ":") z
                                     ((1, captured ([], l) y) :: cs')
                                     (fun y0 cs0 =>
                                        Some (mkFound [] y0 cs0))))).
  rewrite validation_word. cbn [fst snd].
  assert (HK : forall pre t cs,
             star Js.isSpace pre t
                  (fun z => rmatch (Chr ":") z cs
                                   (fun y0 cs0 => Some (mkFound [] y0 cs0)))
             <> None
             <-> exists ws rest,
                 t = (ws ++ String ":" rest)%string /\ allSpace ws = true).
  { intros pre t cs. apply star_colon. discriminate. }
  unfold RuleSpec.fieldLine. split.
  - intros [s' [Hs [[s'' [-> H]]|H]]];
      apply stripPrefix_app in Hs; apply HK in H;
      destruct H as [ws [rest [-> Hw]]]; subst l.
    + exists "validations", ws, rest. repeat split; auto.
    + exists "validation", ws, rest. repeat split; auto.
  - intros [kw [ws [rest [[-> | ->] [Hw ->]]]]].
    + exists (String "s" (ws ++ String ":" rest)).
      split; [reflexivity|]. left.
      exists (ws ++ String ":" rest)%string.
      split; [reflexivity|]. apply HK. eauto.
    + exists (ws ++ String ":" rest)%string.
      split; [reflexivity|]. right. apply HK. eauto.
Qed.

End RegexFacts.

(* ================================================================== *)
(** * Properties of the parser *)
(* ================================================================== *)

Module ParseFacts.
Import Regex Text Parse ParseSpec RegexFacts.



Lemma match1_none_prefix (w : string) (r : regex) (l : string) :
  stripPrefix w l = None -> match1 (Seq Bol (Seq (lit w) r)) l = None.
Proof.
  intros H. unfold match1. rewrite exec_bol. cbn [rmatch].
  now rewrite rmatch_lit, H.
Qed.






(** ** Maps *)



(** ** One line of the constraints section *)








End ParseFacts.

(* ================================================================== *)
(** * Properties of the rule engine *)
(* ================================================================== *)

Module RuleFacts.
Import Report Validate RuleSpec.

Lemma includes_supported (v : string) :
  Js.includes supported v = true <-> v = "DIL:spec v0".
Proof.
  unfold Js.includes, supported; simpl.
  rewrite orb_false_r. apply String.eqb_eq.
Qed.

(** The V-M1 loop leaves the unassociated intents in its first and
    third accumulators. *)
Lemma vm1_fold (p : Parse.ParsedSpec) (xs : list Parse.ParsedIntent) :
  forall t a e,
    let res :=
      fold_left
        (vm1Step p (intentsRaw p)
                 (existsb hasCapability (declaredValidations p))
                 (find hasCapability (declaredValidations p)))
        xs (t, a, e) in
    fst (fst res)
      = t ++ map intentRef (filter (fun i => negb (associated p i)) xs)
    /\ snd res
      = e ++ map (fun i => intentNotVerifiable (intentRef i))
                 (filter (fun i => negb (associated p i)) xs).
Proof.
  induction xs as [|i xs IH]; intros t a e; simpl.
  - now rewrite !app_nil_r.
  - fold (associated p i).
    destruct (associated p i) eqn:Ha; simpl.
    + destruct (find hasCapability (declaredValidations p)) as [v|];
        [destruct (existsb hasCapability (declaredValidations p)
                   && supportedBySomeDecision p (Parse.intent_id i))|];
        apply IH.
    + destruct (IH (t ++ [fq "intents" (Parse.intent_id i)]) a
                   (e ++ [intentNotVerifiable
                            (fq "intents" (Parse.intent_id i))]))
        as [H1 H2].
      split.
      * rewrite H1, <- app_assoc. reflexivity.
      * rewrite H2, <- app_assoc. reflexivity.
Qed.

Lemma vm3Step_spec (p : Parse.ParsedSpec) (d : Parse.ParsedDecision) b e :
  vm3Step p (b, e) d
  = (b ++ (if failing p d then [decisionRef d] else []),
     e ++ decisionErrors p d).
Proof.
  unfold vm3Step, failing, decisionErrors.
  fold (decisionRef d). fold (unresolvedIntents p d).
  fold (unresolvedConstraints p d).
  destruct (Parse.supports d) as [|s ss]; [reflexivity|].
  destruct (unresolvedIntents p d) as [|bi bis];
    destruct (unresolvedConstraints p d) as [|bc bcs]; simpl;
    rewrite ?app_nil_r; reflexivity.
Qed.

Lemma vm3_fold (p : Parse.ParsedSpec) (ds : list Parse.ParsedDecision) :
  forall b e,
    fold_left (vm3Step p) ds (b, e)
    = (b ++ map decisionRef (filter (failing p) ds),
       e ++ flat_map (decisionErrors p) ds).
Proof.
  induction ds as [|d ds IH]; intros b e; cbn [fold_left filter flat_map].
  - cbn. now rewrite !app_nil_r.
  - rewrite vm3Step_spec, IH, <- !app_assoc.
    destruct (failing p d); reflexivity.
Qed.

Lemma collect_missing (p : Parse.ParsedSpec)
      (vs : list Parse.ParsedValidation) :
  collect (missingCapability p) vs
  = map (fun v => (Parse.validation_id v, capabilityOf v))
        (filter (lacksCapability p) vs).
Proof.
  induction vs as [|v vs IH]; simpl; [reflexivity|].
  unfold missingCapability at 1, lacksCapability at 1, capabilityOf.
  destruct (Parse.requires_capability v) as [cap|] eqn:Hc; [|exact IH].
  destruct (Js.truthy cap && negb (Js.includes (Parse.capabilities p) cap));
    simpl; [rewrite Hc, IH; reflexivity | exact IH].
Qed.

(** [validateCore] on a supported version, rule by rule. *)
Lemma validateCore_supported (p : Parse.ParsedSpec) :
  supportedVersion p ->
  validateCore p
  = (mkReport (Parse.spec_version p) (Parse.system_id p)
              (fst (verdict (leaks p)
                            (hasStatus unsatisfied (ruleOutcomes p))
                            (hasStatus unknown (ruleOutcomes p))))
              (ruleOutcomes p)
              (if isValid (fst (verdict (leaks p)
                                  (hasStatus unsatisfied (ruleOutcomes p))
                                  (hasStatus unknown (ruleOutcomes p))))
               then [] else ruleErrors p)
              None None,
     snd (verdict (leaks p)
                  (hasStatus unsatisfied (ruleOutcomes p))
                  (hasStatus unknown (ruleOutcomes p)))).
Proof.
  intros Hv. unfold validateCore.
  apply includes_supported in Hv. rewrite Hv. cbn [negb].
  fold (intentsRaw p). fold (declaredValidations p).
  fold (declaredIntents p).
  assert (Hf : fold_left
                 (vm1Step p (intentsRaw p)
                          (existsb hasCapability (declaredValidations p))
                          (find hasCapability (declaredValidations p)))
                 (declaredIntents p) ([], [], [])
               = (map intentRef (unassociated p), vm1Assoc p,
                  map (fun i => intentNotVerifiable (intentRef i))
                      (unassociated p))).
  { pose proof (vm1_fold p (declaredIntents p) [] [] []) as H1.
    cbv zeta in H1. unfold vm1Assoc, unassociated.
    destruct (fold_left _ (declaredIntents p) _) as [[t a] e1].
    simpl in H1. destruct H1 as [-> ->]. reflexivity. }
  rewrite Hf.
  cbv beta iota zeta. rewrite vm3_fold.
  fold (declaredDecisions p). fold (failingDecisions p). fold (leaks p).
  cbn [app]. fold (vm1Outcome p).
  change [vm1Outcome p; vm2Outcome p;
          vm3Outcome p (map decisionRef (failingDecisions p));
          vm4Outcome p; vm5Outcome (leaks p)] with (ruleOutcomes p).
  unfold verdict, ruleErrors, hasStatus.
  set (l := leaks p). set (outs := ruleOutcomes p).
  set (e1 := map _ (unassociated p)).
  set (e3 := flat_map _ _).
  clearbody l outs e1 e3.
  destruct l, (existsb (isStatus unsatisfied) outs),
    (existsb (isStatus unknown) outs);
    cbn [orb fst snd isValid]; rewrite <- ?app_assoc, ?app_nil_r;
    reflexivity.
Qed.

Lemma validateCore_unsupported (p : Parse.ParsedSpec) :
  ~ supportedVersion p ->
  validateCore p
  = (mkReport (Parse.spec_version p) (Parse.system_id p) invalid []
              [error "UNSUPPORTED_SPEC_VERSION"
                     "Validator does not support the declared spec version."
                     [("spec", JStr (Parse.spec_version p));
                      ("supported", JArr [JStr "DIL:spec v0"])]]
              None None,
     1%Z).
Proof.
  intros Hv. unfold validateCore.
  destruct (Js.includes supported (Parse.spec_version p)) eqn:E.
  - apply includes_supported in E. contradiction.
  - reflexivity.
Qed.

Lemma supported_dec (p : Parse.ParsedSpec) :
  {supportedVersion p} + {~ supportedVersion p}.
Proof. apply string_dec. Qed.

Lemma isStatus_iff (s : OutcomeStatus) (o : ValidationOutcome) :
  isStatus s o = true <-> status o = s.
Proof.
  unfold isStatus. destruct s, (status o); split; congruence.
Qed.

Lemma hasStatus_iff (s : OutcomeStatus) (os : list ValidationOutcome) :
  hasStatus s os = true <-> exists o, In o os /\ status o = s.
Proof.
  unfold hasStatus. rewrite existsb_exists.
  split; intros [o [Hi Ho]]; exists o; split; trivial;
    now apply isStatus_iff.
Qed.

Lemma report_supported (p : Parse.ParsedSpec) :
  supportedVersion p ->
  outcomes (fst (validateCore p)) = ruleOutcomes p
  /\ (state (fst (validateCore p)), snd (validateCore p))
     = verdict (leaks p) (hasStatus unsatisfied (ruleOutcomes p))
               (hasStatus unknown (ruleOutcomes p)).
Proof.
  intros Hv. rewrite (validateCore_supported p Hv). simpl.
  split; [reflexivity|].
  now destruct (verdict _ _ _).
Qed.

(** ** The statuses and names of the five outcomes *)

Lemma vm1_status (p : Parse.ParsedSpec) :
  status (vm1Outcome p)
  = match unassociated p with [] => satisfied | _ :: _ => unsatisfied end.
Proof. unfold vm1Outcome. now destruct (unassociated p). Qed.

Lemma vm2_shape (p : Parse.ParsedSpec) :
  validation_id (vm2Outcome p) = "V-M2" /\ status (vm2Outcome p) = satisfied.
Proof.
  unfold vm2Outcome.
  destruct (JsMap.size (Parse.constraints p) =? 0)%nat;
    [|destruct (JsMap.size (Parse.constraints p) =? 1)%nat];
    split; reflexivity.
Qed.

Lemma vm3_shape (p : Parse.ParsedSpec) (bad : list string) :
  validation_id (vm3Outcome p bad) = "V-M3"
  /\ status (vm3Outcome p bad)
     = match bad with [] => satisfied | _ :: _ => unsatisfied end
  /\ (bad <> [] ->
      targets (vm3Outcome p bad) = Js.sortDefault (Js.dedup bad)).
Proof.
  unfold vm3Outcome. destruct bad as [|b bad].
  - destruct (JsMap.values (Parse.decisions p)) as [|d [|d' ds]];
      repeat split; congruence.
  - repeat split.
Qed.

Lemma vm4_shape (p : Parse.ParsedSpec) :
  validation_id (vm4Outcome p) = "V-M4"
  /\ status (vm4Outcome p)
     = match uncovered p with [] => satisfied | _ :: _ => unknown end.
Proof.
  unfold vm4Outcome. rewrite collect_missing. fold (declaredValidations p).
  fold (uncovered p).
  destruct (uncovered p) as [|v vs]; simpl; split; reflexivity.
Qed.

Lemma vm5_shape (l : bool) :
  validation_id (vm5Outcome l) = "V-M5"
  /\ status (vm5Outcome l) = (if l then unsatisfied else satisfied)
  /\ targets (vm5Outcome l) = ["system"].
Proof. repeat split. Qed.

Lemma rule_names (p : Parse.ParsedSpec) :
  map validation_id (ruleOutcomes p)
  = ["V-M1"; "V-M2"; "V-M3"; "V-M4"; "V-M5"].
Proof.
  unfold ruleOutcomes. cbn [map].
  destruct (vm2_shape p) as [-> _].
  destruct (vm3_shape p (map decisionRef (failingDecisions p))) as [-> _].
  destruct (vm4_shape p) as [-> _].
  reflexivity.
Qed.

Lemma rule_statuses (p : Parse.ParsedSpec) (o : ValidationOutcome) :
  In o (ruleOutcomes p) -> status o <> inapplicable.
Proof.
  unfold ruleOutcomes. cbn [In].
  intros [<-|[<-|[<-|[<-|[<-|[]]]]]].
  - rewrite vm1_status. destruct (unassociated p); discriminate.
  - destruct (vm2_shape p) as [_ ->]. discriminate.
  - destruct (vm3_shape p (map decisionRef (failingDecisions p)))
      as [_ [-> _]].
    destruct (map decisionRef (failingDecisions p)); discriminate.
  - destruct (vm4_shape p) as [_ ->]. destruct (uncovered p); discriminate.
  - destruct (vm5_shape (leaks p)) as [_ [-> _]].
    destruct (leaks p); discriminate.
Qed.

(** ** Aggregation *)

(** C1.  On a supported version the state and the exit code follow the
    aggregation precedence: a leak seen by V-M5 or an unsatisfied
    outcome gives invalid and 1; otherwise an unknown outcome gives
    undecidable and 2; otherwise valid and 0.  A report with both an
    unsatisfied and an unknown outcome is invalid, not undecidable. *)
Theorem aggregation_precedence (p : Parse.ParsedSpec) :
  supportedVersion p ->
  let r := fst (validateCore p) in
  let exit_code := snd (validateCore p) in
  let some s := exists o, In o (outcomes r) /\ status o = s in
  let failed := leaks p = true \/ some unsatisfied in
  (failed -> state r = invalid /\ exit_code = 1%Z)
  /\ (~ failed -> some unknown -> state r = undecidable /\ exit_code = 2%Z)
  /\ (~ failed -> ~ some unknown -> state r = valid /\ exit_code = 0%Z)
  /\ (some unsatisfied -> some unknown ->
      state r = invalid /\ state r <> undecidable).
Proof.
  intros Hv r exit_code some failed.
  destruct (report_supported p Hv) as [Ho Hs].
  fold r in Ho, Hs. fold exit_code in Hs.
  assert (Hsome : forall s, some s <-> hasStatus s (ruleOutcomes p) = true).
  { intros s. unfold some. rewrite Ho. symmetry. apply hasStatus_iff. }
  assert (Hfailed :
            failed <-> leaks p || hasStatus unsatisfied (ruleOutcomes p) = true).
  { unfold failed. rewrite orb_true_iff, Hsome. reflexivity. }
  unfold verdict in Hs.
  destruct (leaks p || hasStatus unsatisfied (ruleOutcomes p)) eqn:Hbad.
  - injection Hs as H1 H2.
    assert (Hf : failed) by (apply Hfailed; reflexivity).
    split; [intros _; split; assumption|].
    split; [intros Hn; contradiction|].
    split; [intros Hn; contradiction|].
    intros _ _. split; [assumption | rewrite H1; discriminate].
  - assert (Hnf : ~ failed) by (rewrite Hfailed; discriminate).
    split; [intros Hf; contradiction|].
    destruct (hasStatus unknown (ruleOutcomes p)) eqn:Hunk;
      injection Hs as H1 H2.
    + split; [intros _ _; split; assumption|].
      split; [intros _ Hu; exfalso; apply Hu, Hsome; assumption|].
      intros Hu _. exfalso. apply Hnf. right. exact Hu.
    + split; [intros _ Hu; apply Hsome in Hu; congruence|].
      split; [intros _ _; split; assumption|].
      intros Hu _. exfalso. apply Hnf. right. exact Hu.
Qed.

(** C2.  A report in state valid has no errors. *)
Theorem valid_implies_no_errors (p : Parse.ParsedSpec) :
  state (fst (validateCore p)) = valid ->
  errors (fst (validateCore p)) = [].
Proof.
  destruct (supported_dec p) as [Hv|Hv].
  - rewrite (validateCore_supported p Hv). simpl.
    intros ->. reflexivity.
  - rewrite (validateCore_unsupported p Hv). simpl. discriminate.
Qed.

(** C4.  An unsupported version short-circuits the rules: the report
    is invalid, has no outcomes and exactly one error, of code
    UNSUPPORTED_SPEC_VERSION, whose refs give the declared version under
    [spec] and the supported set under [supported]; the exit code
    is 1. *)
Theorem unsupported_version_short_circuit (p : Parse.ParsedSpec) :
  Parse.spec_version p <> "DIL:spec v0" ->
  let r := fst (validateCore p) in
  state r = invalid
  /\ outcomes r = []
  /\ (exists e,
        errors r = [e]
        /\ code e = "UNSUPPORTED_SPEC_VERSION"
        /\ refs e = [("spec", JStr (Parse.spec_version p));
                     ("supported", JArr [JStr "DIL:spec v0"])])
  /\ snd (validateCore p) = 1%Z.
Proof.
  intros Hv. rewrite (validateCore_unsupported p Hv). simpl.
  repeat split. eexists. repeat split.
Qed.

(** C10.  On a supported version the report has exactly five outcomes,
    one per rule, named V-M1 to V-M5; and no outcome of any report has
    status inapplicable. *)
Theorem five_outcomes_none_inapplicable :
  (forall p : Parse.ParsedSpec,
      supportedVersion p ->
      map validation_id (outcomes (fst (validateCore p)))
      = ["V-M1"; "V-M2"; "V-M3"; "V-M4"; "V-M5"])
  /\ (forall (p : Parse.ParsedSpec) (o : ValidationOutcome),
         In o (outcomes (fst (validateCore p))) ->
         status o <> inapplicable).
Proof.
  split.
  - intros p Hv. destruct (report_supported p Hv) as [-> _].
    apply rule_names.
  - intros p o. destruct (supported_dec p) as [Hv|Hv].
    + destruct (report_supported p Hv) as [-> _]. apply rule_statuses.
    + rewrite (validateCore_unsupported p Hv). simpl. contradiction.
Qed.

(** ** Errors of the rules *)

Lemma includes_iff (xs : list string) (x : string) :
  Js.includes xs x = true <-> In x xs.
Proof.
  unfold Js.includes. rewrite existsb_exists. split.
  - intros [y [Hy He]]. apply String.eqb_eq in He. now subst.
  - intros H. exists x. split; [exact H | apply String.eqb_refl].
Qed.

Lemma truthy_iff (s : string) : Js.truthy s = true <-> s <> EmptyString.
Proof. destruct s; simpl; split; congruence. Qed.

Lemma failing_false (p : Parse.ParsedSpec) (d : Parse.ParsedDecision) :
  failing p d = false -> decisionErrors p d = [].
Proof. unfold failing. destruct (decisionErrors p d); congruence. Qed.

Lemma no_failing_no_errors (p : Parse.ParsedSpec)
      (ds : list Parse.ParsedDecision) :
  filter (failing p) ds = [] -> flat_map (decisionErrors p) ds = [].
Proof.
  induction ds as [|d ds IH]; simpl; [reflexivity|].
  destruct (failing p d) eqn:E; [discriminate|].
  intros H. rewrite (failing_false p d E). simpl. now apply IH.
Qed.

Lemma ruleErrors_nil (p : Parse.ParsedSpec) :
  leaks p = false -> hasStatus unsatisfied (ruleOutcomes p) = false ->
  ruleErrors p = [].
Proof.
  intros Hl Hu. unfold ruleErrors. rewrite Hl.
  unfold hasStatus, ruleOutcomes in Hu. cbn [existsb] in Hu.
  apply orb_false_elim in Hu. destruct Hu as [H1 Hu].
  apply orb_false_elim in Hu. destruct Hu as [_ Hu].
  apply orb_false_elim in Hu. destruct Hu as [H3 _].
  unfold isStatus in H1, H3. rewrite vm1_status in H1.
  destruct (vm3_shape p (map decisionRef (failingDecisions p)))
    as [_ [E3 _]].
  rewrite E3 in H3.
  destruct (unassociated p) as [|i0 more]; [|discriminate].
  destruct (failingDecisions p) as [|d ds] eqn:Ef; [|discriminate].
  simpl. rewrite no_failing_no_errors; [reflexivity | exact Ef].
Qed.

Lemma errors_supported (p : Parse.ParsedSpec) :
  supportedVersion p -> errors (fst (validateCore p)) = ruleErrors p.
Proof.
  intros Hv. rewrite (validateCore_supported p Hv). cbn [fst errors].
  unfold verdict.
  destruct (leaks p || hasStatus unsatisfied (ruleOutcomes p)) eqn:Hbad;
    [reflexivity|].
  apply orb_false_elim in Hbad. destruct Hbad as [Hl Hu].
  destruct (hasStatus unknown (ruleOutcomes p)); simpl; [reflexivity|].
  symmetry. now apply ruleErrors_nil.
Qed.

Lemma outcomeOf_rules (p : Parse.ParsedSpec) :
  let find_rule rule :=
    find (fun o => String.eqb (validation_id o) rule) (ruleOutcomes p) in
  find_rule "V-M1" = Some (vm1Outcome p)
  /\ find_rule "V-M3"
     = Some (vm3Outcome p (map decisionRef (failingDecisions p)))
  /\ find_rule "V-M4" = Some (vm4Outcome p)
  /\ find_rule "V-M5" = Some (vm5Outcome (leaks p)).
Proof.
  unfold ruleOutcomes. cbn [find].
  destruct (vm2_shape p) as [-> _].
  destruct (vm3_shape p (map decisionRef (failingDecisions p))) as [-> _].
  destruct (vm4_shape p) as [-> _].
  repeat split.
Qed.

(** ** V-M4 *)

Lemma lacksCapability_iff (p : Parse.ParsedSpec)
      (v : Parse.ParsedValidation) :
  lacksCapability p v = true
  <-> exists cap,
      Parse.requires_capability v = Some cap
      /\ cap <> EmptyString /\ ~ In cap (Parse.capabilities p).
Proof.
  unfold lacksCapability.
  destruct (Parse.requires_capability v) as [cap|].
  - rewrite andb_true_iff, negb_true_iff, truthy_iff.
    rewrite <- not_true_iff_false, includes_iff.
    split.
    + intros [H1 H2]. now exists cap.
    + intros [c [Hc [H1 H2]]]. injection Hc as <-. now split.
  - split; [discriminate | intros [c [Hc _]]; discriminate].
Qed.

(** C6.  When some validation requires a capability that is not
    declared, V-M4 is unknown, its targets are the references of exactly
    the validations with a missing capability and its reason names the
    first of them; if moreover no outcome is unsatisfied and nothing
    leaks, the report is undecidable with exit code 2 and no errors. *)
Theorem capability_gap_is_unknown (p : Parse.ParsedSpec) :
  supportedVersion p ->
  (exists v cap,
      In v (declaredValidations p)
      /\ Parse.requires_capability v = Some cap
      /\ cap <> EmptyString /\ ~ In cap (Parse.capabilities p)) ->
  let r := fst (validateCore p) in
  (forall v,
      In v (uncovered p)
      <-> In v (declaredValidations p)
          /\ exists cap,
            Parse.requires_capability v = Some cap
            /\ cap <> EmptyString /\ ~ In cap (Parse.capabilities p))
  /\ (exists o v0 rest,
         outcomeOf "V-M4" r = Some o
         /\ status o = unknown
         /\ targets o = map validationRef (uncovered p)
         /\ uncovered p = v0 :: rest
         /\ reason o
            = Some ("Validation validations." ++ Parse.validation_id v0
                      ++ " requires undeclared capability '"
                      ++ capabilityOf v0 ++ "'.")%string)
  /\ (leaks p = false ->
      (forall o, In o (outcomes r) -> status o <> unsatisfied) ->
      state r = undecidable
      /\ snd (validateCore p) = 2%Z
      /\ errors r = []).
Proof.
  intros Hv [v [cap [Hin [Hreq [Hne Hnot]]]]] r.
  assert (Hunc : forall w,
             In w (uncovered p)
             <-> In w (declaredValidations p)
                 /\ exists c,
                   Parse.requires_capability w = Some c
                   /\ c <> EmptyString /\ ~ In c (Parse.capabilities p)).
  { intros w. unfold uncovered. rewrite filter_In, lacksCapability_iff.
    reflexivity. }
  assert (Hv0 : exists v0 rest, uncovered p = v0 :: rest).
  { destruct (uncovered p) as [|v0 rest] eqn:E; [|eauto].
    exfalso. apply (proj2 (Hunc v)). split; [exact Hin|]. now exists cap. }
  destruct Hv0 as [v0 [rest Hv0]].
  destruct (report_supported p Hv) as [Ho Hs]. fold r in Ho, Hs.
  split; [exact Hunc|]. split.
  - exists (vm4Outcome p), v0, rest.
    unfold outcomeOf. rewrite Ho.
    destruct (outcomeOf_rules p) as [_ [_ [-> _]]].
    destruct (vm4_shape p) as [_ Hst]. rewrite Hv0 in Hst.
    split; [reflexivity|]. split; [exact Hst|].
    unfold vm4Outcome. rewrite collect_missing.
    fold (declaredValidations p). fold (uncovered p). rewrite Hv0.
    cbn [map fst targets reason]. repeat split.
    unfold validationRef. rewrite map_map. reflexivity.
  - intros Hl Hnone.
    assert (Hu : hasStatus unsatisfied (ruleOutcomes p) = false).
    { apply not_true_iff_false. intros H. apply hasStatus_iff in H.
      destruct H as [o [Hi Hst]]. apply (Hnone o); [|exact Hst].
      rewrite Ho. exact Hi. }
    assert (Hk : hasStatus unknown (ruleOutcomes p) = true).
    { apply hasStatus_iff. exists (vm4Outcome p). split.
      - unfold ruleOutcomes. simpl. tauto.
      - destruct (vm4_shape p) as [_ ->]. now rewrite Hv0. }
    unfold verdict in Hs. rewrite Hl, Hu, Hk in Hs. simpl in Hs.
    injection Hs as H1 H2.
    split; [exact H1|]. split; [exact H2|].
    unfold r. rewrite (errors_supported p Hv).
    now apply ruleErrors_nil.
Qed.

(** ** V-M1 *)

Lemma openBlock_cons (P : string -> Prop) (l : string) (cs : list string) :
  openBlock P (l :: cs)
  <-> intentLine l = None /\ (P l \/ openBlock P cs).
Proof.
  unfold openBlock. split.
  - intros [body [v [post [E [Hb [Hv HP]]]]]].
    destruct body as [|x body]; simpl in E; injection E as <- ->.
    + split; [exact Hv | now left].
    + split; [apply Hb; now left|]. right.
      exists body, v, post. repeat split; auto.
      intros b Hin. apply Hb. now right.
  - intros [Hl [HP | [body [v [post [-> [Hb [Hv HP]]]]]]]].
    + exists [], l, cs. repeat split; auto. intros b [].
    + exists (l :: body), v, post. repeat split; auto.
      intros b [<-|Hin]; auto.
Qed.

Lemma blockIn_cons (P : string -> Prop) (id l : string)
      (cs : list string) :
  blockIn P id (l :: cs)
  <-> (intentLine l = Some id /\ openBlock P cs) \/ blockIn P id cs.
Proof.
  unfold blockIn. split.
  - intros [pre [h [rest [E [Hh Ho]]]]].
    destruct pre as [|x pre]; simpl in E; injection E as <- ->.
    + now left.
    + right. now exists pre, h, rest.
  - intros [[Hl Ho] | [pre [h [rest [-> [Hh Ho]]]]]].
    + now exists [], l, cs.
    + now exists (l :: pre), h, rest.
Qed.

Lemma blockIn_nil (P : string -> Prop) (id : string) : ~ blockIn P id [].
Proof. intros [pre [h [rest [E _]]]]. destruct pre; discriminate. Qed.

Lemma openBlock_nil (P : string -> Prop) : ~ openBlock P [].
Proof. intros [body [v [post [E _]]]]. destruct body; discriminate. Qed.

Lemma openBlock_ext (P Q : string -> Prop) (cs : list string) :
  (forall l, P l <-> Q l) -> openBlock P cs <-> openBlock Q cs.
Proof.
  intros H. unfold openBlock.
  split; intros [body [v [post [E [Hb [Hv HP]]]]]];
    exists body, v, post; repeat split; auto; now apply H.
Qed.

Lemma blockIn_ext (P Q : string -> Prop) (id : string) (cs : list string) :
  (forall l, P l <-> Q l) -> blockIn P id cs <-> blockIn Q id cs.
Proof.
  intros H. unfold blockIn.
  split; intros [pre [h [rest [E [Hh Ho]]]]];
    exists pre, h, rest; repeat split; auto;
    now apply (openBlock_ext P Q rest H).
Qed.

(** The loop of [intentHasExplicitAssociation] finds the blocks. *)
Lemma scanIntentBlock_spec (id : string) (lines : list string) :
  forall b,
    scanIntentBlock lines id b = true
    <-> (b = true
         /\ openBlock (fun l => Regex.test re_validations l = true)
                      (map lineContent lines))
        \/ blockIn (fun l => Regex.test re_validations l = true) id
                   (map lineContent lines).
Proof.
  set (P := fun l => Regex.test re_validations l = true).
  induction lines as [|line0 lines IH]; intros b.
  - simpl. split; [discriminate|].
    intros [[_ H] | H]; [now apply openBlock_nil in H
                        | now apply blockIn_nil in H].
  - cbn [scanIntentBlock map]. fold (lineContent line0).
    fold (intentLine (lineContent line0)).
    rewrite openBlock_cons, blockIn_cons.
    destruct (Js.truthy (lineContent line0)) eqn:Et; cbn [negb].
    + destruct (intentLine (lineContent line0)) as [m1|] eqn:Ei.
      * rewrite IH. rewrite String.eqb_eq.
        split.
        -- intros [[-> Ho] | Hb]; [right; left; now split | right; now right].
        -- intros [[_ [Hn _]] | [[Hs Ho] | Hb]]; [discriminate | |].
           ++ injection Hs as ->. now left.
           ++ now right.
      * destruct b; cbn [andb].
        -- destruct (Regex.test re_validations (lineContent line0)) eqn:Ef.
           ++ split; [intros _ | reflexivity].
              left. split; [reflexivity|]. split; [reflexivity|].
              now left.
           ++ rewrite IH. split.
              ** intros [[_ Ho] | Hb]; [left | right; now right].
                 split; [reflexivity|]. split; [reflexivity | now right].
              ** intros [[_ [_ [HP | Ho]]] | [[Hs _] | Hb]].
                 --- unfold P in HP. congruence.
                 --- left. now split.
                 --- discriminate.
                 --- now right.
        -- rewrite IH. split.
           ++ intros [[Hb _] | Hb]; [discriminate | right; now right].
           ++ intros [[Hb _] | [[Hs _] | Hb]]; try discriminate. now right.
    + assert (El : lineContent line0 = EmptyString).
      { destruct (lineContent line0); [reflexivity | discriminate]. }
      rewrite El. rewrite IH. split.
      * intros [[-> Ho] | Hb]; [left | right; now right].
        split; [reflexivity|]. split; [reflexivity | now right].
      * intros [[Hb [_ [HP | Ho]]] | [[Hs _] | Hb]].
        -- discriminate HP.
        -- left. now split.
        -- discriminate Hs.
        -- now right.
Qed.

Lemma explicit_iff (raw id : string) :
  intentHasExplicitAssociation raw id = true
  <-> blockHolds fieldLine raw id.
Proof.
  unfold intentHasExplicitAssociation, blockHolds, contents.
  rewrite scanIntentBlock_spec.
  rewrite (blockIn_ext _ fieldLine id _ RegexFacts.validations_field).
  split; [intros [[H _] | H]; [discriminate | exact H] | now right].
Qed.

Lemma implied_iff (p : Parse.ParsedSpec) (i : Parse.ParsedIntent) :
  existsb hasCapability (declaredValidations p)
  && supportedBySomeDecision p (Parse.intent_id i) = true
  <-> impliedAssociation p i.
Proof.
  unfold impliedAssociation, supportedBySomeDecision.
  fold (declaredDecisions p).
  rewrite andb_true_iff, !existsb_exists.
  assert (H1 : (exists v, In v (declaredValidations p)
                          /\ hasCapability v = true)
               <-> exists v cap,
                   In v (declaredValidations p)
                   /\ Parse.requires_capability v = Some cap
                   /\ cap <> EmptyString).
  { split.
    - intros [v [Hin Hc]]. unfold hasCapability in Hc.
      destruct (Parse.requires_capability v) as [cap|] eqn:E;
        [|discriminate].
      exists v, cap. repeat split; auto. now apply truthy_iff.
    - intros [v [cap [Hin [E Hne]]]]. exists v. split; [exact Hin|].
      unfold hasCapability. rewrite E. now apply truthy_iff. }
  assert (H2 : (exists d, In d (declaredDecisions p)
                          /\ Js.includes (Parse.supports d)
                                         (Parse.intent_id i) = true)
               <-> exists d,
                   In d (declaredDecisions p)
                   /\ In (Parse.intent_id i) (Parse.supports d)).
  { split; intros [d [Hin Hs]]; exists d; split; auto;
      now apply includes_iff. }
  rewrite H1, H2. reflexivity.
Qed.

Lemma associated_iff (p : Parse.ParsedSpec) (i : Parse.ParsedIntent) :
  associated p i = true <-> Associated p i.
Proof.
  unfold associated, Associated.
  now rewrite orb_true_iff, explicit_iff, implied_iff.
Qed.

Lemma unassociated_iff (p : Parse.ParsedSpec) (i : Parse.ParsedIntent) :
  In i (unassociated p) <-> In i (declaredIntents p) /\ ~ Associated p i.
Proof.
  unfold unassociated. rewrite filter_In, negb_true_iff.
  rewrite <- associated_iff, not_true_iff_false. reflexivity.
Qed.

Lemma unassociated_nil (p : Parse.ParsedSpec) :
  unassociated p = []
  <-> forall i, In i (declaredIntents p) -> Associated p i.
Proof.
  split.
  - intros E i Hi. apply associated_iff.
    destruct (associated p i) eqn:Ea; [reflexivity|].
    assert (Hin : In i (unassociated p)).
    { unfold unassociated. apply filter_In. now rewrite Ea. }
    rewrite E in Hin. destruct Hin.
  - intros H. destruct (unassociated p) as [|i more] eqn:E; [reflexivity|].
    assert (Hin : In i (unassociated p)) by (rewrite E; now left).
    apply unassociated_iff in Hin. destruct Hin as [Hin Hn].
    exfalso. apply Hn, H, Hin.
Qed.

Lemma intent_errors (p : Parse.ParsedSpec) :
  filter (fun e => String.eqb (code e) "INTENT_NOT_VERIFIABLE")
         (ruleErrors p)
  = map (fun i => intentNotVerifiable (intentRef i)) (unassociated p).
Proof.
  unfold ruleErrors. rewrite !filter_app.
  assert (H1 : forall l : list Parse.ParsedIntent,
             filter (fun e => String.eqb (code e) "INTENT_NOT_VERIFIABLE")
                    (map (fun i => intentNotVerifiable (intentRef i)) l)
             = map (fun i => intentNotVerifiable (intentRef i)) l).
  { induction l as [|x l IH]; simpl; [reflexivity | now rewrite IH]. }
  assert (H2 : forall ds,
             filter (fun e => String.eqb (code e) "INTENT_NOT_VERIFIABLE")
                    (flat_map (decisionErrors p) ds) = []).
  { induction ds as [|d ds IH]; simpl; [reflexivity|].
    rewrite filter_app, IH, app_nil_r. unfold decisionErrors.
    destruct (Parse.supports d); [reflexivity|].
    destruct (unresolvedIntents p d), (unresolvedConstraints p d);
      reflexivity. }
  rewrite H1, H2. destruct (leaks p); simpl; now rewrite app_nil_r.
Qed.

(** C5, with the blank the pattern allows before the colon.  An
    intent is associated exactly when a block of its id in the intents
    section holds a line that starts with [validations] or
    [validation], blanks if any, and a colon, or when some validation
    requires a capability and some decision supports the intent.  If
    every intent is associated V-M1 is satisfied and targets all
    intents; otherwise it is unsatisfied, targets the unassociated
    intents, and the report carries one INTENT_NOT_VERIFIABLE error for
    each of them. *)
Theorem intent_verifiability (p : Parse.ParsedSpec) :
  supportedVersion p ->
  let r := fst (validateCore p) in
  (forall i, associated p i = true <-> Associated p i)
  /\ (forall i,
         In i (unassociated p)
         <-> In i (declaredIntents p) /\ ~ Associated p i)
  /\ exists o,
      outcomeOf "V-M1" r = Some o
      /\ ((forall i, In i (declaredIntents p) -> Associated p i) ->
          status o = satisfied
          /\ targets o
             = map (fq "intents") (JsMap.keys (Parse.intents p))
          /\ errorsWithCode "INTENT_NOT_VERIFIABLE" r = [])
      /\ (~ (forall i, In i (declaredIntents p) -> Associated p i) ->
          status o = unsatisfied
          /\ targets o
             = map (fun i => ("intents." ++ Parse.intent_id i)%string)
                   (unassociated p)
          /\ errorsWithCode "INTENT_NOT_VERIFIABLE" r
             = map (fun i =>
                      error "INTENT_NOT_VERIFIABLE"
                            "Intent lacks explicit validation; verifiability is required."
                            [("intent",
                              JStr ("intents." ++ Parse.intent_id i)%string);
                             ("validation", JStr "V-M1")])
                   (unassociated p)).
Proof.
  intros Hv r.
  split; [apply associated_iff|]. split; [apply unassociated_iff|].
  destruct (report_supported p Hv) as [Ho _]. fold r in Ho.
  exists (vm1Outcome p).
  unfold outcomeOf, errorsWithCode. rewrite Ho.
  destruct (outcomeOf_rules p) as [-> _].
  unfold r. rewrite (errors_supported p Hv), intent_errors.
  split; [reflexivity|].
  unfold vm1Outcome. split.
  - intros Hall. apply unassociated_nil in Hall. rewrite Hall.
    repeat split.
  - intros Hnot.
    destruct (unassociated p) as [|i more] eqn:E.
    + exfalso. apply Hnot. now apply unassociated_nil.
    + repeat split.
Qed.

(** ** V-M3 *)

Lemma dedupFrom_spec (xs : list string) :
  forall seen,
    NoDup (Js.dedupFrom seen xs)
    /\ forall x, In x (Js.dedupFrom seen xs) <-> In x xs /\ ~ In x seen.
Proof.
  induction xs as [|y xs IH]; intros seen; simpl.
  - split; [constructor | intros x; tauto].
  - destruct (Js.includes seen y) eqn:E.
    + apply includes_iff in E. destruct (IH seen) as [Hn Hi].
      split; [exact Hn|]. intros x. rewrite Hi.
      split; [tauto|]. intros [[->|Hx] Hs]; [contradiction | tauto].
    + assert (Hy : ~ In y seen).
      { rewrite <- includes_iff, E. discriminate. }
      destruct (IH (y :: seen)) as [Hn Hi]. split.
      * constructor; [|exact Hn]. rewrite Hi. simpl. tauto.
      * intros x. simpl. rewrite Hi. simpl.
        destruct (string_dec y x) as [->|Hne]; tauto.
Qed.

Lemma sorted_dedup (xs : list string) :
  Order.ascending Js.codeUnitCompare (Js.sortDefault (Js.dedup xs))
  /\ NoDup (Js.sortDefault (Js.dedup xs))
  /\ forall x, In x (Js.sortDefault (Js.dedup xs)) <-> In x xs.
Proof.
  unfold Js.sortDefault, Js.dedup.
  destruct (dedupFrom_spec xs []) as [Hn Hi].
  pose proof (SortFacts.sort_perm Js.codeUnitCompare (Js.dedupFrom [] xs))
    as Hp.
  split; [apply SortFacts.sort_ascending, SortFacts.codeUnit_consistent|].
  split.
  - eapply Permutation_NoDup; [symmetry; exact Hp | exact Hn].
  - intros x. split.
    + intros H. apply (Permutation_in _ Hp) in H. now apply Hi in H.
    + intros H. apply (Permutation_in _ (Permutation_sym Hp)).
      apply Hi. simpl. tauto.
Qed.

Lemma decisionErrors_codes (p : Parse.ParsedSpec)
      (d : Parse.ParsedDecision) :
  filter traceCode (decisionErrors p d) = decisionErrors p d.
Proof.
  unfold decisionErrors.
  destruct (Parse.supports d); [reflexivity|].
  destruct (unresolvedIntents p d), (unresolvedConstraints p d);
    reflexivity.
Qed.

Lemma trace_errors (p : Parse.ParsedSpec) :
  filter traceCode (ruleErrors p)
  = flat_map (decisionErrors p) (declaredDecisions p).
Proof.
  unfold ruleErrors. rewrite !filter_app.
  assert (H1 : forall l : list Parse.ParsedIntent,
             filter traceCode
                    (map (fun i => intentNotVerifiable (intentRef i)) l)
             = []).
  { induction l; simpl; trivial. }
  assert (H2 : forall ds,
             filter traceCode (flat_map (decisionErrors p) ds)
             = flat_map (decisionErrors p) ds).
  { induction ds as [|d ds IH]; simpl; [reflexivity|].
    now rewrite filter_app, decisionErrors_codes, IH. }
  rewrite H1, H2. destruct (leaks p); simpl; now rewrite app_nil_r.
Qed.

Lemma failing_iff (p : Parse.ParsedSpec) (d : Parse.ParsedDecision) :
  failing p d = true
  <-> Parse.supports d = []
      \/ (exists id, In id (Parse.supports d)
                     /\ JsMap.has (Parse.intents p) id = false)
      \/ (exists id, In id (Parse.respects d)
                     /\ JsMap.has (Parse.constraints p) id = false).
Proof.
  assert (Hne : forall (f : string -> bool) (l : list string),
             filter (fun id => negb (f id)) l <> []
             <-> exists id, In id l /\ f id = false).
  { intros f l. split.
    - destruct (filter _ l) as [|x xs] eqn:E; [congruence|]. intros _.
      assert (Hx : In x (filter (fun id => negb (f id)) l)).
      { rewrite E. now left. }
      apply filter_In in Hx. destruct Hx as [Hx Hf].
      exists x. split; [exact Hx|]. now apply negb_true_iff.
    - intros [x [Hx Hf]] E.
      assert (Hin : In x (filter (fun id => negb (f id)) l)).
      { apply filter_In. split; [exact Hx|]. now rewrite Hf. }
      rewrite E in Hin. exact Hin. }
  unfold failing, decisionErrors.
  rewrite <- (Hne (JsMap.has (Parse.intents p))).
  rewrite <- (Hne (JsMap.has (Parse.constraints p))).
  fold (unresolvedIntents p d). fold (unresolvedConstraints p d).
  destruct (Parse.supports d) as [|x xs]; [tauto|].
  destruct (unresolvedIntents p d), (unresolvedConstraints p d);
    split; try tauto; try discriminate;
    try (intros _; right; left; discriminate);
    try (intros _; right; right; discriminate).
  intros [H|[H|H]]; congruence.
Qed.

(** C7.  V-M3 decision by decision.  A decision without supports is
    charged one UNTRACED_DECISION error whose refs are the placeholder
    constraint and the decision.  A decision with supports and an
    unresolved intent or constraint is charged exactly one
    BROKEN_REFERENCE error, whose refs hold the decision, the first
    unresolved intent or I_DO_NOT_EXIST, and the first unresolved
    constraint or C_DO_NOT_EXIST.  The report carries exactly these
    errors; V-M3 is unsatisfied exactly when some decision fails, and
    its targets are then the references of the failing decisions,
    sorted and without repetition. *)
Theorem decision_traceability (p : Parse.ParsedSpec) :
  supportedVersion p ->
  let r := fst (validateCore p) in
  (forall d,
      Parse.supports d = [] ->
      failing p d = true
      /\ decisionErrors p d
         = [error "UNTRACED_DECISION"
                  "Decision missing traceability links to intents/constraints."
                  [("constraint", JStr "constraints.C2");
                   ("decision",
                    JStr ("decisions." ++ Parse.decision_id d)%string)]])
  /\ (forall d,
         Parse.supports d <> [] ->
         ((exists id, In id (Parse.supports d)
                      /\ JsMap.has (Parse.intents p) id = false)
          \/ (exists id, In id (Parse.respects d)
                         /\ JsMap.has (Parse.constraints p) id = false)) ->
         failing p d = true
         /\ exists e,
           decisionErrors p d = [e]
           /\ code e = "BROKEN_REFERENCE"
           /\ refs e
              = [("decision",
                  JStr ("decisions." ++ Parse.decision_id d)%string);
                 ("intent",
                  JStr (hd "I_DO_NOT_EXIST" (unresolvedIntents p d)));
                 ("constraint",
                  JStr (hd "C_DO_NOT_EXIST" (unresolvedConstraints p d)))])
  /\ (forall d, failing p d = false -> decisionErrors p d = [])
  /\ (forall d,
         failing p d = true
         <-> Parse.supports d = []
             \/ (exists id, In id (Parse.supports d)
                            /\ JsMap.has (Parse.intents p) id = false)
             \/ (exists id, In id (Parse.respects d)
                            /\ JsMap.has (Parse.constraints p) id = false))
  /\ filter traceCode (errors r)
     = flat_map (decisionErrors p) (declaredDecisions p)
  /\ exists o,
      outcomeOf "V-M3" r = Some o
      /\ (status o = unsatisfied
          <-> exists d, In d (declaredDecisions p) /\ failing p d = true)
      /\ (status o = unsatisfied ->
          Order.ascending Js.codeUnitCompare (targets o)
          /\ NoDup (targets o)
          /\ forall t,
              In t (targets o)
              <-> exists d,
                  In d (declaredDecisions p)
                  /\ failing p d = true /\ t = decisionRef d).
Proof.
  intros Hv r.
  split; [|split; [|split; [|split; [apply failing_iff|split]]]].
  - intros d Hd. split; [apply failing_iff; now left|].
    unfold decisionErrors. rewrite Hd. reflexivity.
  - intros d Hd Hbroken.
    assert (Hf : failing p d = true).
    { apply failing_iff. right. exact Hbroken. }
    split; [exact Hf|].
    unfold failing in Hf. unfold decisionErrors in *.
    destruct (Parse.supports d) as [|x xs]; [congruence|].
    destruct (unresolvedIntents p d) as [|bi bis];
      destruct (unresolvedConstraints p d) as [|bc bcs];
      try discriminate; eexists; repeat split.
  - apply failing_false.
  - unfold r. rewrite (errors_supported p Hv). apply trace_errors.
  - destruct (report_supported p Hv) as [Ho _]. fold r in Ho.
    exists (vm3Outcome p (map decisionRef (failingDecisions p))).
    unfold outcomeOf. rewrite Ho.
    destruct (outcomeOf_rules p) as [_ [-> _]].
    destruct (vm3_shape p (map decisionRef (failingDecisions p)))
      as [_ [Hst Ht]].
    split; [reflexivity|].
    assert (Hbad : map decisionRef (failingDecisions p) <> []
                   <-> exists d,
                       In d (declaredDecisions p) /\ failing p d = true).
    { unfold failingDecisions. split.
      - destruct (filter (failing p) (declaredDecisions p)) as [|d ds] eqn:E;
          [simpl; congruence|]. intros _.
        assert (Hd : In d (filter (failing p) (declaredDecisions p))).
        { rewrite E. now left. }
        apply filter_In in Hd. now exists d.
      - intros [d Hd] E. apply filter_In in Hd.
        apply (in_map decisionRef) in Hd. rewrite E in Hd. exact Hd. }
    split.
    + rewrite Hst, <- Hbad.
      destruct (map decisionRef (failingDecisions p));
        split; congruence.
    + intros Hu. rewrite Hst in Hu.
      assert (Hnn : map decisionRef (failingDecisions p) <> []).
      { destruct (map decisionRef (failingDecisions p)); congruence. }
      rewrite (Ht Hnn).
      destruct (sorted_dedup (map decisionRef (failingDecisions p)))
        as [Ha [Hn Hi]].
      split; [exact Ha|]. split; [exact Hn|].
      intros t. rewrite Hi, in_map_iff. unfold failingDecisions.
      split.
      * intros [d [Hd Hin]]. apply filter_In in Hin.
        exists d. intuition.
      * intros [d [Hin [Hf ->]]]. exists d. split; [reflexivity|].
        apply filter_In. now split.
Qed.

(** ** The sample documents *)

Lemma aggregation_precedence_witness :
  supportedVersion (Parse.parseDil Samples.invalidDoc)
  /\ state (fst (validateCore (Parse.parseDil Samples.invalidDoc))) = invalid
  /\ state (fst (validateCore (Parse.parseDil Samples.invalidDoc)))
     <> undecidable.
Proof.
  assert (Hv : supportedVersion (Parse.parseDil Samples.invalidDoc)).
  { vm_compute. reflexivity. }
  split; [exact Hv|].
  destruct (aggregation_precedence (Parse.parseDil Samples.invalidDoc) Hv)
    as [_ [_ [_ H]]].
  apply H.
  - vm_compute. eexists. split; [left; reflexivity | reflexivity].
  - vm_compute. eexists.
    split; [right; right; right; left; reflexivity | reflexivity].
Defined.

Lemma valid_implies_no_errors_witness :
  state (fst (validateCore (Parse.parseDil Samples.validDoc))) = valid
  /\ errors (fst (validateCore (Parse.parseDil Samples.validDoc))) = [].
Proof.
  assert (Hs : state (fst (validateCore (Parse.parseDil Samples.validDoc)))
               = valid).
  { vm_compute. reflexivity. }
  split; [exact Hs|].
  exact (valid_implies_no_errors (Parse.parseDil Samples.validDoc) Hs).
Defined.

Lemma unsupported_version_short_circuit_witness :
  Parse.spec_version (Parse.parseDil Samples.futureDoc) = "DIL:spec v9"
  /\ state (fst (validateCore (Parse.parseDil Samples.futureDoc))) = invalid
  /\ outcomes (fst (validateCore (Parse.parseDil Samples.futureDoc))) = []
  /\ snd (validateCore (Parse.parseDil Samples.futureDoc)) = 1%Z.
Proof.
  assert (Hv : Parse.spec_version (Parse.parseDil Samples.futureDoc)
               <> "DIL:spec v0").
  { vm_compute. discriminate. }
  destruct (unsupported_version_short_circuit
              (Parse.parseDil Samples.futureDoc) Hv) as [H1 [H2 [_ H4]]].
  split; [vm_compute; reflexivity|].
  split; [exact H1|]. split; [exact H2 | exact H4].
Defined.

Lemma five_outcomes_none_inapplicable_witness :
  supportedVersion (Parse.parseDil Samples.undecidableDoc)
  /\ map validation_id
         (outcomes (fst (validateCore
                           (Parse.parseDil Samples.undecidableDoc))))
     = ["V-M1"; "V-M2"; "V-M3"; "V-M4"; "V-M5"].
Proof.
  assert (Hv : supportedVersion (Parse.parseDil Samples.undecidableDoc)).
  { vm_compute. reflexivity. }
  split; [exact Hv|].
  exact (proj1 five_outcomes_none_inapplicable
               (Parse.parseDil Samples.undecidableDoc) Hv).
Defined.

Lemma capability_gap_is_unknown_witness :
  state (fst (validateCore (Parse.parseDil Samples.undecidableDoc)))
  = undecidable
  /\ snd (validateCore (Parse.parseDil Samples.undecidableDoc)) = 2%Z
  /\ errors (fst (validateCore (Parse.parseDil Samples.undecidableDoc))) = [].
Proof.
  assert (Hv : supportedVersion (Parse.parseDil Samples.undecidableDoc)).
  { vm_compute. reflexivity. }
  assert (Hex : exists v cap,
             In v (declaredValidations
                     (Parse.parseDil Samples.undecidableDoc))
             /\ Parse.requires_capability v = Some cap
             /\ cap <> EmptyString
             /\ ~ In cap (Parse.capabilities
                            (Parse.parseDil Samples.undecidableDoc))).
  { exists (Parse.mkValidation "V4" (Some "collect_external_evidence")),
      "collect_external_evidence".
    vm_compute. split; [left; reflexivity|]. split; [reflexivity|].
    split; [discriminate|]. intros [H|[]]. discriminate H. }
  destruct (capability_gap_is_unknown
              (Parse.parseDil Samples.undecidableDoc) Hv Hex) as [_ [_ H]].
  apply H.
  - vm_compute. reflexivity.
  - assert (Hall : forallb (fun o => negb (isStatus unsatisfied o))
                           (outcomes
                              (fst (validateCore
                                      (Parse.parseDil
                                         Samples.undecidableDoc))))
                   = true).
    { vm_compute. reflexivity. }
    intros o Ho Hst.
    apply (proj1 (forallb_forall _ _) Hall) in Ho.
    apply negb_true_iff in Ho.
    apply (proj2 (isStatus_iff unsatisfied o)) in Hst. congruence.
Defined.

Lemma decision_traceability_witness :
  supportedVersion (Parse.parseDil Samples.invalidDoc)
  /\ filter traceCode
            (errors (fst (validateCore (Parse.parseDil Samples.invalidDoc))))
     = flat_map (decisionErrors (Parse.parseDil Samples.invalidDoc))
                (declaredDecisions (Parse.parseDil Samples.invalidDoc)).
Proof.
  assert (Hv : supportedVersion (Parse.parseDil Samples.invalidDoc)).
  { vm_compute. reflexivity. }
  split; [exact Hv|].
  destruct (decision_traceability (Parse.parseDil Samples.invalidDoc) Hv)
    as [_ [_ [_ [_ [H _]]]]].
  exact H.
Defined.

Lemma intent_verifiability_witness :
  supportedVersion (Parse.parseDil Samples.spacedColonDoc)
  /\ Associated (Parse.parseDil Samples.spacedColonDoc)
                (Parse.mkIntent "I1").
Proof.
  assert (Hv : supportedVersion (Parse.parseDil Samples.spacedColonDoc)).
  { vm_compute. reflexivity. }
  split; [exact Hv|].
  destruct (intent_verifiability (Parse.parseDil Samples.spacedColonDoc) Hv)
    as [H _].
  apply H. vm_compute. reflexivity.
Defined.

(** C5 as stated fails when a blank stands before the colon.  In the
    document below no line of the intents section starts with
    [validations:] or [validation:] and no validation requires a
    capability, so intent I1 is not associated in the stated sense; the
    validator finds it associated, V-M1 is satisfied with I1 among its
    targets and the report has no error. *)
Lemma blank_before_colon_is_associated :
  supportedVersion (Parse.parseDil Samples.spacedColonDoc)
  /\ In (Parse.mkIntent "I1")
        (declaredIntents (Parse.parseDil Samples.spacedColonDoc))
  /\ ~ AssociatedStrictly (Parse.parseDil Samples.spacedColonDoc)
                          (Parse.mkIntent "I1")
  /\ associated (Parse.parseDil Samples.spacedColonDoc)
                (Parse.mkIntent "I1") = true
  /\ (exists o,
         outcomeOf "V-M1"
                   (fst (validateCore
                           (Parse.parseDil Samples.spacedColonDoc)))
         = Some o
         /\ status o = satisfied /\ targets o = ["intents.I1"])
  /\ errors (fst (validateCore (Parse.parseDil Samples.spacedColonDoc)))
     = [].
Proof.
  split; [vm_compute; reflexivity|].
  split; [vm_compute; left; reflexivity|].
  split.
  - intros [H | H].
    + destruct H as [pre [h [rest [E [_ [body [v [post [E2 [_ [_ Hc]]]]]]]]]]].
      assert (Hall : forallb (fun l => negb (colonLine l))
                             (contents
                                (intentsRaw
                                   (Parse.parseDil Samples.spacedColonDoc)))
                     = true).
      { vm_compute. reflexivity. }
      assert (Hin : In v (contents
                            (intentsRaw
                               (Parse.parseDil Samples.spacedColonDoc)))).
      { rewrite E, E2. apply in_or_app. right. right.
        apply in_or_app. right. now left. }
      apply (proj1 (forallb_forall _ _) Hall) in Hin.
      rewrite Hc in Hin. discriminate Hin.
    + destruct H as [[v [cap [Hin [Hreq _]]]] _].
      assert (Hall : forallb
                       (fun w => match Parse.requires_capability w with
                                 | None => true
                                 | Some _ => false
                                 end)
                       (declaredValidations
                          (Parse.parseDil Samples.spacedColonDoc))
                     = true).
      { vm_compute. reflexivity. }
      apply (proj1 (forallb_forall _ _) Hall) in Hin.
      rewrite Hreq in Hin. discriminate Hin.
  - split; [vm_compute; reflexivity|].
    split; [|vm_compute; reflexivity].
    eexists. split; [vm_compute; reflexivity|]. split; reflexivity.
Qed.

(** ** V-M5 *)

(** C8, at an input the rule misses.  The document below is valid in
    every other respect and its notes contain both [O(n)] and
    [O(log n)]; V-M5 is satisfied and the report valid, because the two
    complexity signals end in [\)\b] and a closing parenthesis followed
    by a blank, a comma or the end of the text is not a word boundary. *)
Theorem big_o_not_detected :
  (exists k,
      String.index 0 "O(n)"
                   (Parse.raw_text (Parse.parseDil Samples.bigODoc))
      = Some k)
  /\ (exists k,
         String.index 0 "O(log n)"
                      (Parse.raw_text (Parse.parseDil Samples.bigODoc))
         = Some k)
  /\ supportedVersion (Parse.parseDil Samples.bigODoc)
  /\ leaks (Parse.parseDil Samples.bigODoc) = false
  /\ outcomeOf "V-M5"
               (fst (validateCore (Parse.parseDil Samples.bigODoc)))
     = Some (mkOutcome "V-M5" satisfied ["system"] None None None)
  /\ state (fst (validateCore (Parse.parseDil Samples.bigODoc))) = valid
  /\ hasImplementationLeak "O(n)" = false
  /\ hasImplementationLeak "O(n)x" = true.
Proof.
  vm_compute. repeat split; eexists; reflexivity.
Qed.
End RuleFacts.


(* ================================================================== *)
(** * Properties of the emitter *)
(* ================================================================== *)

Module ReportFacts.
Import Report ReportSpec Order EmitShape.

(** Induction on values, through arrays and objects. *)
Lemma json_induction (P : json -> Prop) :
  P JNull ->
  (forall b, P (JBool b)) ->
  (forall s, P (JStr s)) ->
  (forall xs, Forall P xs -> P (JArr xs)) ->
  (forall fs, Forall (fun kv => P (snd kv)) fs -> P (JObj fs)) ->
  forall v, P v.
Proof.
  intros Hnull Hbool Hstr Harr Hobj.
  fix IH 1. intros [ | b | s | xs | fs].
  - exact Hnull.
  - apply Hbool.
  - apply Hstr.
  - apply Harr. induction xs as [|x xs IHxs]; constructor.
    + apply IH.
    + exact IHxs.
  - apply Hobj. induction fs as [|kv fs IHfs]; constructor.
    + apply IH.
    + exact IHfs.
Qed.

Lemma Forall2_impl_in {A B : Type} (R S : A -> B -> Prop)
      (l : list A) (l' : list B) :
  (forall a b, In a l -> R a b -> S a b) ->
  Forall2 R l l' -> Forall2 S l l'.
Proof.
  intros H H2. induction H2 as [|a b l l' Hab H2 IH]; constructor.
  - apply H; [now left | exact Hab].
  - apply IH. intros x y Hx. apply H. now right.
Qed.

Lemma Forall2_map_eq {A B : Type} (f : A -> B) (l l' : list A) :
  Forall2 (fun a b => f a = f b) l l' -> map f l = map f l'.
Proof.
  intros H. induction H as [|a b l l' Hab H IH]; simpl; [reflexivity|].
  now rewrite Hab, IH.
Qed.

(** ** Writing the properties of an object one by one *)

Lemma insertIndex_perm (n : N) (k : string) (v : json) (o : obj) :
  Permutation ((k, v) :: o) (insertIndex n k v o).
Proof.
  induction o as [|[k' v'] o IH]; cbn [insertIndex]; [reflexivity|].
  destruct (arrayIndex k') as [m|]; [|reflexivity].
  destruct (m <? n)%N; [|reflexivity].
  rewrite perm_swap. now constructor.
Qed.

Lemma objSet_proto (o : obj) (k : string) (v : json) :
  ownKey k = false -> objSet o k v = o.
Proof.
  unfold ownKey, objSet. intros H. apply negb_false_iff in H.
  now rewrite H.
Qed.

Lemma objSet_own (o : obj) (k : string) (v : json) :
  ownKey k = true ->
  objSet o k v
  = if JsMap.has o k then JsMap.set o k v
    else match arrayIndex k with
         | Some n => insertIndex n k v o
         | None => o ++ [(k, v)]
         end.
Proof.
  unfold ownKey, objSet. intros H. apply negb_true_iff in H.
  now rewrite H.
Qed.

Lemma objSet_new (o : obj) (k : string) (v : json) :
  ownKey k = true -> JsMap.has o k = false ->
  Permutation (o ++ [(k, v)]) (objSet o k v).
Proof.
  intros Hk H. rewrite (objSet_own o k v Hk), H.
  destruct (arrayIndex k) as [n|]; [|reflexivity].
  rewrite <- insertIndex_perm. symmetry. apply Permutation_cons_append.
Qed.

Lemma has_keys (o : obj) (k : string) :
  JsMap.has o k = true <-> In k (map fst o).
Proof.
  induction o as [|[k' v'] o IH]; cbn [JsMap.has map fst In].
  - split; [discriminate | tauto].
  - destruct (String.eqb k k') eqn:E.
    + apply String.eqb_eq in E. subst. tauto.
    + apply String.eqb_neq in E. rewrite IH. split; [tauto|].
      intros [H|H]; [congruence | exact H].
Qed.

(** The key [__proto__] is passed over. *)
Lemma assemble_own (values : obj) (keys : list string) :
  forall out,
    fold_left (fun o k => objSet o k (objGet values k)) keys out
    = fold_left (fun o k => objSet o k (objGet values k))
                (filter ownKey keys) out.
Proof.
  induction keys as [|k keys IH]; intros out; cbn [fold_left filter];
    [reflexivity|].
  destruct (ownKey k) eqn:E; cbn [fold_left].
  - apply IH.
  - rewrite (objSet_proto out k _ E). apply IH.
Qed.

Lemma assemble_ext_in (keys : list string) (vs vs' : obj) :
  (forall k, In k keys -> objGet vs k = objGet vs' k) ->
  assemble keys vs = assemble keys vs'.
Proof.
  unfold assemble. generalize (@nil (string * json)).
  induction keys as [|k keys IH]; intros out H; cbn [fold_left];
    [reflexivity|].
  rewrite (H k) by now left. apply IH. intros k' Hk'. apply H. now right.
Qed.

Lemma assemble_perm (values : obj) (keys : list string) :
  NoDup keys ->
  forallb ownKey keys = true ->
  forall out,
    (forall k, In k keys -> ~ In k (map fst out)) ->
    Permutation
      (fold_left (fun o k => objSet o k (objGet values k)) keys out)
      (out ++ map (fun k => (k, objGet values k)) keys).
Proof.
  induction 1 as [|k keys Hk Hn IH]; intros Ho out Hout;
    cbn [fold_left map].
  - now rewrite app_nil_r.
  - cbn [forallb] in Ho. apply andb_true_iff in Ho.
    destruct Ho as [Hok Ho].
    assert (Hhas : JsMap.has out k = false).
    { apply not_true_iff_false. rewrite has_keys. apply Hout. now left. }
    pose proof (objSet_new out k (objGet values k) Hok Hhas) as Hp.
    rewrite (IH Ho).
    + rewrite <- Hp, <- app_assoc. reflexivity.
    + intros k' Hk' Hin.
      apply (Permutation_in _ (Permutation_map fst (Permutation_sym Hp)))
        in Hin.
      rewrite map_app in Hin. apply in_app_or in Hin.
      destruct Hin as [Hin|[<-|[]]].
      * apply (Hout k'); [now right | exact Hin].
      * exact (Hk Hk').
Qed.

Lemma filter_all {A : Type} (p : A -> bool) (l : list A) :
  forallb p (filter p l) = true.
Proof.
  apply forallb_forall. intros x Hx. now apply filter_In in Hx.
Qed.

Lemma filter_perm {A : Type} (p : A -> bool) (l l' : list A) :
  Permutation l l' -> Permutation (filter p l) (filter p l').
Proof.
  induction 1 as [|x l l' _ IH|x y l|l l' l'' _ IH1 _ IH2]; cbn [filter].
  - constructor.
  - destruct (p x); [now constructor | exact IH].
  - destruct (p x), (p y); try reflexivity. apply perm_swap.
  - now rewrite IH1.
Qed.

Lemma filter_keys {V : Type} (p : string -> bool)
      (f : string * V -> string * V) (l : list (string * V)) :
  (forall kv, fst (f kv) = fst kv) ->
  filter (fun kv => p (fst kv)) (map f l)
  = map f (filter (fun kv => p (fst kv)) l).
Proof.
  intros Hf. induction l as [|kv l IH]; [reflexivity|].
  cbn [map filter]. rewrite Hf, IH. now destruct (p (fst kv)).
Qed.

Lemma keys_filter {V : Type} (p : string -> bool) (l : list (string * V)) :
  map fst (filter (fun kv => p (fst kv)) l) = filter p (map fst l).
Proof.
  induction l as [|kv l IH]; [reflexivity|].
  cbn [map filter]. destruct (p (fst kv)); cbn [map]; now rewrite IH.
Qed.

Lemma get_in (vs : obj) (k : string) (v : json) :
  NoDup (map fst vs) -> In (k, v) vs -> objGet vs k = v.
Proof.
  unfold objGet. induction vs as [|[k' v'] vs IH]; intros Hn Hin;
    [contradiction|].
  cbn [map fst] in Hn. apply NoDup_cons_iff in Hn. destruct Hn as [Hk Hn].
  cbn [JsMap.get]. destruct Hin as [E|Hin].
  - injection E as -> ->. now rewrite String.eqb_refl.
  - destruct (String.eqb k k') eqn:E; [|now apply IH].
    apply String.eqb_eq in E. subst k'. exfalso. apply Hk.
    apply in_map_iff. now exists (k, v).
Qed.

Lemma get_own (p : string -> bool) (vs : obj) :
  NoDup (map fst vs) ->
  map (fun k => (k, objGet vs k)) (filter p (map fst vs))
  = filter (fun kv => p (fst kv)) vs.
Proof.
  intros Hn. rewrite <- keys_filter, map_map.
  rewrite <- (map_id (filter _ vs)) at 2. apply map_ext_in.
  intros [k v] Hkv. apply filter_In in Hkv. cbn [fst].
  now rewrite (get_in vs k v Hn (proj1 Hkv)).
Qed.

Section Written.
Variable lc : string -> string -> comparison.

Lemma sortedValues_keys (fs : obj) :
  map fst (sortedValues lc fs) = map fst fs.
Proof. unfold sortedValues. rewrite map_map. reflexivity. Qed.

(** The properties written are the sorted properties of the object,
    [__proto__] apart. *)
Lemma deepSortKeys_perm (fs : obj) :
  NoDup (map fst fs) ->
  Permutation (assemble (Js.sort lc (JsMap.keys fs)) (sortedValues lc fs))
              (filter (fun kv => ownKey (fst kv)) (sortedValues lc fs)).
Proof.
  intros Hn. unfold assemble.
  pose proof (SortFacts.sort_perm lc (JsMap.keys fs)) as Hp.
  rewrite assemble_own, assemble_perm.
  - cbn [app]. rewrite (Permutation_map _ (filter_perm ownKey _ _ Hp)).
    unfold JsMap.keys. rewrite <- (sortedValues_keys fs), get_own;
      [reflexivity|].
    now rewrite sortedValues_keys.
  - apply NoDup_filter.
    eapply Permutation_NoDup; [symmetry; exact Hp | exact Hn].
  - apply filter_all.
  - intros k _ [].
Qed.

(** Sorting the keys of an object with distinct keys keeps every
    property but [__proto__], its value sorted. *)
Lemma deepSortKeys_keeps (fs : obj) (k : string) (v : json) :
  NoDup (map fst fs) -> ownKey k = true -> In (k, v) fs ->
  In (k, deepSortKeys lc v)
     (assemble (Js.sort lc (JsMap.keys fs)) (sortedValues lc fs)).
Proof.
  intros Hn Hk Hin.
  apply (Permutation_in _ (Permutation_sym (deepSortKeys_perm fs Hn))).
  apply filter_In. split; [|exact Hk].
  unfold sortedValues. apply in_map_iff. now exists (k, v).
Qed.
End Written.

(** ** Keys the collation tells apart *)

Section Apart.
Variable lc : string -> string -> comparison.
Hypothesis Hc : Consistent lc.

Lemma apart_spec (ks : list string) :
  apart lc ks = true -> NoDup ks /\ separated lc ks.
Proof.
  induction ks as [|k ks IH]; simpl.
  - intros _. split; [constructor | intros a b []].
  - rewrite andb_true_iff, forallb_forall. intros [Hk Hks].
    destruct (IH Hks) as [Hn Hs].
    assert (Hne : forall k', In k' ks -> lc k k' <> Eq).
    { intros k' Hin E. apply Hk in Hin. rewrite E in Hin. discriminate. }
    split.
    + constructor; [|exact Hn]. intros Hin.
      apply (Hne k Hin). apply (SortFacts.cmp_refl lc Hc).
    + intros a b [<-|Ha] [<-|Hb] E; trivial.
      * exfalso. exact (Hne b Hb E).
      * exfalso. apply (Hne a Ha).
        rewrite (cmp_sym lc Hc a k), E. reflexivity.
      * now apply Hs.
Qed.

Lemma get_perm (l l' : obj) (k : string) :
  NoDup (map fst l) -> Permutation l l' ->
  JsMap.get l k = JsMap.get l' k.
Proof.
  intros Hn Hp. revert Hn.
  induction Hp as [|[k1 v1] l l' Hp IH|[k1 v1] [k2 v2] l|l l' l'' H1 IH1 H2 IH2];
    intros Hn.
  - reflexivity.
  - simpl. inversion Hn; subst. now rewrite IH.
  - simpl. destruct (String.eqb k k2) eqn:E2, (String.eqb k k1) eqn:E1;
      try reflexivity.
    exfalso. apply String.eqb_eq in E1, E2. subst.
    inversion Hn; subst. apply H1. now left.
  - rewrite IH1 by exact Hn. apply IH2.
    eapply Permutation_NoDup; [|exact Hn].
    now apply Permutation_map.
Qed.

Lemma deepSortKeys_obj (fs : obj) :
  deepSortKeys lc (JObj fs)
  = JObj (assemble (Js.sort lc (JsMap.keys fs)) (sortedValues lc fs)).
Proof. reflexivity. Qed.

Lemma deepSortKeys_arr (xs : list json) :
  deepSortKeys lc (JArr xs) = JArr (map (deepSortKeys lc) xs).
Proof. reflexivity. Qed.

Lemma assemble_ext (keys : list string) (vs vs' : obj) :
  (forall k, objGet vs k = objGet vs' k) ->
  assemble keys vs = assemble keys vs'.
Proof.
  intros H. unfold assemble. generalize (@nil (string * json)).
  induction keys as [|k keys IH]; intros out; simpl; [reflexivity|].
  now rewrite H, IH.
Qed.

(** Objects with the same keys in the same order and values that
    sort alike sort alike. *)
Lemma deepSortKeys_congr (fs gs : obj) :
  Forall2 (fun kv kv' =>
             fst kv = fst kv'
             /\ deepSortKeys lc (snd kv) = deepSortKeys lc (snd kv'))
          fs gs ->
  deepSortKeys lc (JObj fs) = deepSortKeys lc (JObj gs).
Proof.
  intros H. rewrite !deepSortKeys_obj.
  assert (Hk : JsMap.keys fs = JsMap.keys gs
               /\ sortedValues lc fs = sortedValues lc gs).
  { unfold JsMap.keys, sortedValues.
    induction H as [|kv kv' fs gs [H1 H2] H IH]; simpl; [now split|].
    destruct IH as [-> ->]. now rewrite H1, H2. }
  destruct Hk as [-> ->]. reflexivity.
Qed.

(** Sorting the keys forgets the order they came in. *)
Lemma deepSortKeys_variant (v : json) :
  keysApart lc v = true ->
  forall w, keyVariant v w -> deepSortKeys lc v = deepSortKeys lc w.
Proof.
  induction v as [ | b | s | xs IH | fs IH] using json_induction;
    intros Ha w Hv; inversion Hv; subst; try reflexivity.
  - (* arrays *)
    rewrite !deepSortKeys_arr. f_equal.
    simpl in Ha. rewrite forallb_forall in Ha.
    rewrite Forall_forall in IH.
    match goal with H : Forall2 keyVariant xs _ |- _ => rename H into H2 end.
    apply Forall2_map_eq. eapply Forall2_impl_in; [|exact H2].
    intros x y Hx Hxy. apply IH; [exact Hx | apply Ha, Hx | exact Hxy].
  - (* objects *)
    match goal with
    | Hp : Permutation fs ?m0, H2 : Forall2 _ ?m0 ?gs0 |- _ =>
        rename Hp into Hperm; rename H2 into Hrel;
        rename m0 into m; rename gs0 into gs
    end.
    simpl in Ha. apply andb_true_iff in Ha. destruct Ha as [Hkeys Hvals].
    destruct (apart_spec _ Hkeys) as [Hnd Hsep].
    rewrite forallb_forall in Hvals. rewrite Forall_forall in IH.
    assert (Hm : Forall2 (fun kv kv' =>
                            fst kv = fst kv'
                            /\ deepSortKeys lc (snd kv)
                               = deepSortKeys lc (snd kv'))
                         m gs).
    { assert (Hin : forall kv, In kv m -> In kv fs).
      { intros kv Hkv. eapply Permutation_in; [symmetry; exact Hperm|].
        exact Hkv. }
      eapply Forall2_impl_in; [|exact Hrel].
      intros kv kv' Hkv [H1 H2]. split; [exact H1|].
      apply IH; [apply Hin, Hkv | apply Hvals, Hin, Hkv | exact H2]. }
    rewrite <- (deepSortKeys_congr m gs Hm).
    rewrite !deepSortKeys_obj. f_equal.
    assert (Hk : Permutation (JsMap.keys fs) (JsMap.keys m)).
    { unfold JsMap.keys. now apply Permutation_map. }
    rewrite (SortFacts.sort_unique lc Hc _ _ Hk Hsep).
    apply assemble_ext. intros k. unfold objGet.
    rewrite (get_perm (sortedValues lc fs) (sortedValues lc m) k).
    + reflexivity.
    + unfold sortedValues. rewrite map_map. simpl. exact Hnd.
    + unfold sortedValues. now apply Permutation_map.
Qed.

End Apart.

(** ** Orders by two keys *)

Lemma lex_consistent {K A B : Type} (pa : K -> A) (pb : K -> B)
      (ca : A -> A -> comparison) (cb : B -> B -> comparison) :
  Consistent ca -> Consistent cb -> Consistent (lexCompare pa pb ca cb).
Proof.
  intros Ha Hb. unfold lexCompare. constructor.
  - intros x y. rewrite (cmp_sym ca Ha (pa x) (pa y)).
    destruct (ca (pa x) (pa y)); simpl; try reflexivity.
    apply (cmp_sym cb Hb).
  - intros x y z.
    destruct (ca (pa x) (pa y)) eqn:E1; try discriminate;
      destruct (ca (pa y) (pa z)) eqn:E2; try discriminate;
      intros H1 H2.
    + rewrite (cmp_compat ca Ha _ _ (pa z) E1), E2.
      exact (cmp_trans cb Hb _ _ _ H1 H2).
    + now rewrite (cmp_compat ca Ha _ _ (pa z) E1), E2.
    + assert (E3 : ca (pa z) (pa y) = Eq).
      { rewrite (cmp_sym ca Ha (pa y) (pa z)), E2. reflexivity. }
      pose proof (cmp_compat ca Ha _ _ (pa x) E3) as E4.
      rewrite (cmp_sym ca Ha (pa x) (pa z)),
        (cmp_sym ca Ha (pa x) (pa y)), E1 in E4.
      simpl in E4. destruct (ca (pa x) (pa z)); simpl in E4;
        congruence.
    + now rewrite (cmp_trans ca Ha _ _ _ E1 E2).
  - intros x y z.
    destruct (ca (pa x) (pa y)) eqn:E1; try discriminate. intros H1.
    rewrite (cmp_compat ca Ha _ _ (pa z) E1).
    destruct (ca (pa y) (pa z)); try reflexivity.
    exact (cmp_compat cb Hb _ _ (pb z) H1).
Qed.

Section Emit.
Variable lc : string -> string -> comparison.
Hypothesis Hc : Consistent lc.

Lemma compareKeys_consistent : Consistent (compareKeys lc).
Proof. unfold compareKeys. now apply lex_consistent. Qed.

Lemma compareOutcomes_consistent : Consistent (compareOutcomes lc).
Proof.
  exact (lex_consistent validation_id
                        (fun o => Js.join nul (targets o)) lc lc Hc Hc).
Qed.

Lemma compareErrors_consistent : Consistent (compareErrors lc).
Proof.
  exact (lex_consistent code
                        (fun e => stableStringify lc (JObj (refs e)))
                        lc lc Hc Hc).
Qed.

Lemma compareOutcomes_keys (a b : ValidationOutcome) :
  compareOutcomes lc a b
  = compareKeys lc (outcomeKey lc a) (outcomeKey lc b).
Proof. reflexivity. Qed.

Lemma compareErrors_keys (a b : StructuredError) :
  compareErrors lc a b = compareKeys lc (errorKey lc a) (errorKey lc b).
Proof. reflexivity. Qed.

(** ** Entries that sort alike *)

Lemma alike_refl (l : obj) : Forall2 (alike lc) l l.
Proof. induction l; constructor; [now split | assumption]. Qed.

Lemma items_alike (ev ev' : option (list obj)) :
  itemsApart lc ev = true ->
  optionRel (Forall2 objVariant) ev ev' ->
  Forall2 (alike lc)
          (optional "evidence" items (option_map (map (fun e : obj => e)) ev))
          (optional "evidence" items
                    (option_map (map (fun e : obj => e)) ev')).
Proof.
  destruct ev as [l|], ev' as [l'|]; simpl; try contradiction;
    [|constructor].
  intros Ha Hv. constructor; [|constructor]. split; [reflexivity|].
  cbn [snd]. unfold items. rewrite !deepSortKeys_arr, !map_map. f_equal.
  rewrite forallb_forall in Ha.
  apply (Forall2_map_eq (fun e => deepSortKeys lc (JObj e))).
  eapply Forall2_impl_in; [|exact Hv].
  intros e e' He Hee.
  apply (deepSortKeys_variant lc Hc); [apply Ha, He | exact Hee].
Qed.

Lemma outcome_key (o o' : ValidationOutcome) :
  outcomeApart lc o = true -> outcomeVariant o o' ->
  outcomeKey lc (normalizeOutcome lc o)
  = outcomeKey lc (normalizeOutcome lc o').
Proof.
  destruct o as [vid st tg rs ev nt], o' as [vid' st' tg' rs' ev' nt'].
  unfold outcomeApart, outcomeVariant. cbn [validation_id status targets
    reason evidence notes].
  intros Ha [<- [<- [<- [<- [Hev <-]]]]].
  unfold outcomeKey, normalizeOutcome.
  cbn [validation_id status targets reason evidence notes].
  f_equal. unfold json_of_outcome.
  cbn [validation_id status targets reason evidence notes].
  apply deepSortKeys_congr.
  repeat apply Forall2_app; try apply alike_refl.
  now apply items_alike.
Qed.

Lemma error_key (e e' : StructuredError) :
  errorApart lc e = true -> errorVariant e e' ->
  errorKey lc (normalizeError e) = errorKey lc (normalizeError e').
Proof.
  destruct e as [cd ms rf ev nt], e' as [cd' ms' rf' ev' nt'].
  unfold errorApart, errorVariant.
  cbn [code message refs e_evidence e_notes].
  rewrite andb_true_iff. intros [Hr Ha] [<- [<- [Hrefs [Hev <-]]]].
  assert (Hd : deepSortKeys lc (JObj rf) = deepSortKeys lc (JObj rf')).
  { now apply deepSortKeys_variant. }
  unfold errorKey, normalizeError, stableStringify.
  cbn [code message refs e_evidence e_notes]. rewrite Hd.
  f_equal. unfold json_of_error.
  cbn [code message refs e_evidence e_notes].
  apply deepSortKeys_congr.
  repeat apply Forall2_app; try apply alike_refl.
  - repeat constructor. exact Hd.
  - now apply items_alike.
Qed.

(** ** Sorting a rearranged list *)

Lemma rearranged_keys {A K : Type} (key : A -> K) (R : A -> A -> Prop)
      (l l' : list A) :
  (forall a b, In a l -> R a b -> key a = key b) ->
  rearranged R l l' -> Permutation (map key l) (map key l').
Proof.
  intros H [m [Hp H2]].
  rewrite <- (Forall2_map_eq key m l').
  - now apply Permutation_map.
  - eapply Forall2_impl_in; [|exact H2].
    intros a b Ha. apply H.
    eapply Permutation_in; [symmetry; exact Hp | exact Ha].
Qed.

Lemma sorted_keys {A K : Type} (key : A -> K)
      (cmpA : A -> A -> comparison) (cmpK : K -> K -> comparison)
      (R : A -> A -> Prop) (l l' : list A) :
  Consistent cmpK ->
  (forall a b, cmpA a b = cmpK (key a) (key b)) ->
  (forall a b, In a l -> R a b -> key a = key b) ->
  tiesAgree cmpA R l ->
  rearranged R l l' ->
  map key (Js.sort cmpA l) = map key (Js.sort cmpA l').
Proof.
  intros HK Hfac Hkey Hties Hre.
  rewrite !(SortFacts.sort_map key cmpA cmpK Hfac).
  apply (SortFacts.sort_unique cmpK HK).
  - eapply rearranged_keys; eauto.
  - intros x y Hx Hy E.
    apply in_map_iff in Hx. destruct Hx as [a [<- Ha]].
    apply in_map_iff in Hy. destruct Hy as [b [<- Hb]].
    apply Hkey; [exact Ha|]. apply Hties; auto. now rewrite Hfac.
Qed.

Lemma sorted_outcomes (os os' : list ValidationOutcome) :
  forallb (outcomeApart lc) os = true ->
  tiesAgree (fun a b => compareOutcomes lc (normalizeOutcome lc a)
                                        (normalizeOutcome lc b))
            outcomeVariant os ->
  rearranged outcomeVariant os os' ->
  map (fun o => deepSortKeys lc (json_of_outcome o))
      (Js.sort (compareOutcomes lc) (map (normalizeOutcome lc) os))
  = map (fun o => deepSortKeys lc (json_of_outcome o))
        (Js.sort (compareOutcomes lc) (map (normalizeOutcome lc) os')).
Proof.
  intros Ha Hties Hre. rewrite forallb_forall in Ha.
  assert (Hn : forall l,
             map (outcomeKey lc)
                 (Js.sort (compareOutcomes lc)
                          (map (normalizeOutcome lc) l))
             = Js.sort (compareKeys lc)
                       (map (fun o => outcomeKey lc (normalizeOutcome lc o))
                            l)).
  { intros l.
    rewrite (SortFacts.sort_map (outcomeKey lc) (compareOutcomes lc)
                                (compareKeys lc) compareOutcomes_keys).
    now rewrite map_map. }
  assert (Hk : map (outcomeKey lc)
                   (Js.sort (compareOutcomes lc)
                            (map (normalizeOutcome lc) os))
               = map (outcomeKey lc)
                     (Js.sort (compareOutcomes lc)
                              (map (normalizeOutcome lc) os'))).
  { rewrite !Hn.
    apply (SortFacts.sort_unique (compareKeys lc) compareKeys_consistent).
    - eapply rearranged_keys; [|exact Hre].
      intros a b Hin Hab. apply outcome_key; auto.
    - intros x y Hx Hy E.
      apply in_map_iff in Hx. destruct Hx as [a [<- Hin]].
      apply in_map_iff in Hy. destruct Hy as [b [<- Hb]].
      apply outcome_key; [now apply Ha|].
      apply Hties; auto. }
  apply (f_equal (map snd)) in Hk. rewrite !map_map in Hk. exact Hk.
Qed.

Lemma sorted_errors (es es' : list StructuredError) :
  forallb (errorApart lc) es = true ->
  tiesAgree (fun a b => compareErrors lc (normalizeError a)
                                      (normalizeError b))
            errorVariant es ->
  rearranged errorVariant es es' ->
  map (fun e => deepSortKeys lc (json_of_error e))
      (Js.sort (compareErrors lc) (map normalizeError es))
  = map (fun e => deepSortKeys lc (json_of_error e))
        (Js.sort (compareErrors lc) (map normalizeError es')).
Proof.
  intros Ha Hties Hre. rewrite forallb_forall in Ha.
  assert (Hn : forall l,
             map (errorKey lc)
                 (Js.sort (compareErrors lc) (map normalizeError l))
             = Js.sort (compareKeys lc)
                       (map (fun e => errorKey lc (normalizeError e)) l)).
  { intros l.
    rewrite (SortFacts.sort_map (errorKey lc) (compareErrors lc)
                                (compareKeys lc) compareErrors_keys).
    now rewrite map_map. }
  assert (Hk : map (errorKey lc)
                   (Js.sort (compareErrors lc) (map normalizeError es))
               = map (errorKey lc)
                     (Js.sort (compareErrors lc)
                              (map normalizeError es'))).
  { rewrite !Hn.
    apply (SortFacts.sort_unique (compareKeys lc) compareKeys_consistent).
    - eapply rearranged_keys; [|exact Hre].
      intros a b Hin Hab. apply error_key; auto.
    - intros x y Hx Hy E.
      apply in_map_iff in Hx. destruct Hx as [a [<- Hin]].
      apply in_map_iff in Hy. destruct Hy as [b [<- Hb]].
      apply error_key; [now apply Ha|].
      apply Hties; auto. }
  apply (f_equal (map snd)) in Hk. rewrite !map_map in Hk. exact Hk.
Qed.

Lemma emit_variant (r r' : CanonicalReport) :
  reportApart lc r = true ->
  noTies lc r ->
  reportVariant r r' ->
  emitCanonicalReport lc r = emitCanonicalReport lc r'.
Proof.
  intros Ha [Hto Hte] Hv.
  destruct r as [sv sid st os es nt ext],
           r' as [sv' sid' st' os' es' nt' ext'].
  unfold reportVariant in Hv.
  cbn [spec_version system_id state outcomes errors r_notes extensions]
    in Hv, Hto, Hte.
  destruct Hv as [<- [<- [<- [Hos [Hes [<- Hext]]]]]].
  unfold reportApart in Ha.
  cbn [outcomes errors extensions] in Ha.
  apply andb_true_iff in Ha. destruct Ha as [Ha Hax].
  apply andb_true_iff in Ha. destruct Ha as [Hao Hae].
  unfold emitCanonicalReport. f_equal.
  unfold normalize, json_of_report.
  cbn [spec_version system_id state outcomes errors r_notes extensions].
  apply deepSortKeys_congr.
  repeat apply Forall2_app; try apply alike_refl.
  - repeat constructor; cbn [snd]; rewrite !deepSortKeys_arr, !map_map;
      f_equal.
    + now apply sorted_outcomes.
    + now apply sorted_errors.
  - destruct ext as [x|], ext' as [x'|]; simpl in Hext; try contradiction;
      [|constructor].
    repeat constructor. cbn [snd]. now apply deepSortKeys_variant.
Qed.

(** The object the emitter prints lists the outcomes and the errors
    of the normalized report, each in the order of its list. *)
Lemma printed_lists (n : CanonicalReport) :
  exists printed,
    deepSortKeys lc (json_of_report n) = JObj printed
    /\ In ("outcomes",
           JArr (map (fun o => deepSortKeys lc (json_of_outcome o))
                     (outcomes n)))
          printed
    /\ In ("errors",
           JArr (map (fun e => deepSortKeys lc (json_of_error e))
                     (errors n)))
          printed.
Proof.
  unfold json_of_report. rewrite deepSortKeys_obj.
  eexists. split; [reflexivity|].
  match goal with
  | |- In _ (assemble _ (sortedValues lc ?fs)) /\ _ =>
      assert (Hn : NoDup (map fst fs))
  end.
  { destruct (r_notes n), (extensions n); cbn [optional app map fst];
      repeat (constructor; [cbn [In]; intuition discriminate|]);
      constructor. }
  split; rewrite <- map_map, <- deepSortKeys_arr;
    (apply (deepSortKeys_keeps lc _ _ _ Hn); [reflexivity|]);
    cbn [app In]; auto 10.
Qed.

(** C3, for a collation that is a consistent comparator.  When the
    collation tells apart the keys of every nested object and ties two
    outcomes or two errors only if they are the same up to the order of
    nested keys, the emitted text does not depend on the order of the
    outcomes, on the order of the errors, or on the order of keys in
    any nested object.  In every report, the emitted text prints the
    outcomes and the errors of the normalized report in the order of
    its lists, and there the outcomes that tie with a given outcome,
    and the errors that tie with a given error, stand in the order they
    have in the input. *)
Theorem emit_order_independent (r : CanonicalReport) :
  (forall r',
      reportApart lc r = true ->
      noTies lc r ->
      reportVariant r r' ->
      emitCanonicalReport lc r = emitCanonicalReport lc r')
  /\ (exists printed,
         emitCanonicalReport lc r
         = stringifyIndented EmptyString (JObj printed)
         /\ In ("outcomes",
                JArr (map (fun o => deepSortKeys lc (json_of_outcome o))
                          (outcomes (normalize lc r))))
               printed
         /\ In ("errors",
                JArr (map (fun e => deepSortKeys lc (json_of_error e))
                          (errors (normalize lc r))))
               printed)
  /\ (forall o,
         tied (compareOutcomes lc) o (outcomes (normalize lc r))
         = tied (compareOutcomes lc) o
                (map (normalizeOutcome lc) (outcomes r)))
  /\ (forall e,
         tied (compareErrors lc) e (errors (normalize lc r))
         = tied (compareErrors lc) e (map normalizeError (errors r))).
Proof.
  split; [intros r' Ha Ht Hv; now apply emit_variant|].
  split.
  - destruct (printed_lists (normalize lc r)) as [printed [E [Ho He]]].
    exists printed. unfold emitCanonicalReport. cbv zeta. rewrite E.
    split; [reflexivity|]. split; [exact Ho | exact He].
  - unfold normalize. cbn [outcomes errors]. split.
    + intros o.
      apply (SortFacts.sort_stable _ compareOutcomes_consistent).
    + intros e. apply (SortFacts.sort_stable _ compareErrors_consistent).
Qed.

End Emit.

(** ** Sample reports *)

Lemma keyVariant_refl (v : json) : keyVariant v v.
Proof.
  induction v as [ | b | s | xs IH | fs IH] using json_induction;
    try constructor.
  - induction IH; constructor; assumption.
  - apply (kv_obj fs fs fs); [reflexivity|].
    induction IH; constructor; [now split | assumption].
Qed.

Lemma items_refl (ev : option (list obj)) :
  optionRel (Forall2 objVariant) ev ev.
Proof.
  destruct ev as [l|]; simpl; [|exact I].
  induction l; constructor; [apply keyVariant_refl | assumption].
Qed.

Lemma outcomeVariant_refl (o : ValidationOutcome) : outcomeVariant o o.
Proof. repeat split. apply items_refl. Qed.

Lemma errorVariant_refl (e : StructuredError) : errorVariant e e.
Proof.
  repeat split; [apply keyVariant_refl | apply items_refl].
Qed.

(** C3 as stated fails on outcomes that tie.  The two reports below
    differ only in the order of their two outcomes, which share their
    name and targets and differ in status; the stable sort leaves each
    pair in its input order, and the two texts differ. *)
Lemma twins_keep_input_order :
  Consistent Js.codeUnitCompare
  /\ reportApart Js.codeUnitCompare twinsAB = true
  /\ reportVariant twinsAB twinsBA
  /\ emitCanonicalReport Js.codeUnitCompare twinsAB
     <> emitCanonicalReport Js.codeUnitCompare twinsBA.
Proof.
  split; [exact SortFacts.codeUnit_consistent|].
  split; [reflexivity|].
  split.
  - unfold reportVariant, twinsAB, twinsBA. simpl.
    repeat split.
    + exists [twinB; twinA]. split; [apply perm_swap|].
      repeat constructor.
    + exists []. split; constructor.
  - apply String.eqb_neq. vm_compute. reflexivity.
Qed.

(** ** The emitter sees the collation only through its results *)

Section Collations.
Variables lc lc' : string -> string -> comparison.
Hypothesis Hlc : forall a b, lc a b = lc' a b.

Lemma deepSortKeys_ext (v : json) : deepSortKeys lc v = deepSortKeys lc' v.
Proof.
  induction v as [ | b | s | xs IH | fs IH] using json_induction;
    try reflexivity.
  - cbn [deepSortKeys]. f_equal.
    induction IH; [reflexivity|]. simpl. now f_equal.
  - cbn [deepSortKeys]. cbv zeta. f_equal.
    rewrite (SortFacts.sort_ext lc lc' Hlc).
    assert (E : map (fun kv : string * json =>
                       (fst kv, deepSortKeys lc (snd kv))) fs
                = map (fun kv => (fst kv, deepSortKeys lc' (snd kv))) fs).
    { induction IH as [|kv l H _ IHl]; [reflexivity|].
      simpl. rewrite H, IHl. reflexivity. }
    rewrite E. reflexivity.
Qed.

Lemma normalizeOutcome_ext (o : ValidationOutcome) :
  normalizeOutcome lc o = normalizeOutcome lc' o.
Proof.
  unfold normalizeOutcome. now rewrite (SortFacts.sort_ext lc lc' Hlc).
Qed.

Lemma compareOutcomes_ext (a b : ValidationOutcome) :
  compareOutcomes lc a b = compareOutcomes lc' a b.
Proof. unfold compareOutcomes. now rewrite !Hlc. Qed.

Lemma compareErrors_ext (a b : StructuredError) :
  compareErrors lc a b = compareErrors lc' a b.
Proof.
  unfold compareErrors, stableStringify.
  now rewrite !Hlc, !deepSortKeys_ext.
Qed.

Lemma emit_ext (r : CanonicalReport) :
  emitCanonicalReport lc r = emitCanonicalReport lc' r.
Proof.
  unfold emitCanonicalReport, normalize.
  rewrite deepSortKeys_ext.
  rewrite (SortFacts.sort_ext _ _ compareOutcomes_ext).
  rewrite (SortFacts.sort_ext _ _ compareErrors_ext).
  rewrite (map_ext _ _ normalizeOutcome_ext).
  reflexivity.
Qed.
End Collations.

Lemma within_eq (keys : list string)
      (lc lc' : string -> string -> comparison) :
  (forall a, lc a a = Eq) -> agreeOn keys lc lc' ->
  forall a b, lc a b = within keys lc lc' a b.
Proof.
  intros Hr H a b. unfold within.
  destruct (String.eqb a b) eqn:Eab.
  { apply String.eqb_eq in Eab. subst b. apply Hr. }
  destruct (existsb (String.eqb a) keys) eqn:Ea; [|reflexivity].
  destruct (existsb (String.eqb b) keys) eqn:Eb; [|reflexivity].
  apply existsb_exists in Ea. destruct Ea as [x [Hx Ex]].
  apply existsb_exists in Eb. destruct Eb as [y [Hy Ey]].
  apply String.eqb_eq in Ex, Ey. subst x y. simpl. now apply H.
Qed.

(** The twins stay in input order under every collation that compares a
    string equal to itself and orders the property names of a report as
    their code units do: the two texts differ whatever the collation does
    elsewhere. *)
Lemma twins_under_any_collation (lc : string -> string -> comparison) :
  (forall a, lc a a = Eq) ->
  agreeOn reportKeys lc Js.codeUnitCompare ->
  emitCanonicalReport lc twinsAB <> emitCanonicalReport lc twinsBA.
Proof.
  intros Hr H.
  rewrite !(emit_ext lc _ (within_eq _ _ _ Hr H)).
  apply String.eqb_neq. vm_compute. reflexivity.
Qed.

(** The keys of a nested object must be told apart as well: two
    keys the collation ties, neither an array index nor [__proto__],
    come out of the sort in the order they went in. *)
Lemma tied_keys_stay_in_input_order
      (lc : string -> string -> comparison) (k1 k2 : string)
      (v1 v2 : json) :
  lc k1 k2 = Eq -> lc k2 k1 = Eq -> k1 <> k2 ->
  arrayIndex k1 = None -> arrayIndex k2 = None ->
  k1 <> protoKey -> k2 <> protoKey ->
  deepSortKeys lc (JObj [(k1, v1); (k2, v2)])
  = JObj [(k1, deepSortKeys lc v1); (k2, deepSortKeys lc v2)]
  /\ deepSortKeys lc (JObj [(k2, v2); (k1, v1)])
     = JObj [(k2, deepSortKeys lc v2); (k1, deepSortKeys lc v1)].
Proof.
  intros E12 E21 Hne I1 I2 P1 P2.
  apply String.eqb_neq in P1, P2.
  assert (N12 : String.eqb k1 k2 = false) by now apply String.eqb_neq.
  assert (N21 : String.eqb k2 k1 = false)
    by (apply String.eqb_neq; congruence).
  split; cbn [deepSortKeys JsMap.keys map fst snd Js.sort Js.insert];
    cbv zeta; rewrite ?E12, ?E21; cbn [fold_left];
    unfold objSet, objGet;
    cbn [JsMap.has JsMap.get JsMap.set app fst snd];
    rewrite ?P1, ?P2, ?I1, ?I2, ?N12, ?N21, ?String.eqb_refl;
    cbn [JsMap.has JsMap.get JsMap.set app];
    rewrite ?P1, ?P2, ?I1, ?I2, ?N12, ?N21, ?String.eqb_refl;
    reflexivity.
Qed.

Lemma emit_order_independent_witness :
  shuffledA <> shuffledB
  /\ emitCanonicalReport Js.codeUnitCompare shuffledA
     = emitCanonicalReport Js.codeUnitCompare shuffledB.
Proof.
  split; [discriminate|].
  apply (proj1 (emit_order_independent Js.codeUnitCompare
                                       SortFacts.codeUnit_consistent
                                       shuffledA)).
  - vm_compute. reflexivity.
  - split.
    + intros a b [<-|[<-|[]]] [<-|[<-|[]]] E;
        try apply outcomeVariant_refl; exfalso;
        vm_compute in E; discriminate E.
    + intros a b [<-|[<-|[]]] [<-|[<-|[]]] E;
        try apply errorVariant_refl; exfalso;
        vm_compute in E; discriminate E.
  - unfold reportVariant, shuffledA, shuffledB.
    cbn [spec_version system_id state outcomes errors r_notes extensions].
    split; [reflexivity|]. split; [reflexivity|]. split; [reflexivity|].
    split; [|split; [|split; [reflexivity|]]].
    + eexists. split; [apply perm_swap|].
      constructor; [apply outcomeVariant_refl|].
      constructor; [|constructor].
      unfold outcomeVariant. simpl. repeat split.
      constructor; [|constructor].
      eapply kv_obj; [apply perm_swap|]. repeat constructor.
    + eexists. split; [apply perm_swap|].
      constructor; [|constructor; [|constructor]].
      * unfold errorVariant. simpl. repeat split.
        eapply kv_obj;
          [apply (Permutation_rev [("decision", JStr "decisions.D2");
                                   ("intent", JStr "I_GONE");
                                   ("constraint", JStr "C_GONE")])|].
        simpl. repeat constructor.
      * unfold errorVariant. simpl. repeat split.
        eapply kv_obj; [apply perm_swap|]. repeat constructor.
    + simpl. eapply kv_obj; [apply perm_swap|].
      constructor; [split; [reflexivity | constructor]|].
      constructor; [|constructor].
      split; [reflexivity|]. cbn [snd]. constructor.
      constructor; [|constructor].
      eapply kv_obj; [apply perm_swap|]. repeat constructor.
Defined.


End ReportFacts.

Module EngineFacts.
Import Report Validate RuleSpec RuleFacts EngineShape.

Lemma failing_errors (p : Parse.ParsedSpec) (ds : list Parse.ParsedDecision) :
  filter (failing p) ds <> [] -> flat_map (decisionErrors p) ds <> [].
Proof.
  induction ds as [|d ds IH]; simpl; [congruence|].
  unfold failing at 1.
  destruct (decisionErrors p d) as [|e es] eqn:E; simpl.
  - exact IH.
  - discriminate.
Qed.

Lemma ruleErrors_cons (p : Parse.ParsedSpec) :
  leaks p || hasStatus unsatisfied (ruleOutcomes p) = true ->
  ruleErrors p <> [].
Proof.
  intros H. unfold ruleErrors.
  destruct (leaks p) eqn:Hl.
  - intros E. apply app_eq_nil in E. destruct E as [_ E].
    apply app_eq_nil in E. destruct E as [_ E]. discriminate E.
  - cbn [orb] in H. unfold hasStatus, ruleOutcomes in H.
    cbn [existsb] in H. unfold isStatus in H.
    rewrite vm1_status in H.
    destruct (vm2_shape p) as [_ E2]. rewrite E2 in H.
    destruct (vm3_shape p (map decisionRef (failingDecisions p)))
      as [_ [E3 _]]. rewrite E3 in H.
    destruct (vm4_shape p) as [_ E4]. rewrite E4 in H.
    rewrite Hl in H.
    destruct (vm5_shape false) as [_ [E5 _]]. rewrite E5 in H.
    destruct (unassociated p) as [|i more]; [|discriminate].
    destruct (failingDecisions p) as [|d ds] eqn:Ef.
    + exfalso. cbn in H. destruct (uncovered p); discriminate H.
    + intros E. cbn [map app] in E.
      apply app_eq_nil in E. destruct E as [E _].
      revert E. apply failing_errors.
      unfold failingDecisions in Ef. rewrite Ef. discriminate.
Qed.

(** The three ways a run of the rules ends. *)
Lemma verdict_cases (p : Parse.ParsedSpec) :
  let r := fst (validateCore p) in
  let exit_code := snd (validateCore p) in
  (state r = invalid /\ exit_code = 1%Z /\ errors r <> [])
  \/ (state r = undecidable /\ exit_code = 2%Z /\ errors r = [])
  \/ (state r = valid /\ exit_code = 0%Z /\ errors r = []).
Proof.
  destruct (supported_dec p) as [Hv|Hv].
  - rewrite (validateCore_supported p Hv). cbn [fst snd errors state].
    unfold verdict.
    destruct (leaks p || hasStatus unsatisfied (ruleOutcomes p)) eqn:Hbad.
    + cbn [fst snd isValid]. left.
      split; [reflexivity|]. split; [reflexivity|].
      now apply ruleErrors_cons.
    + apply orb_false_elim in Hbad. destruct Hbad as [Hl Hu].
      destruct (hasStatus unknown (ruleOutcomes p));
        cbn [fst snd isValid]; [right; left | right; right];
        repeat split. now apply ruleErrors_nil.
  - rewrite (validateCore_unsupported p Hv). cbn [fst snd errors state].
    left. repeat split. discriminate.
Qed.

(** X1.  The contract between the state, the exit code and the errors,
    on every parsed specification, supported or not: the errors are
    non-empty exactly in an invalid report, and the exit code is 0, 1 or
    2 exactly when the state is valid, invalid or undecidable. *)
Theorem errors_iff_invalid (p : Parse.ParsedSpec) :
  let r := fst (validateCore p) in
  (errors r <> [] <-> state r = invalid)
  /\ agrees (snd (validateCore p)) (state r).
Proof.
  intros r. unfold agrees.
  destruct (verdict_cases p) as [[H1 [H2 H3]]|[[H1 [H2 H3]]|[H1 [H2 H3]]]];
    fold r in H1, H3; rewrite H1, H2;
    repeat split; intros; try discriminate; try congruence.
Qed.

Lemma decisionErrors_known (p : Parse.ParsedSpec)
      (d : Parse.ParsedDecision) :
  Forall (fun e => In (code e) knownCodes
                   /\ e_evidence e = None /\ e_notes e = None)
         (decisionErrors p d).
Proof.
  unfold decisionErrors.
  destruct (Parse.supports d).
  - constructor; [|constructor]. simpl. auto 10.
  - destruct (unresolvedIntents p d), (unresolvedConstraints p d);
      [constructor | | |]; (constructor; [|constructor]); simpl; auto 10.
Qed.

(** X2.  Every error of a report carries one of the five codes of the
    rule engine, without evidence or notes: the PARSE_ERROR issues of
    the parser never reach the report. *)
Theorem error_codes (p : Parse.ParsedSpec) :
  Forall (fun e => In (code e) knownCodes
                   /\ code e <> "PARSE_ERROR"
                   /\ e_evidence e = None /\ e_notes e = None)
         (errors (fst (validateCore p))).
Proof.
  assert (Hk : forall e,
             In (code e) knownCodes /\ e_evidence e = None
             /\ e_notes e = None ->
             In (code e) knownCodes /\ code e <> "PARSE_ERROR"
             /\ e_evidence e = None /\ e_notes e = None).
  { intros e [H1 H2]. split; [exact H1|]. split; [|exact H2].
    intros E. rewrite E in H1. simpl in H1.
    repeat (destruct H1 as [H1|H1]; [discriminate H1|]). exact H1. }
  apply Forall_forall. intros e He. apply Hk. revert e He.
  apply Forall_forall.
  destruct (supported_dec p) as [Hv|Hv].
  - rewrite (errors_supported p Hv). unfold ruleErrors.
    apply Forall_app. split; [|apply Forall_app; split].
    + apply Forall_forall. intros e He. apply in_map_iff in He.
      destruct He as [i [<- _]]. simpl. auto 10.
    + apply Forall_forall. intros e He. apply in_flat_map in He.
      destruct He as [d [_ He]].
      exact (proj1 (Forall_forall _ _) (decisionErrors_known p d) e He).
    + destruct (leaks p); [|constructor].
      constructor; [|constructor]. simpl. auto 10.
  - rewrite (validateCore_unsupported p Hv). cbn [fst errors].
    constructor; [|constructor]. simpl. auto 10.
Qed.

(** X3.  V-M4 is never unsatisfied. It is satisfied exactly when every
    capability a validation requires is declared, and then it has no
    targets and its note lists the declared [emit_structured_]
    capabilities in declaration order. *)
Theorem capability_coverage (p : Parse.ParsedSpec) :
  supportedVersion p ->
  exists o,
    outcomeOf "V-M4" (fst (validateCore p)) = Some o
    /\ status o <> unsatisfied
    /\ (status o = satisfied <-> covered p)
    /\ (status o = satisfied ->
        targets o = [] /\ reason o = None
        /\ notes o
           = Some [("Validations are executable using declared capabilities ("
                      ++ Js.join ", " (emitCaps p) ++ ").")%string]).
Proof.
  intros Hv. exists (vm4Outcome p).
  destruct (report_supported p Hv) as [Ho _].
  unfold outcomeOf. rewrite Ho.
  destruct (outcomeOf_rules p) as [_ [_ [-> _]]].
  split; [reflexivity|].
  assert (Hc : covered p <-> uncovered p = []).
  { unfold covered, uncovered. split.
    - intros H. destruct (filter _ _) as [|v vs] eqn:E; [reflexivity|].
      exfalso.
      assert (Hin : In v (filter (lacksCapability p)
                                 (declaredValidations p)))
        by (rewrite E; now left).
      apply filter_In in Hin. destruct Hin as [Hin Hl].
      apply lacksCapability_iff in Hl. destruct Hl as [cap [H1 [H2 H3]]].
      apply H3. now apply (H v cap).
    - intros E v cap Hin Hreq Hne.
      destruct (in_dec string_dec cap (Parse.capabilities p)) as [Hy|Hn];
        [exact Hy|].
      exfalso.
      assert (Hf : In v (filter (lacksCapability p)
                                (declaredValidations p))).
      { apply filter_In. split; [exact Hin|].
        apply lacksCapability_iff. now exists cap. }
      rewrite E in Hf. exact Hf. }
  destruct (vm4_shape p) as [_ Hs].
  unfold vm4Outcome in *. rewrite collect_missing in *.
  fold (declaredValidations p) in *. fold (uncovered p) in *.
  rewrite Hc.
  destruct (uncovered p) as [|v vs]; cbn [map] in *.
  - cbn [status targets reason notes]. fold (emitCaps p).
    repeat split; try discriminate; reflexivity.
  - cbn [status targets reason notes].
    repeat split; try discriminate; intros H; discriminate H.
Qed.

Lemma capability_coverage_witness :
  exists o,
    outcomeOf "V-M4" (fst (validateCore (Parse.parseDil Samples.validDoc)))
    = Some o
    /\ status o <> unsatisfied.
Proof.
  assert (Hv : supportedVersion (Parse.parseDil Samples.validDoc)).
  { vm_compute. reflexivity. }
  destruct (capability_coverage (Parse.parseDil Samples.validDoc) Hv)
    as [o [H1 [H2 _]]].
  exists o. split; [exact H1 | exact H2].
Defined.

End EngineFacts.
(* ================================================================== *)
(** * Invariants of the parser *)
(* ================================================================== *)

Module ParserFacts.
Import Regex Parse ParseSpec ParseShape.

(** ** Maps filed by id *)

Lemma keys_set {V : Type} (m : JsMap.t V) (k : string) (v : V) (x : string) :
  In x (JsMap.keys (JsMap.set m k v)) -> x = k \/ In x (JsMap.keys m).
Proof.
  induction m as [|[k' v'] m IH]; simpl.
  - intros [<-|[]]. now left.
  - destruct (String.eqb k k'); simpl; [tauto|].
    intros [<-|H]; [tauto|]. apply IH in H. tauto.
Qed.

Lemma keyed_set {V : Type} (id : V -> string) (m : JsMap.t V)
      (k : string) (v : V) :
  id v = k -> keyed id m -> keyed id (JsMap.set m k v).
Proof.
  intros Hid [Hnd Hall]. induction m as [|[k' v'] m IH]; simpl.
  - split; repeat constructor; auto.
  - simpl in Hnd. apply NoDup_cons_iff in Hnd. destruct Hnd as [Hnot Hnd'].
    apply Forall_cons_iff in Hall. destruct Hall as [Hk Hall'].
    simpl in Hk.
    destruct (String.eqb k k') eqn:E.
    + apply String.eqb_eq in E. subst k'.
      split; [simpl; now constructor|].
      constructor; [simpl; congruence | exact Hall'].
    + apply String.eqb_neq in E.
      destruct (IH Hnd' Hall') as [H1 H2].
      split.
      * simpl. constructor; [|exact H1].
        intros Hin. apply keys_set in Hin. destruct Hin as [->|Hin];
          [now apply E | now apply Hnot].
      * constructor; assumption.
Qed.

Lemma keyed_get {V : Type} (id : V -> string) (m : JsMap.t V)
      (k : string) (v : V) :
  keyed id m -> JsMap.get m k = Some v -> id v = k.
Proof.
  intros [_ Hall]. induction Hall as [|[k' v'] m Hk _ IH]; simpl;
    [discriminate|].
  destruct (String.eqb k k') eqn:E; [|exact IH].
  apply String.eqb_eq in E. subst k'. intros H. injection H as <-. exact Hk.
Qed.

Lemma keys_updateLast {V : Type} (f : V -> V) (m : JsMap.t V) :
  JsMap.keys (JsMap.updateLast f m) = JsMap.keys m.
Proof.
  induction m as [|[k v] m IH]; [reflexivity|].
  destruct m as [|e m]; [reflexivity|].
  change (JsMap.updateLast f ((k, v) :: e :: m))
    with ((k, v) :: JsMap.updateLast f (e :: m)).
  simpl. f_equal. exact IH.
Qed.

Lemma keyed_updateLast {V : Type} (id : V -> string) (f : V -> V)
      (m : JsMap.t V) :
  (forall v, id (f v) = id v) -> keyed id m -> keyed id (JsMap.updateLast f m).
Proof.
  intros Hf [Hnd Hall].
  split; [now rewrite keys_updateLast|].
  clear Hnd. induction m as [|[k v] m IH]; [constructor|].
  apply Forall_cons_iff in Hall. destruct Hall as [Hk Hall'].
  destruct m as [|e m].
  - repeat constructor. simpl in *. now rewrite Hf.
  - change (JsMap.updateLast f ((k, v) :: e :: m))
      with ((k, v) :: JsMap.updateLast f (e :: m)).
    constructor; [assumption | now apply IH].
Qed.

Lemma add_nodup (s : list string) (x : string) :
  NoDup s -> NoDup (JsMap.add s x).
Proof.
  intros H. unfold JsMap.add.
  destruct (Js.includes s x) eqn:E; [exact H|].
  apply NoDup_app; [exact H | repeat constructor; intros [] |].
  intros y Hy [<-|[]].
  apply RuleFacts.includes_iff in Hy. congruence.
Qed.

(** ** One line of the section scan *)

Lemma steady_refl (p : ParsedSpec) : steady p p.
Proof. split; [reflexivity | tauto]. Qed.

Lemma steady_trans (p q r : ParsedSpec) :
  steady p q -> steady q r -> steady p r.
Proof.
  intros [H1 H2] [H3 H4]. split; [congruence | tauto].
Qed.

Lemma sections_steady (p : ParsedSpec) (x : JsMap.t string) :
  steady p (with_sections_raw p x).
Proof. split; [reflexivity | tauto]. Qed.

Lemma capability_steady (t : string) (p : ParsedSpec) :
  steady p (parseCapabilityLine t p).
Proof.
  unfold parseCapabilityLine.
  destruct (match1 re_capability t) as [c|]; [|apply steady_refl].
  split; [reflexivity|].
  intros [Hc H]. split; [|exact H]. now apply add_nodup.
Qed.

Lemma intent_steady (t : string) (p : ParsedSpec) :
  steady p (parseIntentLine t p).
Proof.
  unfold parseIntentLine.
  destruct (match1 re_intent t) as [id|]; [|apply steady_refl].
  destruct (negb (JsMap.has (intents p) id)); [|apply steady_refl].
  split; [reflexivity|].
  intros [Hc [Hi H]]. split; [exact Hc|]. split; [|exact H].
  now apply keyed_set.
Qed.

Lemma constraint_steady (t : string) (p : ParsedSpec) :
  steady p (with_constraints p (parseConstraintLine t (constraints p))).
Proof.
  split; [reflexivity|].
  intros [Hc [Hi [Hk H]]]. split; [exact Hc|]. split; [exact Hi|].
  split; [|exact H].
  cbn [constraints with_constraints]. unfold parseConstraintLine.
  assert (H1 : keyed constraint_id
                 match match1 re_constraint t with
                 | Some id =>
                     if negb (JsMap.has (constraints p) id)
                     then JsMap.set (constraints p) id (mkConstraint id None)
                     else constraints p
                 | None => constraints p
                 end).
  { destruct (match1 re_constraint t) as [id|]; [|exact Hk].
    destruct (negb (JsMap.has (constraints p) id)); [|exact Hk].
    now apply keyed_set. }
  destruct (match1 re_severity t) as [v|]; [|exact H1].
  apply keyed_updateLast; [reflexivity | exact H1].
Qed.

Lemma decision_keyed (t : string) (ds : JsMap.t ParsedDecision)
      (cur : option string) :
  keyed decision_id ds ->
  keyed decision_id (fst (parseDecisionLine t ds cur)).
Proof.
  intros Hk. unfold parseDecisionLine.
  set (r1 := match match1 re_decision t with
             | Some id =>
                 (if negb (JsMap.has ds id)
                  then JsMap.set ds id (mkDecision id [] [])
                  else ds, Some id)
             | None => (ds, cur)
             end).
  assert (H1 : keyed decision_id (fst r1)).
  { unfold r1. destruct (match1 re_decision t) as [id|]; [|exact Hk].
    cbn [fst]. destruct (negb (JsMap.has ds id)); [|exact Hk].
    now apply keyed_set. }
  destruct r1 as [ds1 cur1]. cbn [fst] in H1.
  destruct cur1 as [id|]; [|exact H1].
  destruct (Js.truthy id); [|exact H1].
  destruct (JsMap.get ds1 id) as [d0|] eqn:Eg; [|exact H1].
  cbn [fst]. apply keyed_set; [|exact H1].
  pose proof (keyed_get _ _ _ _ H1 Eg) as Hid.
  destruct (match1 (re_field "supports") t);
    destruct (match1 (re_field "respects") t); exact Hid.
Qed.

Lemma validation_keyed (t : string) (vs : JsMap.t ParsedValidation)
      (cur : option string) :
  keyed validation_id vs ->
  keyed validation_id (fst (parseValidationLine t vs cur)).
Proof.
  intros Hk. unfold parseValidationLine.
  set (r1 := match match1 re_validate t with
             | Some id =>
                 (if negb (JsMap.has vs id)
                  then JsMap.set vs id (mkValidation id None)
                  else vs, Some id)
             | None => (vs, cur)
             end).
  assert (H1 : keyed validation_id (fst r1)).
  { unfold r1. destruct (match1 re_validate t) as [id|]; [|exact Hk].
    cbn [fst]. destruct (negb (JsMap.has vs id)); [|exact Hk].
    now apply keyed_set. }
  destruct r1 as [vs1 cur1]. cbn [fst] in H1.
  destruct cur1 as [id|]; [|exact H1].
  destruct (Js.truthy id); [|exact H1].
  destruct (JsMap.get vs1 id) as [v0|] eqn:Eg; [|exact H1].
  destruct (match1 (re_field "requires_capability") t); [|exact H1].
  cbn [fst]. apply keyed_set; [|exact H1].
  exact (keyed_get _ _ _ _ H1 Eg).
Qed.

Lemma parseSectionLine_steady (rawLine t : string) (s : Scan) :
  steady (spec s) (spec (parseSectionLine rawLine t s)).
Proof.
  unfold parseSectionLine.
  set (p0 := with_sections_raw (spec s) _).
  assert (H0 : steady (spec s) p0) by apply sections_steady.
  clearbody p0.
  destruct (currentSection s); cbn [spec];
    try exact H0.
  - eapply steady_trans; [exact H0 | apply capability_steady].
  - eapply steady_trans; [exact H0 | apply intent_steady].
  - eapply steady_trans; [exact H0 | apply constraint_steady].
  - eapply steady_trans; [exact H0|].
    pose proof (decision_keyed t (decisions p0) (currentDecisionId s)) as Hd.
    destruct (parseDecisionLine t (decisions p0) (currentDecisionId s))
      as [ds cur].
    cbn [spec fst] in *. split; [reflexivity|].
    intros [Hc [Hi [Hk [Hdd Hv]]]].
    split; [exact Hc|]. split; [exact Hi|]. split; [exact Hk|].
    split; [now apply Hd | exact Hv].
  - eapply steady_trans; [exact H0|].
    pose proof (validation_keyed t (validations p0) (currentValidationId s))
      as Hd.
    destruct (parseValidationLine t (validations p0) (currentValidationId s))
      as [vs cur].
    cbn [spec fst] in *. split; [reflexivity|].
    intros [Hc [Hi [Hk [Hdd Hv]]]].
    split; [exact Hc|]. split; [exact Hi|]. split; [exact Hk|].
    split; [exact Hdd | now apply Hd].
Qed.

Lemma scanLine_steady (i : Z) (rawLine : string) (s : Scan) :
  steady (spec s) (spec (fst (scanLine i rawLine s))).
Proof.
  unfold scanLine.
  destruct (negb (inSystem s)).
  - destruct (exec re_system (stripComments rawLine)); apply steady_refl.
  - set (s1 := if (braceDepth s =? 1)%Z then _ else s).
    assert (H1 : steady (spec s) (spec s1)).
    { unfold s1. destruct (braceDepth s =? 1)%Z; [|apply steady_refl].
      destruct (match1 re_section (Js.trim (stripComments rawLine)));
        [apply sections_steady | apply steady_refl]. }
    clearbody s1.
    set (s2 := if negb (section_eqb (currentSection s1) unknown_s)
               then _ else s1).
    assert (H2 : steady (spec s1) (spec s2)).
    { unfold s2. destruct (negb (section_eqb (currentSection s1) unknown_s));
        [apply parseSectionLine_steady | apply steady_refl]. }
    clearbody s2. cbn [fst].
    eapply steady_trans; [exact H1|]. eapply steady_trans; [exact H2|].
    match goal with
    | |- context [if ?b then _ else _] => destruct b
    end; apply steady_refl.
Qed.

Lemma scanLines_steady (lines : list string) :
  forall (i : Z) (s : Scan), steady (spec s) (spec (scanLines i lines s)).
Proof.
  induction lines as [|l lines IH]; intros i s; [apply steady_refl|].
  cbn [scanLines].
  pose proof (scanLine_steady i l s) as H.
  destruct (scanLine i l s) as [s' stop]. cbn [fst] in H.
  destruct stop; [exact H|].
  eapply steady_trans; [exact H | apply IH].
Qed.

(** ** The three passes *)

Lemma scanHeader_spec (lines : list string) :
  forall i,
    scanHeader lines i
    = match firstContent lines i with
      | Some (j, l0) =>
          if Js.startsWith l0 "DIL:spec" then (l0, [])
          else ("unknown", [headerIssue j l0])
      | None => ("unknown", [])
      end.
Proof.
  induction lines as [|l lines IH]; intros i; [reflexivity|].
  cbn [scanHeader firstContent].
  destruct (Js.truthy (Js.trim (stripComments l))); cbn [negb].
  - reflexivity.
  - apply IH.
Qed.

Lemma firstContent_in (lines : list string) :
  forall i j l0,
    firstContent lines i = Some (j, l0) ->
    l0 <> EmptyString /\ exists l, In l lines /\ l0 = content l.
Proof.
  induction lines as [|l lines IH]; intros i j l0; [discriminate|].
  cbn [firstContent].
  destruct (Js.truthy (Js.trim (stripComments l))) eqn:E.
  - intros H. injection H as _ <-. split.
    + now apply RuleFacts.truthy_iff.
    + exists l. split; [now left | reflexivity].
  - intros H. apply IH in H. destruct H as [H1 [l' [H2 H3]]].
    split; [exact H1|]. exists l'. split; [now right | exact H3].
Qed.

Lemma scanSystem_spec (lines : list string) :
  scanSystem lines <> EmptyString
  /\ (forallb (fun l => negb (opensSystem l)) lines = true ->
      scanSystem lines = "unknown").
Proof.
  induction lines as [|l lines [IH1 IH2]]; cbn [scanSystem forallb].
  - split; [discriminate | reflexivity].
  - unfold opensSystem, match1.
    destruct (exec re_system (stripComments l)) as [f|]; cbn [negb andb].
    + split; [|discriminate].
      destruct (group 1 (groups f)) as [m1|]; [|exact IH1].
      destruct (Js.trim m1); cbn [Js.truthy]; discriminate.
    + split; [exact IH1 | exact IH2].
Qed.

(** Before the system block opens, the scan only looks for its first
    line. *)
Lemma scanLines_inSystem (lines : list string) :
  forall (i : Z) (s : Scan),
    inSystem (scanLines i lines s)
    = inSystem s || existsb opensSystem lines.
Proof.
  induction lines as [|l lines IH]; intros i s; cbn [scanLines existsb].
  - now rewrite orb_false_r.
  - destruct (scanLine i l s) as [s' stop] eqn:E.
    assert (H : inSystem s' = inSystem s || opensSystem l
                /\ (stop = true -> inSystem s' = true)).
    { unfold scanLine in E. unfold opensSystem.
      destruct (inSystem s) eqn:Hin; cbn [negb] in E.
      - injection E as <- <-. cbn [inSystem orb].
        split; [|intros _].
        + repeat match goal with
                 | |- context [if ?b then _ else _] => destruct b
                 | |- context [match ?x with Some _ => _ | None => _ end] =>
                     destruct x
                 end; try reflexivity;
            unfold parseSectionLine;
            repeat match goal with
                   | |- context [let (_, _) := ?x in _] => destruct x
                   | |- context [match ?x with
                                 | capabilities_s => _ | _ => _ end] =>
                       destruct x
                   end; cbn [inSystem]; try exact Hin; reflexivity.
        + repeat match goal with
                 | |- context [if ?b then _ else _] => destruct b
                 | |- context [match ?x with Some _ => _ | None => _ end] =>
                     destruct x
                 end; try reflexivity;
            unfold parseSectionLine;
            repeat match goal with
                   | |- context [let (_, _) := ?x in _] => destruct x
                   | |- context [match ?x with
                                 | capabilities_s => _ | _ => _ end] =>
                       destruct x
                   end; cbn [inSystem]; try exact Hin; reflexivity.
      - destruct (exec re_system (stripComments l));
          injection E as <- <-; cbn [inSystem orb];
          (split; [congruence | discriminate]). }
    destruct H as [H1 H2].
    destruct stop.
    + rewrite (H2 eq_refl). rewrite (H2 eq_refl) in H1.
      destruct (inSystem s); [reflexivity|]. cbn [orb] in *.
      rewrite <- H1. reflexivity.
    + rewrite IH, H1, orb_assoc. reflexivity.
Qed.

(** [parseDil] as one step of the section scan from the blank record,
    with the issue of a missing system block added last. *)
Lemma parseDil_form (raw : string) :
  let lines := Js.splitLines raw in
  let version := fst (scanHeader lines 0) in
  let sysId := scanSystem lines in
  let issues2 :=
    if String.eqb sysId "unknown"
    then snd (scanHeader lines 0) ++ [missingSystemIssue]
    else snd (scanHeader lines 0) in
  exists p',
    steady (blank version sysId raw issues2) p'
    /\ parseDil raw
       = with_issues p'
           (issues2 ++ if existsb opensSystem lines then []
                       else [noSystemBlockIssue]).
Proof.
  intros lines version sysId issues2.
  unfold parseDil. fold lines.
  destruct (scanHeader lines 0) as [v is1] eqn:Eh.
  cbn [fst snd] in version, issues2. fold sysId.
  change (if String.eqb sysId "unknown" then is1 ++ [missingSystemIssue]
          else is1) with issues2.
  change (mkSpec v sysId raw [] [] [] [] [] [] issues2)
    with (blank version sysId raw issues2).
  set (s0 := mkScan (blank version sysId raw issues2) false 0 unknown_s
                    (-1) (-1) None None).
  pose proof (scanLines_steady lines 0 s0) as Hst.
  pose proof (scanLines_inSystem lines 0 s0) as Hin.
  cbn [inSystem s0 orb] in Hin.
  set (s := scanLines 0 lines s0) in *.
  exists (spec s). split; [exact Hst|].
  destruct Hst as [Hf _]. unfold frame, s0 in Hf. cbn [spec blank] in Hf.
  cbn [spec_version system_id raw_text issues] in Hf.
  assert (Hi : issues (spec s) = issues2).
  { injection Hf as _ _ _ Hi. exact Hi. }
  rewrite Hin. destruct (existsb opensSystem lines); cbn [negb].
  - rewrite app_nil_r, <- Hi. now destruct (spec s).
  - now rewrite Hi.
Qed.

(** X4.  What the parser returns around the extracted artifacts: the
    whole input as raw text; a version that is [unknown] or the content
    of the first line with content, when that starts with [DIL:spec];
    and a system id that is never empty, and [unknown] when no line
    opens a system block. *)
Theorem parseDil_frame (raw : string) :
  let p := parseDil raw in
  let lines := Js.splitLines raw in
  raw_text p = raw
  /\ spec_version p
     = match firstContent lines 0 with
       | Some (_, l0) => if Js.startsWith l0 "DIL:spec" then l0 else "unknown"
       | None => "unknown"
       end
  /\ system_id p <> EmptyString
  /\ (forallb (fun l => negb (opensSystem l)) lines = true ->
      system_id p = "unknown").
Proof.
  intros p lines. unfold p.
  destruct (parseDil_form raw) as [p' [[Hf _] ->]].
  unfold frame in Hf. cbn [blank] in Hf.
  injection Hf as Hv Hs Hr _.
  cbn [with_issues raw_text spec_version system_id issues].
  rewrite Hv, Hs, Hr, scanHeader_spec. fold lines.
  split; [reflexivity|]. split.
  { destruct (firstContent lines 0) as [[j l0]|];
      [destruct (Js.startsWith l0 "DIL:spec")|]; reflexivity. }
  apply scanSystem_spec.
Qed.

(** X5.  The issues, each with its cause and in this order: the header
    issue when the first line with content does not start with
    [DIL:spec]; the missing system declaration when the system id is
    [unknown]; the undetected system block when no line opens a system
    block. There is no other issue. *)
Theorem parseDil_issues (raw : string) :
  let p := parseDil raw in
  let lines := Js.splitLines raw in
  issues p
  = match firstContent lines 0 with
    | Some (j, l0) =>
        if Js.startsWith l0 "DIL:spec" then [] else [headerIssue j l0]
    | None => []
    end
    ++ (if String.eqb (system_id p) "unknown" then [missingSystemIssue]
        else [])
    ++ (if forallb (fun l => negb (opensSystem l)) lines
        then [noSystemBlockIssue] else []).
Proof.
  intros p lines. unfold p.
  destruct (parseDil_form raw) as [p' [[Hf _] ->]].
  unfold frame in Hf. cbn [blank] in Hf. injection Hf as _ Hs _ _.
  cbn [with_issues system_id issues]. rewrite Hs. fold lines.
  rewrite scanHeader_spec.
  assert (Hno : forallb (fun l => negb (opensSystem l)) lines
                = negb (existsb opensSystem lines)).
  { clear. induction lines as [|l ls IH]; [reflexivity|].
    cbn [forallb existsb]. rewrite IH. now destruct (opensSystem l). }
  rewrite Hno.
  destruct (firstContent lines 0) as [[j l0]|];
    [destruct (Js.startsWith l0 "DIL:spec")|];
    destruct (String.eqb (scanSystem lines) "unknown");
    destruct (existsb opensSystem lines); reflexivity.
Qed.

(** X6.  Every map of the parsed specification files each entry under
    the entry's own id, and no id twice; the capabilities hold no
    repetition. *)
Theorem parseDil_wellKeyed (raw : string) : wellKeyed (parseDil raw).
Proof.
  destruct (parseDil_form raw) as [p' [[_ Hk] ->]].
  assert (H : wellKeyed p').
  { apply Hk. unfold wellKeyed, keyed, blank; cbn.
    repeat split; constructor. }
  exact H.
Qed.

(** ** Texts without a system block *)

Lemma scanLines_outside (lines : list string) :
  forall (i : Z) (s : Scan),
    inSystem s = false ->
    forallb (fun l => negb (opensSystem l)) lines = true ->
    scanLines i lines s = s.
Proof.
  induction lines as [|l lines IH]; intros i s Hin Hno; [reflexivity|].
  cbn [forallb] in Hno. apply andb_true_iff in Hno.
  destruct Hno as [Hl Hno]. unfold opensSystem in Hl.
  cbn [scanLines]. unfold scanLine. rewrite Hin. cbn [negb].
  destruct (exec re_system (stripComments l)); [discriminate Hl|].
  now apply IH.
Qed.

Lemma parseDil_outside (raw : string) :
  forallb (fun l => negb (opensSystem l)) (Js.splitLines raw) = true ->
  parseDil raw
  = blank (fst (scanHeader (Js.splitLines raw) 0)) "unknown" raw
          (snd (scanHeader (Js.splitLines raw) 0)
             ++ [missingSystemIssue; noSystemBlockIssue]).
Proof.
  intros Hno. unfold parseDil.
  destruct (scanHeader (Js.splitLines raw) 0) as [v is1].
  rewrite (proj2 (scanSystem_spec (Js.splitLines raw)) Hno).
  cbn [String.eqb Ascii.eqb Bool.eqb fst snd].
  rewrite scanLines_outside; [|reflexivity | exact Hno].
  cbn [inSystem negb spec with_issues blank spec_version system_id raw_text
       sections_raw capabilities intents constraints decisions validations
       issues].
  rewrite <- app_assoc. reflexivity.
Qed.

(** X7.  Without a line that opens a system block nothing is extracted:
    sections, capabilities, intents, constraints, decisions and
    validations written outside a system are all ignored, and the system
    id is [unknown]. *)
Theorem nothing_outside_a_system (raw : string) :
  forallb (fun l => negb (opensSystem l)) (Js.splitLines raw) = true ->
  let p := parseDil raw in
  sections_raw p = [] /\ capabilities p = [] /\ intents p = []
  /\ constraints p = [] /\ decisions p = [] /\ validations p = []
  /\ system_id p = "unknown".
Proof.
  intros Hno p. unfold p. rewrite (parseDil_outside raw Hno).
  repeat split.
Qed.

Lemma nothing_outside_a_system_witness :
  intents (parseDil Drafts.strayDoc) = []
  /\ sections_raw (parseDil Drafts.strayDoc) = [].
Proof.
  assert (Hno : forallb (fun l => negb (opensSystem l))
                        (Js.splitLines Drafts.strayDoc) = true).
  { vm_compute. reflexivity. }
  destruct (nothing_outside_a_system Drafts.strayDoc Hno)
    as [H1 [_ [H2 _]]].
  split; [exact H2 | exact H1].
Defined.

End ParserFacts.

(* ================================================================== *)
(** * The parser and the rule engine together *)
(* ================================================================== *)

Module PipelineFacts.
Import Report Validate RuleSpec RuleFacts ParseShape ParserFacts.

(** X8.  A text with the supported header, no system block and no leak
    signal is valid: the two parse issues it raises do not reach the
    report, whose five outcomes are all satisfied. *)
Theorem draft_without_system_is_valid (raw : string) :
  forallb (fun l => negb (opensSystem l)) (Js.splitLines raw) = true ->
  Parse.spec_version (Parse.parseDil raw) = "DIL:spec v0" ->
  hasImplementationLeak raw = false ->
  List.length (Parse.issues (Parse.parseDil raw)) = 2%nat
  /\ validateCore (Parse.parseDil raw)
     = (mkReport "DIL:spec v0" "unknown" valid
                 [mkOutcome "V-M1" satisfied [] None None
                            (Some ["No intents declared."]);
                  mkOutcome "V-M2" satisfied [] None None
                            (Some ["No constraints declared."]);
                  mkOutcome "V-M3" satisfied [] None None
                            (Some ["No decisions declared."]);
                  mkOutcome "V-M4" satisfied [] None None
                            (Some ["Validations are executable using declared capabilities ()."]);
                  mkOutcome "V-M5" satisfied ["system"] None None None]
                 [] None None,
        0%Z).
Proof.
  intros Hno Hv Hleak.
  rewrite (parseDil_outside raw Hno) in *.
  cbn [blank Parse.spec_version] in Hv.
  split.
  - cbn [blank Parse.issues]. rewrite scanHeader_spec in *.
    destruct (firstContent (Js.splitLines raw) 0) as [[j l0]|];
      [destruct (Js.startsWith l0 "DIL:spec")|];
      cbn [fst snd] in *; try discriminate Hv; reflexivity.
  - rewrite validateCore_supported; [|exact Hv].
    unfold ruleOutcomes, ruleErrors, leaks.
    cbn [blank Parse.raw_text Parse.spec_version Parse.system_id].
    rewrite Hleak, Hv. reflexivity.
Qed.

Lemma draft_without_system_is_valid_witness :
  validateCore (Parse.parseDil Drafts.headerOnly)
  = (mkReport "DIL:spec v0" "unknown" valid
              [mkOutcome "V-M1" satisfied [] None None
                         (Some ["No intents declared."]);
               mkOutcome "V-M2" satisfied [] None None
                         (Some ["No constraints declared."]);
               mkOutcome "V-M3" satisfied [] None None
                         (Some ["No decisions declared."]);
               mkOutcome "V-M4" satisfied [] None None
                         (Some ["Validations are executable using declared capabilities ()."]);
               mkOutcome "V-M5" satisfied ["system"] None None None]
              [] None None,
     0%Z).
Proof.
  apply (draft_without_system_is_valid Drafts.headerOnly);
    vm_compute; reflexivity.
Defined.

End PipelineFacts.
(* ================================================================== *)
(** * Targets of satisfied outcomes *)
(* ================================================================== *)

Module TargetFacts.
Import Report Validate RuleSpec RuleFacts ParseShape ParserFacts.

Lemma keyed_refs {V : Type} (id : V -> string) (kind : string)
      (m : JsMap.t V) :
  keyed id m ->
  map (fq kind) (JsMap.keys m)
  = map (fun v => fq kind (id v)) (JsMap.values m).
Proof.
  intros [_ H]. unfold JsMap.keys, JsMap.values. rewrite !map_map.
  induction H as [|kv m Hk _ IH]; [reflexivity|].
  cbn [map]. now rewrite Hk, IH.
Qed.

(** X9.  On a parsed text with the supported header, a satisfied V-M1
    names every declared intent and a satisfied V-M3 every declared
    decision, each by the reference of its id, in declaration order. *)
Theorem satisfied_targets_list_everything (raw : string) :
  let p := Parse.parseDil raw in
  let r := fst (validateCore p) in
  supportedVersion p ->
  (unassociated p = [] ->
   exists o,
     outcomeOf "V-M1" r = Some o /\ status o = satisfied
     /\ targets o = map intentRef (declaredIntents p))
  /\ (failingDecisions p = [] ->
      exists o,
        outcomeOf "V-M3" r = Some o /\ status o = satisfied
        /\ targets o = map decisionRef (declaredDecisions p)).
Proof.
  intros p r Hv.
  assert (Hk : wellKeyed p).
  { unfold p. destruct (parseDil_form raw) as [p' [[_ Hk] ->]].
    apply Hk. unfold wellKeyed, keyed, blank; cbn.
    repeat split; constructor. }
  destruct Hk as [_ [Hi [_ [Hd _]]]].
  destruct (report_supported p Hv) as [Ho _]. fold r in Ho.
  destruct (outcomeOf_rules p) as [O1 [O3 _]].
  unfold outcomeOf. rewrite Ho. split.
  - intros Hu. exists (vm1Outcome p). split; [exact O1|].
    unfold vm1Outcome. rewrite Hu. cbn [map status targets].
    split; [reflexivity|]. apply (keyed_refs _ "intents" _ Hi).
  - intros Hf. exists (vm3Outcome p (map decisionRef (failingDecisions p))).
    split; [exact O3|]. rewrite Hf. cbn [map].
    unfold vm3Outcome, declaredDecisions.
    pose proof (keyed_refs _ "decisions" _ Hd) as Hr.
    destruct (JsMap.values (Parse.decisions p)) as [|d [|d' ds]] eqn:E;
      cbn [status targets map]; split; try reflexivity.
    exact Hr.
Qed.

Lemma satisfied_targets_list_everything_witness :
  exists o,
    outcomeOf "V-M1" (fst (validateCore (Parse.parseDil Samples.validDoc)))
    = Some o
    /\ targets o = ["intents.I1"].
Proof.
  destruct (satisfied_targets_list_everything Samples.validDoc)
    as [H _]; [vm_compute; reflexivity|].
  destruct H as [o [H1 [_ H2]]]; [vm_compute; reflexivity|].
  exists o. split; [exact H1|]. rewrite H2. vm_compute. reflexivity.
Defined.

End TargetFacts.

(* ================================================================== *)
(** * Properties of the string helpers *)
(* ================================================================== *)

Module TextFacts.
Import Text Lexis.

Lemma append_nil_r (s : string) : (s ++ EmptyString)%string = s.
Proof. induction s as [|c s IH]; simpl; congruence. Qed.

Lemma append_assoc (a b c : string) :
  ((a ++ b) ++ c)%string = (a ++ (b ++ c))%string.
Proof. induction a as [|x a IH]; simpl; congruence. Qed.

(** ** [trim] *)

Lemma trimStart_blank (ws s : string) :
  allSpace ws = true -> Js.trimStart (ws ++ s) = Js.trimStart s.
Proof.
  induction ws as [|c ws IH]; simpl; [reflexivity|].
  intros H. apply andb_true_iff in H. destruct H as [Hc Hw].
  rewrite Hc. now apply IH.
Qed.

Lemma trimEnd_blank (ws : string) :
  allSpace ws = true -> Js.trimEnd ws = EmptyString.
Proof.
  induction ws as [|c ws IH]; simpl; [reflexivity|].
  intros H. apply andb_true_iff in H. destruct H as [Hc Hw].
  now rewrite IH, Hc.
Qed.

Lemma trimEnd_app_blank (s ws : string) :
  allSpace ws = true -> Js.trimEnd (s ++ ws) = Js.trimEnd s.
Proof.
  intros H. induction s as [|c s IH]; simpl.
  - now apply trimEnd_blank.
  - now rewrite IH.
Qed.

Lemma trimEnd_nil (s : string) :
  Js.trimEnd s = EmptyString <-> allSpace s = true.
Proof.
  induction s as [|c s IH]; simpl; [tauto|].
  destruct (Js.trimEnd s) eqn:E.
  - destruct (Js.isSpace c); simpl.
    + rewrite <- IH. tauto.
    + split; discriminate.
  - split; [discriminate|].
    intros H. apply andb_true_iff in H. destruct H as [_ H].
    apply IH in H. discriminate H.
Qed.

Lemma trimEnd_idem (s : string) : Js.trimEnd (Js.trimEnd s) = Js.trimEnd s.
Proof.
  induction s as [|c s IH]; [reflexivity|].
  cbn [Js.trimEnd].
  destruct (Js.trimEnd s) as [|d t] eqn:E.
  - destruct (Js.isSpace c) eqn:Ec; [reflexivity|].
    cbn [Js.trimEnd]. now rewrite Ec.
  - cbn [Js.trimEnd]. cbn [Js.trimEnd] in IH.
    destruct (Js.trimEnd t) as [|e u] eqn:Et.
    + destruct (Js.isSpace d); [discriminate IH | now rewrite IH].
    + now rewrite IH.
Qed.

Lemma trimStart_head (c : ascii) (s : string) :
  Js.isSpace c = false -> Js.trimStart (String c s) = String c s.
Proof. intros H. simpl. now rewrite H. Qed.

Lemma trimStart_shape (s : string) :
  Js.trimStart s = EmptyString
  \/ exists c t, Js.trimStart s = String c t /\ Js.isSpace c = false.
Proof.
  induction s as [|c s IH]; simpl; [now left|].
  destruct (Js.isSpace c) eqn:E; [exact IH|].
  right. now exists c, s.
Qed.

Lemma trimEnd_head (c : ascii) (s : string) :
  Js.isSpace c = false -> exists t, Js.trimEnd (String c s) = String c t.
Proof.
  intros H. simpl. destruct (Js.trimEnd s) as [|d t].
  - rewrite H. now exists EmptyString.
  - now exists (String d t).
Qed.

Lemma trim_idem (s : string) : Js.trim (Js.trim s) = Js.trim s.
Proof.
  unfold Js.trim.
  destruct (trimStart_shape s) as [->|[c [t [-> Hc]]]]; [reflexivity|].
  destruct (trimEnd_head c t Hc) as [u Hu].
  rewrite Hu, (trimStart_head c u Hc), <- Hu. apply trimEnd_idem.
Qed.

Lemma trim_blank (s : string) :
  Js.trim s = EmptyString <-> allSpace s = true.
Proof.
  unfold Js.trim. rewrite trimEnd_nil.
  induction s as [|c s IH]; simpl; [tauto|].
  destruct (Js.isSpace c) eqn:E; simpl.
  - exact IH.
  - rewrite E. simpl. tauto.
Qed.

Lemma trim_around (a s b : string) :
  allSpace a = true -> allSpace b = true ->
  Js.trim (a ++ s ++ b) = Js.trim s.
Proof.
  intros Ha Hb. unfold Js.trim. rewrite (trimStart_blank a _ Ha).
  revert Hb. clear. intros Hb.
  induction s as [|c s IH].
  - simpl. rewrite trimEnd_blank.
    + reflexivity.
    + induction b as [|d b IH]; simpl in *; [reflexivity|].
      apply andb_true_iff in Hb. destruct Hb as [Hd Hb]. rewrite Hd.
      now apply IH.
  - simpl. destruct (Js.isSpace c); [exact IH|].
    apply (trimEnd_app_blank (String c s) b Hb).
Qed.

Lemma trim_lead (a s : string) :
  allSpace a = true -> Js.trim (a ++ s) = Js.trim s.
Proof. intros H. unfold Js.trim. now rewrite trimStart_blank. Qed.

(** ** [stripComments] and [countChar] *)

Lemma stripComments_cons (c : ascii) (l : string) :
  Parse.stripComments (String c l)
  = if Ascii.eqb c "#" then EmptyString
    else String c (Parse.stripComments l).
Proof.
  unfold Parse.stripComments, Js.slice0. cbn [Js.indexOf].
  destruct (Ascii.eqb c "#"); [reflexivity|].
  destruct (Js.indexOf l "#") as [i|]; reflexivity.
Qed.

(** X10.  A line without its comment is the line up to its first [#]: it
    holds no [#], what was cut off is nothing or starts with [#],
    stripping twice changes nothing more, and nothing written after a
    [#] has any effect. A [#] between quotes starts a comment like any
    other. *)
Theorem stripComments_cuts_at_hash (l : string) :
  Js.indexOf (Parse.stripComments l) "#" = None
  /\ (exists rest,
         l = (Parse.stripComments l ++ rest)%string
         /\ (rest = EmptyString \/ exists r, rest = String "#" r))
  /\ Parse.stripComments (Parse.stripComments l) = Parse.stripComments l
  /\ (Js.indexOf l "#" = None -> Parse.stripComments l = l)
  /\ (forall r,
         Parse.stripComments (l ++ String "#" r) = Parse.stripComments l).
Proof.
  induction l as [|c l [IH1 [[rest [IH2 IH3]] [IH4 [IH5 IH6]]]]].
  - repeat split. exists EmptyString. split; [reflexivity | now left].
  - rewrite !stripComments_cons.
    destruct (Ascii.eqb c "#") eqn:E.
    + apply Ascii.eqb_eq in E. subst c.
      split; [reflexivity|]. split; [|split; [reflexivity|split]].
      * exists (String "#" l). split; [reflexivity|]. right. now exists l.
      * simpl. discriminate.
      * intros r. cbn [append]. now rewrite stripComments_cons.
    + split; [|split; [|split; [|split]]].
      * cbn [Js.indexOf]. now rewrite E, IH1.
      * exists rest. split; [|exact IH3].
        cbn [append]. now rewrite <- IH2.
      * rewrite stripComments_cons, E, IH4. reflexivity.
      * cbn [Js.indexOf]. rewrite E.
        destruct (Js.indexOf l "#"); [discriminate|].
        intros _. now rewrite IH5.
      * intros r. cbn [append]. now rewrite stripComments_cons, E, IH6.
Qed.

(** X11.  Counting a character is additive over concatenation and
    bounded by the length; so is the brace balance of a line. *)
Theorem countChar_additive (a b : string) (ch : ascii) :
  Parse.countChar (a ++ b) ch
  = (Parse.countChar a ch + Parse.countChar b ch)%Z
  /\ (0 <= Parse.countChar a ch <= Z.of_nat (String.length a))%Z
  /\ Parse.braceDelta (a ++ b)
     = (Parse.braceDelta a + Parse.braceDelta b)%Z.
Proof.
  assert (Happ : forall x y c,
             Parse.countChar (x ++ y) c
             = (Parse.countChar x c + Parse.countChar y c)%Z).
  { intros x y c. induction x as [|d x IH]; [reflexivity|].
    cbn [append Parse.countChar]. rewrite IH. lia. }
  split; [apply Happ|]. split.
  - induction a as [|d a IH]; cbn [Parse.countChar String.length]; [lia|].
    destruct (Ascii.eqb d ch); lia.
  - unfold Parse.braceDelta. rewrite !Happ. lia.
Qed.

End TextFacts.

(* ================================================================== *)
(** * The matcher on texts of a known shape *)
(* ================================================================== *)

Module MatchFacts.
Import Regex Text Lexis RegexFacts TextFacts.

Lemma pushed_rev (w : string) :
  forall pre, pushed w pre = rev (list_ascii_of_string w) ++ pre.
Proof.
  induction w as [|c w IH]; intros pre; [reflexivity|].
  cbn [pushed list_ascii_of_string rev]. rewrite IH, <- app_assoc.
  reflexivity.
Qed.

(** What a group captures over a run of characters. *)
Lemma captured_pushed (w : string) (pre : list ascii) (s s' : string) :
  captured (pre, s) (pushed w pre, s') = w.
Proof.
  unfold captured. cbn [fst]. rewrite pushed_rev, length_app.
  replace (List.length (rev (list_ascii_of_string w)) + List.length pre
           - List.length pre)%nat
    with (List.length (rev (list_ascii_of_string w)) + 0)%nat by lia.
  rewrite firstn_app_2. cbn [firstn]. rewrite app_nil_r.
  unfold Js.rev_string. rewrite rev_involutive.
  apply string_of_list_ascii_of_string.
Qed.

(** A greedy run that meets a character outside the class, or the end
    of the text, and whose continuation accepts there. *)
Lemma star_stop {R : Type} (p : ascii -> bool) (k : pos -> option R)
      (s t : string) (v : R) :
  all p s = true ->
  match t with String c _ => p c = false | EmptyString => True end ->
  forall pre,
    k (pushed s pre, t) = Some v ->
    star p pre (s ++ t) k = Some v.
Proof.
  intros Hs Ht. induction s as [|c s IH]; intros pre Hk.
  - cbn [append pushed] in *. destruct t as [|c t]; [exact Hk|].
    cbn [star]. now rewrite Ht.
  - cbn [all] in Hs. apply andb_true_iff in Hs. destruct Hs as [Hc Hs].
    cbn [append star]. rewrite Hc, (IH Hs (c :: pre) Hk). reflexivity.
Qed.

(** A greedy run over the whole text that must give back its last
    character. *)
Lemma star_last {R : Type} (p : ascii -> bool) (k : pos -> option R)
      (s : string) (c : ascii) (v : R) :
  all p s = true -> p c = true ->
  forall pre,
    k (c :: pushed s pre, EmptyString) = None ->
    k (pushed s pre, String c EmptyString) = Some v ->
    star p pre (s ++ String c EmptyString) k = Some v.
Proof.
  intros Hs Hc. induction s as [|d s IH]; intros pre Hend Hk.
  - cbn [append pushed star] in *. now rewrite Hc, Hend.
  - cbn [all] in Hs. apply andb_true_iff in Hs. destruct Hs as [Hd Hs].
    cbn [append star]. rewrite Hd.
    rewrite (IH Hs (d :: pre) Hend Hk). reflexivity.
Qed.

Lemma exec_head (r : regex) (s : string) (f : found) :
  matchAt r ([], s) = Some f -> exec r s = Some f.
Proof.
  intros H. unfold exec. destruct s; cbn [searchFrom]; now rewrite H.
Qed.

(** A pattern anchored on a character the text does not start with. *)
Lemma exec_bol_chr (c : ascii) (r : regex) (s : string) :
  match s with String d _ => Ascii.eqb c d = false | EmptyString => True end ->
  exec (Seq Bol (Seq (Chr c) r)) s = None.
Proof.
  intros H. rewrite exec_bol. cbn [rmatch snd].
  destruct s as [|d s]; [reflexivity|]. now rewrite H.
Qed.

(** ** Identifiers *)

Lemma word_classes (c : ascii) :
  Js.isWord c = true ->
  Js.isSpace c = false /\ Js.isDot c = true
  /\ Ascii.eqb c "," = false /\ Ascii.eqb c Parse.dquote = false
  /\ Ascii.eqb c Parse.squote = false /\ Ascii.eqb c "[" = false
  /\ Ascii.eqb c "]" = false /\ Ascii.eqb c "#" = false.
Proof.
  destruct c as [[] [] [] [] [] [] [] []]; vm_compute;
    intros H; try discriminate H; repeat split.
Qed.

Lemma alpha_word (c : ascii) : Js.isAlpha c = true -> Js.isWord c = true.
Proof. unfold Js.isWord. now intros ->. Qed.

Lemma all_impl (p q : ascii -> bool) (s : string) :
  (forall c, p c = true -> q c = true) -> all p s = true -> all q s = true.
Proof.
  intros H. induction s as [|c s IH]; cbn [all]; [reflexivity|].
  intros Hs. apply andb_true_iff in Hs. destruct Hs as [Hc Hs].
  now rewrite (H c Hc), IH.
Qed.

Lemma all_app (p : ascii -> bool) (a b : string) :
  all p (a ++ b) = all p a && all p b.
Proof.
  induction a as [|c a IH]; cbn [append all]; [reflexivity|].
  now rewrite IH, andb_assoc.
Qed.

Lemma ident_words (id : string) :
  isIdent id = true -> all Js.isWord id = true /\ id <> EmptyString.
Proof.
  destruct id as [|c id]; [discriminate|]. cbn [isIdent all].
  intros H. apply andb_true_iff in H. destruct H as [Hc Hs].
  split; [|discriminate]. now rewrite (alpha_word c Hc).
Qed.

End MatchFacts.

(* ================================================================== *)
(** * Properties of the list and value readers *)
(* ================================================================== *)

Module ReaderFacts.
Import Regex Text Lexis Parse RegexFacts TextFacts MatchFacts.

Lemma bracket_inner (inner : string) :
  all Js.isDot inner = true ->
  match1 re_bracket ("[" ++ inner ++ "]") = Some inner.
Proof.
  intros Hd. unfold match1.
  rewrite (exec_head _ _
             (mkFound [] ("]"%char :: pushed inner ["["%char], EmptyString)
                      [(1%nat, inner)])); [reflexivity|].
  unfold matchAt, re_bracket. cbn [seq append rmatch snd fst].
  cbn [Ascii.eqb Bool.eqb].
  apply star_last; [exact Hd | reflexivity | reflexivity |].
  cbn [rmatch snd fst Ascii.eqb Bool.eqb].
  now rewrite captured_pushed.
Qed.

(** ** Splitting what [join] put together *)

Lemma rev_pushed (w : string) : Js.rev_string (pushed w []) = w.
Proof.
  unfold Js.rev_string. rewrite pushed_rev, app_nil_r, rev_involutive.
  apply string_of_list_ascii_of_string.
Qed.

Lemma splitOnFrom_run (sep : ascii) (w rest : string) :
  all (fun c => negb (Ascii.eqb c sep)) w = true ->
  forall cur,
    Js.splitOnFrom sep cur (w ++ String sep rest)
    = Js.rev_string (pushed w cur) :: Js.splitOnFrom sep [] rest.
Proof.
  induction w as [|c w IH]; intros Hw cur; cbn [append Js.splitOnFrom pushed].
  - now rewrite Ascii.eqb_refl.
  - cbn [all] in Hw. apply andb_true_iff in Hw. destruct Hw as [Hc Hw].
    apply negb_true_iff in Hc. rewrite Hc. now apply IH.
Qed.

Lemma splitOnFrom_end (sep : ascii) (w : string) :
  all (fun c => negb (Ascii.eqb c sep)) w = true ->
  forall cur, Js.splitOnFrom sep cur w = [Js.rev_string (pushed w cur)].
Proof.
  induction w as [|c w IH]; intros Hw cur; cbn [Js.splitOnFrom pushed].
  - reflexivity.
  - cbn [all] in Hw. apply andb_true_iff in Hw. destruct Hw as [Hc Hw].
    apply negb_true_iff in Hc. rewrite Hc. now apply IH.
Qed.

Lemma concat_nil_cons (a : string) (l : list string) :
  String.concat EmptyString (a :: l)
  = (a ++ String.concat EmptyString l)%string.
Proof.
  destruct l as [|b l]; [cbn; now rewrite append_nil_r | reflexivity].
Qed.

Lemma join_cons (sep x : string) (xs : list string) :
  Js.join sep (x :: xs)
  = (x ++ String.concat EmptyString (map (fun y => (sep ++ y)%string) xs))%string.
Proof.
  unfold Js.join. revert x. induction xs as [|y xs IH]; intros x.
  - cbn. now rewrite append_nil_r.
  - change (String.concat sep (x :: y :: xs))
      with (x ++ sep ++ String.concat sep (y :: xs))%string.
    rewrite IH. cbn [map]. rewrite concat_nil_cons, append_assoc.
    reflexivity.
Qed.


Lemma split_items (xs : list string) :
  Forall (fun x => all noComma x = true) xs ->
  forall w cur,
    all noComma w = true ->
    Js.splitOnFrom "," cur
      (w ++ String.concat EmptyString (map (fun y => (", " ++ y)%string) xs))
    = Js.rev_string (pushed w cur) :: map (fun y => (" " ++ y)%string) xs.
Proof.
  induction 1 as [|x xs Hx Hxs IH]; intros w cur Hw.
  - cbn [map String.concat]. rewrite append_nil_r.
    now apply splitOnFrom_end.
  - cbn [map]. rewrite concat_nil_cons.
    set (C := String.concat EmptyString
                (map (fun y => (", " ++ y)%string) xs)) in *.
    change ((", " ++ x) ++ C)%string with (String "," ((" " ++ x) ++ C)).
    rewrite (splitOnFrom_run "," w _ Hw).
    f_equal. rewrite IH; [|exact Hx].
    now rewrite rev_pushed.
Qed.

(** ** Items that need no trimming *)

Lemma trimEnd_solid (s : string) :
  all (fun c => negb (Js.isSpace c)) s = true -> Js.trimEnd s = s.
Proof.
  induction s as [|c s IH]; [reflexivity|].
  cbn [all Js.trimEnd]. intros H. apply andb_true_iff in H.
  destruct H as [Hc Hs]. apply negb_true_iff in Hc.
  rewrite (IH Hs). destruct s; [now rewrite Hc | reflexivity].
Qed.

Lemma solid_parts (s : string) :
  solid s = true ->
  s <> EmptyString
  /\ all (fun c => negb (Js.isSpace c)) s = true
  /\ all Js.isDot s = true
  /\ all noComma s = true.
Proof.
  unfold solid. intros H. apply andb_true_iff in H. destruct H as [Ht Ha].
  split; [now apply RuleFacts.truthy_iff|].
  repeat split; revert Ha; apply all_impl; unfold solidChar, noComma;
    intros c Hc; apply andb_true_iff in Hc; destruct Hc as [Hc H3];
    apply andb_true_iff in Hc; destruct Hc as [H1 H2]; assumption.
Qed.

Lemma trim_solid (s : string) : solid s = true -> Js.trim s = s.
Proof.
  intros H. destruct (solid_parts s H) as [Hne [Hs _]].
  unfold Js.trim. destruct s as [|c s]; [reflexivity|].
  cbn [all] in Hs. pose proof Hs as Hs'.
  apply andb_true_iff in Hs. destruct Hs as [Hc _].
  apply negb_true_iff in Hc.
  rewrite (trimStart_head c s Hc). now apply trimEnd_solid.
Qed.

Lemma trimEnd_app_keep (a b : string) :
  Js.trimEnd b <> EmptyString ->
  Js.trimEnd (a ++ b) = (a ++ Js.trimEnd b)%string.
Proof.
  intros Hb. induction a as [|c a IH]; [reflexivity|].
  cbn [append Js.trimEnd]. rewrite IH.
  destruct (a ++ Js.trimEnd b)%string eqn:E; [|reflexivity].
  exfalso. destruct a; [now apply Hb | discriminate E].
Qed.

Lemma join_more (sep x : string) (r : list string) :
  r <> [] -> Js.join sep (x :: r) = (x ++ sep ++ Js.join sep r)%string.
Proof. destruct r; [congruence | reflexivity]. Qed.

Lemma join_solid (its : list string) :
  Forall (fun x => solid x = true) its ->
  its <> [] ->
  Js.trimEnd (Js.join ", " its) = Js.join ", " its
  /\ (exists c t, Js.join ", " its = String c t /\ Js.isSpace c = false)
  /\ all Js.isDot (Js.join ", " its) = true.
Proof.
  induction 1 as [|x r Hx Hr IH]; [congruence|]. intros _.
  destruct (solid_parts x Hx) as [Hne [Hsp [Hdot _]]].
  assert (Hhead : exists c t, x = String c t /\ Js.isSpace c = false).
  { destruct x as [|c t]; [congruence|]. exists c, t.
    cbn [all] in Hsp. apply andb_true_iff in Hsp. destruct Hsp as [Hc _].
    now apply negb_true_iff in Hc. }
  destruct r as [|y ys].
  - cbn. split; [now apply trimEnd_solid|]. split; assumption.
  - assert (Hne2 : y :: ys <> []) by discriminate.
    destruct (IH Hne2) as [IH1 [[c [t [IH2 Hc]]] IH3]].
    rewrite (join_more ", " x (y :: ys) Hne2).
    set (J := Js.join ", " (y :: ys)) in *.
    assert (HJ : Js.trimEnd J <> EmptyString).
    { rewrite IH1, IH2. discriminate. }
    split; [|split].
    + change (x ++ ", " ++ J)%string with (x ++ (", " ++ J))%string.
      rewrite <- append_assoc.
      rewrite (trimEnd_app_keep _ J HJ), IH1. reflexivity.
    + destruct Hhead as [d [u [-> Hd]]]. cbn [append]. eauto.
    + rewrite !all_app, Hdot, IH3. reflexivity.
Qed.

Lemma items_back (its : list string) :
  Forall (fun x => solid x = true) its ->
  Parse.parseBracketList (bracketed its) = map unquote its.
Proof.
  intros Hs. unfold Parse.parseBracketList, bracketed.
  destruct its as [|x r].
  - cbn [Js.join String.concat]. rewrite (bracket_inner EmptyString eq_refl).
    reflexivity.
  - destruct (join_solid (x :: r) Hs) as [H1 [[c [t [H2 Hc]]] H3]];
      [discriminate|].
    rewrite (bracket_inner _ H3).
    assert (Ht : Js.trim (Js.join ", " (x :: r)) = Js.join ", " (x :: r)).
    { unfold Js.trim. rewrite H2, (trimStart_head c t Hc), <- H2. exact H1. }
    cbv zeta. rewrite Ht, H2. cbn [Js.truthy negb]. rewrite <- H2.
    fold unquote. f_equal.
    rewrite join_cons. unfold Js.splitOn.
    pose proof Hs as Hs'.
    apply Forall_cons_iff in Hs'. destruct Hs' as [Hx Hr].
    rewrite split_items.
    + rewrite rev_pushed. cbn [map filter].
      rewrite (trim_solid x Hx).
      destruct (solid_parts x Hx) as [Hne _].
      destruct x as [|d x]; [congruence|]. cbn [Js.truthy]. f_equal.
      clear -Hr. induction Hr as [|y ys Hy Hys IH]; [reflexivity|].
      cbn [map filter].
      rewrite (trim_lead " " y eq_refl), (trim_solid y Hy).
      destruct (solid_parts y Hy) as [Hne _].
      destruct y as [|e y]; [congruence|]. cbn [Js.truthy].
      now rewrite IH.
    + revert Hr. apply Forall_impl. intros y Hy.
      now destruct (solid_parts y Hy) as [_ [_ [_ H]]].
    + now destruct (solid_parts x Hx) as [_ [_ [_ H]]].
Qed.

(** ** Quotes *)

Lemma quoted_capture (q : ascii) (w : string) :
  Js.isDot q = true -> all Js.isDot w = true -> w <> EmptyString ->
  exec (seq [Bol; Chr q; Grp 1 (Plus Js.isDot); Chr q; Eol])
       (String q (w ++ String q EmptyString))
  = Some (mkFound [] (q :: pushed w [q], EmptyString) [(1%nat, w)]).
Proof.
  intros Hq Hw Hne. cbn [seq]. rewrite exec_bol.
  cbn [rmatch snd fst]. rewrite Ascii.eqb_refl.
  destruct w as [|d w]; [congruence|].
  cbn [all] in Hw. apply andb_true_iff in Hw. destruct Hw as [Hd Hw].
  cbn [append]. rewrite Hd.
  apply star_last; [exact Hw | exact Hq | reflexivity |].
  cbn [rmatch snd fst]. rewrite Ascii.eqb_refl.
  change (pushed w (d :: [q])) with (pushed (String d w) [q]).
  now rewrite captured_pushed.
Qed.

Lemma replace1_quoted (q : ascii) (w : string) :
  Js.isDot q = true -> all Js.isDot w = true -> w <> EmptyString ->
  replace1 (seq [Bol; Chr q; Grp 1 (Plus Js.isDot); Chr q; Eol])
           (String q (w ++ String q EmptyString))
  = w.
Proof.
  intros Hq Hw Hne. unfold replace1.
  rewrite (quoted_capture q w Hq Hw Hne).
  cbn [before groups stop group Nat.eqb snd Js.rev_string rev
       string_of_list_ascii append].
  apply append_nil_r.
Qed.

Lemma replace1_other (q : ascii) (s : string) :
  match s with String d _ => Ascii.eqb q d = false | EmptyString => True end ->
  replace1 (seq [Bol; Chr q; Grp 1 (Plus Js.isDot); Chr q; Eol]) s = s.
Proof.
  intros H. unfold replace1. cbn [seq]. now rewrite exec_bol_chr.
Qed.

Lemma ident_head (id : string) :
  isIdent id = true ->
  exists c t, id = String c t /\ Js.isWord c = true.
Proof.
  destruct id as [|c t]; [discriminate|]. cbn [isIdent].
  intros H. apply andb_true_iff in H. destruct H as [Hc _].
  exists c, t. split; [reflexivity | now apply alpha_word].
Qed.

Lemma eqb_flip (a b : ascii) : Ascii.eqb a b = Ascii.eqb b a.
Proof.
  destruct (Ascii.eqb a b) eqn:E.
  - apply Ascii.eqb_eq in E. subst. now rewrite Ascii.eqb_refl.
  - symmetry. apply Ascii.eqb_neq. intros ->.
    now rewrite Ascii.eqb_refl in E.
Qed.

Lemma unquote_renders (item id : string) :
  isIdent id = true -> renders item id ->
  solid item = true /\ unquote item = id.
Proof.
  intros Hi Hr.
  destruct (ident_words id Hi) as [Hw Hne].
  destruct (ident_head id Hi) as [c [t [E Hc]]].
  destruct (word_classes c Hc) as [_ [_ [_ [Hdq [Hsq _]]]]].
  assert (Hsolid : all solidChar id = true).
  { revert Hw. apply all_impl. intros x Hx.
    destruct (word_classes x Hx) as [H1 [H2 [H3 _]]].
    unfold solidChar. now rewrite H1, H2, H3. }
  assert (Hdot : all Js.isDot id = true).
  { revert Hw. apply all_impl. intros x Hx.
    now destruct (word_classes x Hx) as [_ [H2 _]]. }
  assert (Hbare : replace1 re_squoted id = id).
  { apply replace1_other. rewrite E, eqb_flip. exact Hsq. }
  unfold unquote.
  destruct Hr as [->|[->| ->]].
  - split.
    + unfold solid. rewrite Hsolid, E. reflexivity.
    + unfold re_dquoted. rewrite replace1_other; [exact Hbare|].
      rewrite E, eqb_flip. exact Hdq.
  - split.
    + unfold solid, dquoted. cbn [Js.truthy all andb].
      rewrite all_app, Hsolid. reflexivity.
    + unfold dquoted, re_dquoted.
      rewrite (replace1_quoted dquote id eq_refl Hdot Hne). exact Hbare.
  - split.
    + unfold solid, squoted. cbn [Js.truthy all andb].
      rewrite all_app, Hsolid. reflexivity.
    + unfold squoted, re_dquoted.
      rewrite replace1_other; [|reflexivity].
      apply (replace1_quoted squote id eq_refl Hdot Hne).
Qed.

(** X12.  A bracket list of identifiers, each written bare or between
    double or single quotes and separated by a comma and a blank, reads
    back as the identifiers, in order; the empty list [[]] reads back as
    no identifier. *)
Theorem bracket_list_round_trip (items ids : list string) :
  Forall (fun id => isIdent id = true) ids ->
  Forall2 renders items ids ->
  parseBracketList (bracketed items) = ids.
Proof.
  intros Hi Hr.
  assert (H : Forall (fun x => solid x = true) items
              /\ map unquote items = ids).
  { induction Hr as [|it id its ids Hit Hits IH].
    - split; [constructor | reflexivity].
    - apply Forall_cons_iff in Hi. destruct Hi as [Hid Hids].
      destruct (unquote_renders it id Hid Hit) as [H1 H2].
      destruct (IH Hids) as [H3 H4].
      split; [now constructor|]. cbn [map]. now rewrite H2, H4. }
  destruct H as [H1 H2]. rewrite (items_back items H1). exact H2.
Qed.

Lemma bracket_list_round_trip_witness :
  parseBracketList (bracketed ["I1"; dquoted "I2"; squoted "C_3"])
  = ["I1"; "I2"; "C_3"].
Proof.
  apply (bracket_list_round_trip ["I1"; dquoted "I2"; squoted "C_3"]).
  - repeat (constructor; [reflexivity|]). constructor.
  - constructor; [left; reflexivity|].
    constructor; [right; left; reflexivity|].
    constructor; [right; right; reflexivity | constructor].
Defined.

(** ** Values without brackets *)

Lemma star_lacks {R : Type} (p : ascii -> bool) (c : ascii)
      (k : pos -> option R) (rest : string) :
  (forall y,
      match snd y with
      | String d _ => Ascii.eqb c d = false
      | EmptyString => True
      end -> k y = None) ->
  all (fun d => negb (Ascii.eqb c d)) rest = true ->
  forall pre, star p pre rest k = None.
Proof.
  intros Hk. induction rest as [|d rest IH]; intros H pre.
  - cbn [star]. now apply Hk.
  - cbn [all] in H. apply andb_true_iff in H. destruct H as [Hd Hr].
    apply negb_true_iff in Hd.
    cbn [star]. rewrite (IH Hr), (Hk (pre, String d rest) Hd).
    now destruct (p d).
Qed.

Lemma searchFrom_none (r : regex) (s : string) :
  (forall pre a b, s = (a ++ b)%string -> matchAt r (pre, b) = None) ->
  forall pre, searchFrom r pre s = None.
Proof.
  induction s as [|c s IH]; intros H pre; cbn [searchFrom].
  - now rewrite (H pre EmptyString EmptyString eq_refl).
  - rewrite (H pre EmptyString (String c s) eq_refl).
    apply IH. intros pre' a b E.
    apply (H pre' (String c a) b). cbn [append]. now rewrite E.
Qed.

Lemma all_suffix (p : ascii -> bool) (a b : string) :
  all p (a ++ b) = true -> all p b = true.
Proof.
  rewrite all_app. intros H. apply andb_true_iff in H. tauto.
Qed.

Lemma bracket_none (value : string) :
  all (fun d => negb (Ascii.eqb "[" d)) value = true
  \/ all (fun d => negb (Ascii.eqb "]" d)) value = true ->
  exec re_bracket value = None.
Proof.
  intros H. apply searchFrom_none. intros pre a b ->.
  unfold matchAt, re_bracket. cbn [seq rmatch snd fst].
  destruct b as [|d b]; [reflexivity|].
  destruct (Ascii.eqb "[" d) eqn:E; [|reflexivity].
  destruct H as [H|H]; apply all_suffix in H; cbn [all] in H;
    apply andb_true_iff in H; destruct H as [Hd Hb].
  - rewrite E in Hd. discriminate Hd.
  - apply (star_lacks Js.isDot "]"); [|exact Hb].
    intros y Hy. destruct (snd y) as [|e t]; [reflexivity|].
    now rewrite Hy.
Qed.

(** X13.  A value without an opening bracket, or without a closing one,
    reads as the empty list: identifiers listed without brackets are
    lost. *)
Theorem bracket_list_needs_brackets (value : string) :
  all (fun d => negb (Ascii.eqb "[" d)) value = true
  \/ all (fun d => negb (Ascii.eqb "]" d)) value = true ->
  parseBracketList value = [].
Proof.
  intros H. unfold parseBracketList, match1.
  now rewrite (bracket_none value H).
Qed.

Lemma bracket_list_needs_brackets_witness :
  parseBracketList "I1, I2" = [] /\ parseBracketList "[I1, I2" = [].
Proof.
  split; apply bracket_list_needs_brackets;
    [left | right]; reflexivity.
Defined.

(** ** [parseQuotedOrBare] *)

Lemma strict_capture (q : ascii) (w : string) :
  all (notQuote q) w = true -> w <> EmptyString ->
  match1 (seq [Bol; Chr q; Grp 1 (Plus (notQuote q)); Chr q; Eol])
         (String q (w ++ String q EmptyString))
  = Some w.
Proof.
  intros Hw Hne. unfold match1. cbn [seq]. rewrite exec_bol.
  cbn [rmatch snd fst]. rewrite Ascii.eqb_refl.
  destruct w as [|d w]; [congruence|].
  cbn [all] in Hw. apply andb_true_iff in Hw. destruct Hw as [Hd Hw].
  cbn [append]. rewrite Hd.
  rewrite (star_stop (notQuote q) _ w (String q EmptyString)
                     (mkFound [] (q :: pushed w [d; q], EmptyString)
                              [(1%nat, String d w)]) Hw).
  - reflexivity.
  - unfold notQuote. now rewrite Ascii.eqb_refl.
  - cbn [rmatch snd fst]. rewrite Ascii.eqb_refl.
    change (pushed w [d; q]) with (pushed (String d w) [q]).
    now rewrite captured_pushed.
Qed.

Lemma strict_other (q : ascii) (s : string) :
  match s with String d _ => Ascii.eqb q d = false | EmptyString => True end ->
  match1 (seq [Bol; Chr q; Grp 1 (Plus (notQuote q)); Chr q; Eol]) s = None.
Proof.
  intros H. unfold match1. cbn [seq]. now rewrite exec_bol_chr.
Qed.

(** X14.  A blank value gives no result, and a result is never empty and
    never has blanks around it. *)
Theorem quoted_or_bare_is_trimmed (value : string) :
  (allSpace value = true -> parseQuotedOrBare value = None)
  /\ (forall r, parseQuotedOrBare value = Some r ->
                r <> EmptyString /\ trimmed r).
Proof.
  unfold parseQuotedOrBare. cbv zeta. split.
  - intros H. apply trim_blank in H. now rewrite H.
  - intros r. destruct (negb (Js.truthy (Js.trim value))); [discriminate|].
    set (m := match match match1 re_dq_strict (Js.trim value) with
                    | Some g => Some g
                    | None => match1 re_sq_strict (Js.trim value)
                    end with
              | Some g => g
              | None => Js.trim value
              end).
    destruct (Js.truthy (Js.trim m)) eqn:E; [|discriminate].
    intros H. injection H as <-.
    split; [now apply RuleFacts.truthy_iff | apply trim_idem].
Qed.

Lemma value_reads (item id : string) :
  isIdent id = true -> renders item id ->
  parseQuotedOrBare item = Some id.
Proof.
  intros Hi Hr.
  destruct (unquote_renders item id Hi Hr) as [Hs _].
  destruct (ident_words id Hi) as [Hw Hne].
  destruct (ident_head id Hi) as [c [t [E Hc]]].
  destruct (word_classes c Hc) as [_ [_ [_ [Hdq [Hsq _]]]]].
  assert (Hid : Js.trim id = id).
  { apply trim_solid. unfold solid. rewrite E at 1. cbn [Js.truthy andb].
    revert Hw. apply all_impl. intros x Hx.
    destruct (word_classes x Hx) as [H1 [H2 [H3 _]]].
    unfold solidChar. now rewrite H1, H2, H3. }
  assert (Hnq : forall q, Js.isWord q = false ->
                          all (notQuote q) id = true).
  { intros q Hq. revert Hw. apply all_impl. intros x Hx.
    unfold notQuote. apply negb_true_iff, Ascii.eqb_neq. congruence. }
  unfold parseQuotedOrBare. cbv zeta.
  rewrite (trim_solid item Hs).
  assert (Ht : Js.truthy item = true).
  { unfold solid in Hs. apply andb_true_iff in Hs. tauto. }
  rewrite Ht. cbn [negb].
  unfold re_dq_strict, re_sq_strict.
  fold (notQuote dquote). fold (notQuote squote).
  destruct Hr as [->|[->| ->]].
  - rewrite !strict_other; [|rewrite E, eqb_flip; assumption..].
    rewrite Hid, E. reflexivity.
  - unfold dquoted.
    rewrite (strict_capture dquote id (Hnq dquote eq_refl) Hne).
    rewrite Hid, E. reflexivity.
  - unfold squoted. rewrite strict_other; [|reflexivity].
    rewrite (strict_capture squote id (Hnq squote eq_refl) Hne).
    rewrite Hid, E. reflexivity.
Qed.

Lemma parseQuotedOrBare_trim (value : string) :
  parseQuotedOrBare value = parseQuotedOrBare (Js.trim value).
Proof. unfold parseQuotedOrBare. cbv zeta. now rewrite trim_idem. Qed.

(** X15.  An identifier, bare or between double or single quotes and
    with any blanks around, reads back as the identifier. *)
Theorem quoted_or_bare_round_trip (a item b id : string) :
  isIdent id = true -> renders item id ->
  allSpace a = true -> allSpace b = true ->
  parseQuotedOrBare (a ++ item ++ b) = Some id.
Proof.
  intros Hi Hr Ha Hb.
  rewrite parseQuotedOrBare_trim, (trim_around a item b Ha Hb).
  rewrite <- parseQuotedOrBare_trim. now apply value_reads.
Qed.

Lemma quoted_or_bare_round_trip_witness :
  parseQuotedOrBare ("  " ++ dquoted "collect_external_evidence" ++ " ")
  = Some "collect_external_evidence".
Proof.
  apply quoted_or_bare_round_trip;
    [reflexivity | right; left; reflexivity | reflexivity | reflexivity].
Defined.

End ReaderFacts.

(* ================================================================== *)
(** * The names the parser extracts *)
(* ================================================================== *)

Module NameFacts.
Import Regex Text Lexis Parse ParseSpec ParseShape IdShape RegexFacts
       TextFacts MatchFacts ParserFacts.

(** ** What a successful match says about the text *)

Lemma star_some {R : Type} (p : ascii -> bool) (k : pos -> option R)
      (rest : string) (v : R) :
  forall pre,
    star p pre rest k = Some v ->
    exists s t,
      rest = (s ++ t)%string /\ all p s = true
      /\ k (pushed s pre, t) = Some v.
Proof.
  induction rest as [|c rest IH]; intros pre H; cbn [star] in H.
  - exists EmptyString, EmptyString. now repeat split.
  - destruct (p c) eqn:Hc.
    + destruct (star p (c :: pre) rest k) as [v'|] eqn:Es.
      * injection H as <-. apply IH in Es.
        destruct Es as [s [t [-> [Hs Hk]]]].
        exists (String c s), t. cbn [append all pushed].
        now rewrite Hc, Hs.
      * exists EmptyString, (String c rest). now repeat split.
    + exists EmptyString, (String c rest). now repeat split.
Qed.

(** One step of the matcher at a time. *)
Lemma rmatch_seq {R : Type} (a b : regex) (x : pos) (cs : caps)
      (k : pos -> caps -> option R) :
  rmatch (Seq a b) x cs k = rmatch a x cs (fun y cs' => rmatch b y cs' k).
Proof. reflexivity. Qed.

Lemma rmatch_plus {R : Type} (p : ascii -> bool) (pre : list ascii)
      (s : string) (cs : caps) (k : pos -> caps -> option R) :
  rmatch (Plus p) (pre, s) cs k
  = match s with
    | String d r => if p d then star p (d :: pre) r (fun y => k y cs)
                    else None
    | EmptyString => None
    end.
Proof. reflexivity. Qed.

Lemma rmatch_star {R : Type} (p : ascii -> bool) (pre : list ascii)
      (s : string) (cs : caps) (k : pos -> caps -> option R) :
  rmatch (Star p) (pre, s) cs k = star p pre s (fun y => k y cs).
Proof. reflexivity. Qed.

Lemma rmatch_chr {R : Type} (c : ascii) (pre : list ascii)
      (s : string) (cs : caps) (k : pos -> caps -> option R) :
  rmatch (Chr c) (pre, s) cs k
  = match s with
    | String d r => if Ascii.eqb c d then k (d :: pre, r) cs else None
    | EmptyString => None
    end.
Proof. reflexivity. Qed.

Lemma rmatch_eol {R : Type} (pre : list ascii)
      (s : string) (cs : caps) (k : pos -> caps -> option R) :
  rmatch Eol (pre, s) cs k
  = match s with EmptyString => k (pre, s) cs | String _ _ => None end.
Proof. destruct s; reflexivity. Qed.

Lemma rmatch_wordb {R : Type} (x : pos) (cs : caps)
      (k : pos -> caps -> option R) :
  rmatch WordB x cs k = if atBoundary x then k x cs else None.
Proof. reflexivity. Qed.

(** The first group over a letter and a run of a class. *)
Lemma name_capture {R : Type} (p : ascii -> bool) (pre : list ascii)
      (s : string) (cs : caps) (k : pos -> caps -> option R) (v : R) :
  rmatch (Grp 1 (Seq (Cls Js.isAlpha) (Star p))) (pre, s) cs k = Some v ->
  exists c w t,
    s = (String c w ++ t)%string
    /\ Js.isAlpha c = true /\ all p w = true
    /\ k (pushed (String c w) pre, t) ((1%nat, String c w) :: cs) = Some v.
Proof.
  cbn [rmatch snd fst].
  destruct s as [|c s]; [discriminate|].
  destruct (Js.isAlpha c) eqn:Hc; [|discriminate].
  intros H. apply star_some in H. destruct H as [w [t [-> [Hw Hk]]]].
  exists c, w, t. repeat split; try assumption.
  change (pushed w (c :: pre)) with (pushed (String c w) pre) in Hk.
  now rewrite captured_pushed in Hk.
Qed.

Lemma final_groups (pre : list ascii) (y : pos) (cs : caps) (f : found) :
  Some (mkFound pre y cs) = Some f -> groups f = cs.
Proof. intros H. injection H as <-. reflexivity. Qed.

(** A line [keyword NAME ...], for names of a class of characters. *)
Lemma keyword_name (p : ascii -> bool) (kw t id : string) :
  match1 (seq [Bol; lit kw; Plus Js.isSpace;
               Grp 1 (Seq (Cls Js.isAlpha) (Star p)); WordB]) t
  = Some id ->
  exists c w,
    id = String c w /\ Js.isAlpha c = true /\ all p w = true.
Proof.
  unfold match1. cbn [seq]. rewrite exec_bol.
  rewrite rmatch_seq, rmatch_lit.
  destruct (stripPrefix kw t) as [s'|]; [|discriminate].
  rewrite rmatch_seq, rmatch_plus.
  destruct s' as [|d r]; [discriminate|].
  destruct (Js.isSpace d); [|discriminate].
  destruct (star Js.isSpace _ r _) as [f|] eqn:Es; [|discriminate].
  apply star_some in Es. destruct Es as [ws [u [-> [_ Hk]]]].
  cbv beta in Hk. rewrite rmatch_seq in Hk.
  apply name_capture in Hk.
  destruct Hk as [c [w [t' [-> [Hc [Hw Hk]]]]]].
  rewrite rmatch_wordb in Hk.
  destruct (atBoundary _); [|discriminate].
  apply final_groups in Hk. rewrite Hk. cbn [group Nat.eqb].
  intros H. injection H as <-. now exists c, w.
Qed.

Lemma keyword_ident (kw t id : string) :
  match1 (seq [Bol; lit kw; Plus Js.isSpace; Grp 1 ident; WordB]) t
  = Some id ->
  isIdent id = true.
Proof.
  intros H. apply keyword_name in H.
  destruct H as [c [w [-> [Hc Hw]]]]. cbn [isIdent]. now rewrite Hc, Hw.
Qed.

Lemma validate_label (t id : string) :
  match1 re_validate t = Some id -> isLabel id = true.
Proof.
  intros H. apply keyword_name in H.
  destruct H as [c [w [-> [Hc Hw]]]]. cbn [isLabel]. now rewrite Hc, Hw.
Qed.

Lemma capability_ident (t c : string) :
  match1 re_capability t = Some c -> isIdent c = true.
Proof.
  unfold match1, re_capability. cbn [seq]. rewrite exec_bol.
  rewrite rmatch_seq.
  destruct (rmatch (Grp 1 ident) _ _ _) as [f|] eqn:E; [|discriminate].
  unfold ident in E. apply name_capture in E.
  destruct E as [a [w [t' [-> [Ha [Hw Hk]]]]]].
  rewrite rmatch_seq, rmatch_star in Hk.
  apply star_some in Hk. destruct Hk as [ws [u [-> [_ Hk]]]].
  cbv beta in Hk. rewrite rmatch_eol in Hk.
  destruct u; [|discriminate].
  apply final_groups in Hk. rewrite Hk. cbn [group Nat.eqb].
  intros H. injection H as <-. cbn [isIdent]. now rewrite Ha, Hw.
Qed.

Lemma severity_ident (t v : string) :
  match1 re_severity t = Some v -> isIdent v = true.
Proof.
  unfold match1, re_severity. cbn [seq]. rewrite exec_bol.
  rewrite rmatch_seq, rmatch_lit.
  destruct (stripPrefix "severity" t) as [s'|]; [|discriminate].
  rewrite rmatch_seq, rmatch_star.
  destruct (star Js.isSpace _ s' _) as [f|] eqn:Es; [|discriminate].
  apply star_some in Es. destruct Es as [ws [u [-> [_ Hk]]]].
  cbv beta in Hk. rewrite rmatch_seq, rmatch_chr in Hk.
  destruct u as [|d u]; [discriminate|].
  destruct (Ascii.eqb ":" d); [|discriminate].
  rewrite rmatch_seq, rmatch_star in Hk.
  apply star_some in Hk. destruct Hk as [ws2 [u2 [-> [_ Hk]]]].
  cbv beta in Hk. rewrite rmatch_seq in Hk.
  unfold ident in Hk. apply name_capture in Hk.
  destruct Hk as [a [w [t' [-> [Ha [Hw Hk]]]]]].
  rewrite rmatch_seq, rmatch_star in Hk.
  apply star_some in Hk. destruct Hk as [ws3 [u3 [-> [_ Hk]]]].
  cbv beta in Hk. rewrite rmatch_eol in Hk.
  destruct u3; [|discriminate].
  apply final_groups in Hk. rewrite Hk. cbn [group Nat.eqb].
  intros H. injection H as <-. cbn [isIdent]. now rewrite Ha, Hw.
Qed.

(** The first group over a choice between words. *)
Lemma alts_capture {R : Type} (ws : list string) (pre : list ascii)
      (s : string) (cs : caps) (k : pos -> caps -> option R) (v : R) :
  ws <> [] ->
  rmatch (Grp 1 (alts ws)) (pre, s) cs k = Some v ->
  exists w t,
    In w ws /\ s = (w ++ t)%string
    /\ k (pushed w pre, t) ((1%nat, w) :: cs) = Some v.
Proof.
  assert (Hlit : forall w,
             rmatch (Grp 1 (lit w)) (pre, s) cs k = Some v ->
             exists t, s = (w ++ t)%string
                       /\ k (pushed w pre, t) ((1%nat, w) :: cs) = Some v).
  { intros w H. cbn [rmatch] in H. rewrite rmatch_lit in H.
    destruct (stripPrefix w s) as [t|] eqn:E; [|discriminate].
    apply stripPrefix_app in E. exists t. split; [exact E|].
    now rewrite captured_pushed in H. }
  induction ws as [|w ws IH]; [congruence|]. intros _ H.
  destruct ws as [|w2 ws].
  - apply Hlit in H. destruct H as [t [H1 H2]].
    exists w, t. split; [now left | now split].
  - change (rmatch (Grp 1 (alts (w :: w2 :: ws))) (pre, s) cs k)
      with (match rmatch (Grp 1 (lit w)) (pre, s) cs k with
            | Some v0 => Some v0
            | None => rmatch (Grp 1 (alts (w2 :: ws))) (pre, s) cs k
            end) in H.
    destruct (rmatch (Grp 1 (lit w)) (pre, s) cs k) as [v0|] eqn:E.
    + injection H as ->. apply Hlit in E. destruct E as [t [H1 H2]].
      exists w, t. split; [now left | now split].
    + destruct (IH ltac:(discriminate) H) as [w' [t [H1 [H2 H3]]]].
      exists w', t. split; [now right | now split].
Qed.

(** The name a section line captures is one of the eight. *)
Lemma section_name (t name : string) :
  match1 re_section t = Some name -> In name sectionNames.
Proof.
  unfold match1, re_section. cbn [seq]. rewrite exec_bol.
  rewrite rmatch_seq.
  destruct (rmatch _ ([], t) [] _) as [f|] eqn:E; [|discriminate].
  change (Alt (lit "about") (Alt (lit "capabilities")
            (Alt (lit "intents") (Alt (lit "constraints")
            (Alt (lit "decisions") (Alt (lit "validations")
            (Alt (lit "change") (lit "implementation_notes"))))))))
    with (alts sectionNames) in E.
  apply alts_capture in E; [|discriminate].
  destruct E as [w [u [Hw [-> H]]]].
  rewrite rmatch_seq, rmatch_star in H.
  apply star_some in H. destruct H as [ws [u1 [-> [_ H]]]].
  cbv beta in H. rewrite rmatch_seq, rmatch_chr in H.
  destruct u1 as [|d u1]; [discriminate|].
  destruct (Ascii.eqb "{" d); [|discriminate].
  rewrite rmatch_seq, rmatch_star in H.
  apply star_some in H. destruct H as [ws2 [u2 [-> [_ H]]]].
  cbv beta in H. rewrite rmatch_eol in H.
  destruct u2; [|discriminate].
  apply final_groups in H. rewrite H. cbn [group Nat.eqb].
  intros E. injection E as <-. exact Hw.
Qed.

Lemma section_key_known (name : string) :
  In name sectionNames -> section_key (section_of_key name) = name.
Proof.
  unfold sectionNames. cbn [map known_sections section_key In].
  intros [<-|[<-|[<-|[<-|[<-|[<-|[<-|[<-|[]]]]]]]]]; reflexivity.
Qed.

(** ** The section scan, line reader by line reader *)

Lemma scanLine_preserves (Q : ParsedSpec -> Prop) :
  (forall p k v,
      In k sectionNames -> Q p ->
      Q (with_sections_raw p (JsMap.set (sections_raw p) k v))) ->
  (forall t p, Q p -> Q (parseCapabilityLine t p)) ->
  (forall t p, Q p -> Q (parseIntentLine t p)) ->
  (forall t p,
      Q p -> Q (with_constraints p (parseConstraintLine t (constraints p)))) ->
  (forall t p cur,
      Q p ->
      Q (with_decisions p (fst (parseDecisionLine t (decisions p) cur)))) ->
  (forall t p cur,
      Q p ->
      Q (with_validations p
           (fst (parseValidationLine t (validations p) cur)))) ->
  forall i l s, Q (spec s) -> Q (spec (fst (scanLine i l s))).
Proof.
  intros Hraw Hcap Hint Hcon Hdec Hval i l s HQ.
  unfold scanLine.
  destruct (negb (inSystem s)).
  - destruct (exec re_system (stripComments l)); exact HQ.
  - set (t := Js.trim (stripComments l)).
    set (s1 := if (braceDepth s =? 1)%Z then _ else s).
    assert (H1 : Q (spec s1)).
    { unfold s1. destruct (braceDepth s =? 1)%Z; [|exact HQ].
      destruct (match1 re_section t) as [name|] eqn:E; [|exact HQ].
      cbn [spec]. apply Hraw; [|exact HQ].
      rewrite (section_key_known name); now apply (section_name t). }
    clearbody s1.
    set (s2 := if negb (section_eqb (currentSection s1) unknown_s)
               then _ else s1).
    assert (H2 : Q (spec s2)).
    { unfold s2.
      destruct (negb (section_eqb (currentSection s1) unknown_s)) eqn:Eu;
        [|exact H1].
      unfold parseSectionLine.
      set (p0 := with_sections_raw (spec s1) _).
      assert (H0 : Q p0).
      { unfold p0. apply Hraw; [|exact H1].
        unfold sectionNames. cbn [map known_sections section_key].
        destruct (currentSection s1); cbn [section_key In]; try tauto.
        discriminate Eu. }
      clearbody p0.
      destruct (currentSection s1); cbn [spec]; try exact H0.
      - now apply Hcap.
      - now apply Hint.
      - now apply Hcon.
      - pose proof (Hdec t p0 (currentDecisionId s1) H0) as Hd.
        destruct (parseDecisionLine t (decisions p0) (currentDecisionId s1)).
        exact Hd.
      - pose proof (Hval t p0 (currentValidationId s1) H0) as Hd.
        destruct (parseValidationLine t (validations p0)
                                      (currentValidationId s1)).
        exact Hd. }
    clearbody s2. cbn [fst].
    match goal with
    | |- context [if ?b then _ else _] => destruct b
    end; exact H2.
Qed.

Lemma scanLines_preserves (Q : ParsedSpec -> Prop) :
  (forall i l s, Q (spec s) -> Q (spec (fst (scanLine i l s)))) ->
  forall lines i s, Q (spec s) -> Q (spec (scanLines i lines s)).
Proof.
  intros Hstep. induction lines as [|l lines IH]; intros i s HQ;
    [exact HQ|].
  cbn [scanLines]. pose proof (Hstep i l s HQ) as H.
  destruct (scanLine i l s) as [s' stop]. cbn [fst] in H.
  destruct stop; [exact H | now apply IH].
Qed.

(** ** Names *)

Lemma Forall_keys_set {V : Type} (P : string -> Prop) (m : JsMap.t V)
      (k : string) (v : V) :
  P k -> Forall P (JsMap.keys m) -> Forall P (JsMap.keys (JsMap.set m k v)).
Proof.
  intros Hk Hm. apply Forall_forall. intros x Hx.
  apply keys_set in Hx. destruct Hx as [->|Hx]; [exact Hk|].
  now apply (proj1 (Forall_forall _ _) Hm).
Qed.

Lemma keys_set_present {V : Type} (m : JsMap.t V) (k : string) (v0 v : V) :
  JsMap.get m k = Some v0 -> JsMap.keys (JsMap.set m k v) = JsMap.keys m.
Proof.
  induction m as [|[k' v'] m IH]; cbn [JsMap.get JsMap.set]; [discriminate|].
  destruct (String.eqb k k'); [reflexivity|].
  intros H. cbn [JsMap.keys map fst]. f_equal. now apply IH.
Qed.

Lemma Forall_values_set {V : Type} (P : V -> Prop) (m : JsMap.t V)
      (k : string) (v : V) :
  P v -> Forall P (JsMap.values m) ->
  Forall P (JsMap.values (JsMap.set m k v)).
Proof.
  intros Hv. induction m as [|[k' v'] m IH]; cbn [JsMap.set JsMap.values map].
  - intros _. now repeat constructor.
  - intros H. apply Forall_cons_iff in H. destruct H as [H1 H2].
    destruct (String.eqb k k'); cbn [map snd]; constructor; auto.
Qed.

Lemma Forall_values_updateLast {V : Type} (P : V -> Prop) (f : V -> V)
      (m : JsMap.t V) :
  (forall v, P (f v)) -> Forall P (JsMap.values m) ->
  Forall P (JsMap.values (JsMap.updateLast f m)).
Proof.
  intros Hf. induction m as [|[k v] m IH]; [constructor|].
  intros H. cbn [JsMap.values map] in H.
  apply Forall_cons_iff in H. destruct H as [H1 H2].
  destruct m as [|e m].
  - cbn. constructor; [apply Hf | constructor].
  - change (JsMap.updateLast f ((k, v) :: e :: m))
      with ((k, v) :: JsMap.updateLast f (e :: m)).
    cbn [JsMap.values map snd]. constructor; [exact H1 | now apply IH].
Qed.

Lemma scanLine_wellNamed (i : Z) (l : string) (s : Scan) :
  wellNamed (spec s) -> wellNamed (spec (fst (scanLine i l s))).
Proof.
  apply (scanLine_preserves wellNamed).
  - intros p k v Hk [H1 H]. split; [|exact H].
    cbn [sections_raw with_sections_raw]. now apply Forall_keys_set.
  - intros t p [H1 [H2 H]]. unfold parseCapabilityLine.
    destruct (match1 re_capability t) as [c|] eqn:E; [|now split].
    split; [exact H1|]. split; [|exact H].
    cbn [capabilities with_capabilities]. unfold JsMap.add.
    destruct (Js.includes (capabilities p) c); [exact H2|].
    apply Forall_app. split; [exact H2|].
    constructor; [now apply (capability_ident t) | constructor].
  - intros t p [H1 [H2 [H3 H]]]. unfold parseIntentLine.
    destruct (match1 re_intent t) as [id|] eqn:E; [|now repeat split].
    destruct (negb (JsMap.has (intents p) id)); [|now repeat split].
    split; [exact H1|]. split; [exact H2|]. split; [|exact H].
    cbn [intents with_intents]. apply Forall_keys_set; [|exact H3].
    now apply (keyword_ident "intent" t).
  - intros t p [H1 [H2 [H3 [H4 [H5 H]]]]].
    split; [exact H1|]. split; [exact H2|]. split; [exact H3|].
    cbn [constraints with_constraints]. unfold parseConstraintLine.
    set (cs1 := match match1 re_constraint t with
                | Some id =>
                    if negb (JsMap.has (constraints p) id)
                    then JsMap.set (constraints p) id (mkConstraint id None)
                    else constraints p
                | None => constraints p
                end).
    assert (Hc : Forall (fun k => isIdent k = true) (JsMap.keys cs1)
                 /\ Forall (fun c => match severity c with
                                     | Some v => isIdent v = true
                                     | None => True
                                     end) (JsMap.values cs1)).
    { unfold cs1. destruct (match1 re_constraint t) as [id|] eqn:E;
        [|now split].
      destruct (negb (JsMap.has (constraints p) id)); [|now split].
      split.
      - apply Forall_keys_set; [|exact H4].
        now apply (keyword_ident "constraint" t).
      - now apply Forall_values_set. }
    destruct Hc as [Hc1 Hc2]. clearbody cs1.
    destruct (match1 re_severity t) as [v|] eqn:E.
    + split; [now rewrite keys_updateLast|].
      split; [|exact H].
      apply Forall_values_updateLast; [|exact Hc2].
      intros c. cbn [severity setSeverity]. now apply (severity_ident t).
    + split; [exact Hc1|]. split; [exact Hc2 | exact H].
  - intros t p cur [H1 [H2 [H3 [H4 [H5 [H6 H]]]]]].
    split; [exact H1|]. split; [exact H2|]. split; [exact H3|].
    split; [exact H4|]. split; [exact H5|]. split; [|exact H].
    cbn [decisions with_decisions]. unfold parseDecisionLine.
    set (r1 := match match1 re_decision t with
               | Some id =>
                   (if negb (JsMap.has (decisions p) id)
                    then JsMap.set (decisions p) id (mkDecision id [] [])
                    else decisions p, Some id)
               | None => (decisions p, cur)
               end).
    assert (Hr : Forall (fun k => isIdent k = true) (JsMap.keys (fst r1))).
    { unfold r1. destruct (match1 re_decision t) as [id|] eqn:E;
        [|exact H6].
      cbn [fst]. destruct (negb (JsMap.has (decisions p) id)); [|exact H6].
      apply Forall_keys_set; [|exact H6].
      now apply (keyword_ident "decision" t). }
    destruct r1 as [ds1 cur1]. cbn [fst] in Hr.
    destruct cur1 as [id|]; [|exact Hr].
    destruct (Js.truthy id); [|exact Hr].
    destruct (JsMap.get ds1 id) as [d0|] eqn:Eg; [|exact Hr].
    cbn [fst]. now rewrite (keys_set_present ds1 id d0 _ Eg).
  - intros t p cur [H1 [H2 [H3 [H4 [H5 [H6 H7]]]]]].
    split; [exact H1|]. split; [exact H2|]. split; [exact H3|].
    split; [exact H4|]. split; [exact H5|]. split; [exact H6|].
    cbn [validations with_validations]. unfold parseValidationLine.
    set (r1 := match match1 re_validate t with
               | Some id =>
                   (if negb (JsMap.has (validations p) id)
                    then JsMap.set (validations p) id (mkValidation id None)
                    else validations p, Some id)
               | None => (validations p, cur)
               end).
    assert (Hr : Forall (fun k => isLabel k = true) (JsMap.keys (fst r1))).
    { unfold r1. destruct (match1 re_validate t) as [id|] eqn:E;
        [|exact H7].
      cbn [fst]. destruct (negb (JsMap.has (validations p) id)); [|exact H7].
      apply Forall_keys_set; [|exact H7].
      now apply (validate_label t). }
    destruct r1 as [vs1 cur1]. cbn [fst] in Hr.
    destruct cur1 as [id|]; [|exact Hr].
    destruct (Js.truthy id); [|exact Hr].
    destruct (JsMap.get vs1 id) as [v0|] eqn:Eg; [|exact Hr].
    destruct (match1 (re_field "requires_capability") t); [|exact Hr].
    cbn [fst]. now rewrite (keys_set_present vs1 id v0 _ Eg).
Qed.

(** X16.  Every name the parser extracts has the shape its line pattern
    asks for: the raw section texts are filed under section names only;
    capabilities, intent, constraint and decision ids and severities are
    identifiers; validation ids are identifiers that may hold hyphens.
    *)
Theorem parseDil_wellNamed (raw : string) : wellNamed (parseDil raw).
Proof.
  unfold parseDil.
  destruct (scanHeader (Js.splitLines raw) 0) as [v is1].
  set (s := scanLines 0 (Js.splitLines raw) _).
  assert (H : wellNamed (spec s)).
  { unfold s. apply (scanLines_preserves wellNamed).
    - intros i l s0. apply scanLine_wellNamed.
    - cbn [spec]. unfold wellNamed.
      cbn [sections_raw capabilities intents constraints decisions
           validations JsMap.keys JsMap.values map].
      repeat split; constructor. }
  destruct (negb (inSystem s)); [|exact H].
  exact H.
Qed.

End NameFacts.

(* ================================================================== *)
(** * The brace depth of the section scan *)
(* ================================================================== *)

Module DepthFacts.
Import Regex Parse ParseSpec ParseShape.

Lemma parseSectionLine_cursor (rawLine t : string) (s : Scan) :
  inSystem (parseSectionLine rawLine t s) = inSystem s
  /\ braceDepth (parseSectionLine rawLine t s) = braceDepth s
  /\ currentSection (parseSectionLine rawLine t s) = currentSection s
  /\ sectionDepth (parseSectionLine rawLine t s) = sectionDepth s.
Proof.
  unfold parseSectionLine.
  destruct (currentSection s) eqn:E;
    try (repeat split; cbn; congruence).
  - destruct (parseDecisionLine _ _ _). repeat split; cbn; congruence.
  - destruct (parseValidationLine _ _ _). repeat split; cbn; congruence.
Qed.

(** X17.  The depth the scan keeps is the balance of the braces it has
    read, comments left out: inside the system every line adds its
    opening braces and takes off its closing ones, and the scan stops
    exactly when the depth is no longer positive; the line that opens
    the system sets the depth to its own balance without stopping the
    scan, and every other line before it is skipped. After the stop no
    line is read. *)
Theorem depth_is_brace_balance (i : Z) (l : string) (s : Scan) :
  let s' := fst (scanLine i l s) in
  let stop := snd (scanLine i l s) in
  (inSystem s = true ->
   inSystem s' = true
   /\ braceDepth s' = (braceDepth s + braceDelta (stripComments l))%Z
   /\ stop = (braceDepth s' <=? 0)%Z)
  /\ (inSystem s = false -> opensSystem l = true ->
      inSystem s' = true
      /\ braceDepth s' = (braceDepth s + braceDelta (stripComments l))%Z
      /\ spec s' = spec s /\ stop = false)
  /\ (inSystem s = false -> opensSystem l = false ->
      s' = s /\ stop = false)
  /\ (stop = true -> forall rest, scanLines i (l :: rest) s = s').
Proof.
  intros s' stop.
  assert (Hstop : stop = true ->
                  forall rest, scanLines i (l :: rest) s = s').
  { intros H rest. cbn [scanLines]. unfold s', stop in *.
    destruct (scanLine i l s) as [s1 b]. cbn [fst snd] in *.
    now rewrite H. }
  split; [|split; [|split; [|exact Hstop]]]; clear Hstop;
    unfold s', stop, scanLine, opensSystem; intros Hin; rewrite Hin;
    cbn [negb].
  - set (s1 := if (braceDepth s =? 1)%Z then _ else s).
    assert (H1 : inSystem s1 = true /\ braceDepth s1 = braceDepth s).
    { unfold s1. destruct (braceDepth s =? 1)%Z; [|now split].
      destruct (match1 re_section _); now split. }
    destruct H1 as [H1 H1'].
    set (s2 := if negb (section_eqb (currentSection s1) unknown_s)
               then _ else s1).
    assert (H2 : inSystem s2 = true /\ braceDepth s2 = braceDepth s).
    { unfold s2.
      destruct (negb (section_eqb (currentSection s1) unknown_s));
        [|now split].
      destruct (parseSectionLine_cursor
                  l (Js.trim (stripComments l)) s1) as [E1 [E2 _]].
      split; congruence. }
    destruct H2 as [H2 H2'].
    cbn [fst snd].
    match goal with
    | |- context [if ?b then _ else _] => destruct b
    end; cbn [inSystem braceDepth]; rewrite H2, H2'; repeat split.
  - destruct (exec re_system (stripComments l)); [|discriminate].
    intros _. cbn [fst snd inSystem braceDepth spec]. repeat split.
  - destruct (exec re_system (stripComments l)); [discriminate|].
    intros _. now split.
Qed.

Lemma depth_is_brace_balance_witness :
  braceDepth (fst (scanLine 7 "  } # closes { the system"
                            (mkScan (blank "DIL:spec v0" "S" EmptyString [])
                                    true 1 unknown_s (-1) (-1) None None)))
  = 0%Z.
Proof.
  exact (proj1 (proj2 (proj1 (depth_is_brace_balance
                                7 "  } # closes { the system"
                                (mkScan (blank "DIL:spec v0" "S"
                                               EmptyString [])
                                        true 1 unknown_s (-1) (-1)
                                        None None))
                             eq_refl))).
Defined.

End DepthFacts.

(* ================================================================== *)
(** * Field lines of decisions and validations *)
(* ================================================================== *)

Module LineFacts.
Import Regex Text Lexis Parse ParseSpec ParseShape IdShape RegexFacts
       TextFacts MatchFacts ReaderFacts ParserFacts NameFacts.

Lemma stripPrefix_self (w rest : string) :
  stripPrefix w (w ++ rest) = Some rest.
Proof.
  induction w as [|c w IH]; [reflexivity|].
  cbn [append stripPrefix]. now rewrite Ascii.eqb_refl.
Qed.

Lemma all_space (ws : string) : all Js.isSpace ws = allSpace ws.
Proof. induction ws as [|c ws IH]; cbn; [reflexivity | now rewrite IH]. Qed.

(** A field line [name: value]: the group captures the value. *)
Lemma field_capture (name ws : string) (c : ascii) (v : string) :
  allSpace ws = true ->
  Js.isSpace c = false -> all Js.isDot (String c v) = true ->
  match1 (re_field name) (name ++ String ":" (ws ++ String c v))
  = Some (String c v).
Proof.
  intros Hws Hc Hv. unfold match1, re_field. cbn [seq].
  rewrite exec_bol, rmatch_seq, rmatch_lit, stripPrefix_self.
  rewrite rmatch_seq, rmatch_star.
  rewrite (star_stop Js.isSpace _ EmptyString
                     (String ":" (ws ++ String c v))
                     (mkFound [] (pushed v (c :: pushed ws
                                     (":"%char :: pushed name [])),
                                  EmptyString)
                              [(1%nat, String c v)]));
    [reflexivity | reflexivity | reflexivity |].
  cbn [pushed]. rewrite rmatch_seq, rmatch_chr, Ascii.eqb_refl.
  rewrite rmatch_seq, rmatch_star.
  apply (star_stop Js.isSpace _ ws (String c v));
    [now rewrite all_space | exact Hc |].
  rewrite rmatch_seq.
  cbn [rmatch snd fst].
  cbn [all] in Hv. apply andb_true_iff in Hv. destruct Hv as [Hd Hv].
  rewrite Hd.
  rewrite <- (append_nil_r v) at 1.
  apply (star_stop Js.isDot _ v EmptyString); [exact Hv | exact I |].
  cbn [star fst snd].
  change (pushed v (c :: pushed ws (":"%char :: pushed name [])))
    with (pushed (String c v) (pushed ws (":"%char :: pushed name []))).
  now rewrite captured_pushed.
Qed.

Lemma bracketed_dots (items : list string) :
  Forall (fun x => solid x = true) items ->
  all Js.isDot (bracketed items) = true.
Proof.
  intros Hs. unfold bracketed. cbn [append all]. rewrite all_app.
  destruct items as [|x r]; [reflexivity|].
  destruct (join_solid (x :: r) Hs) as [_ [_ H]]; [discriminate|].
  now rewrite H.
Qed.

Lemma renders_solid (items ids : list string) :
  Forall (fun id => isIdent id = true) ids ->
  Forall2 renders items ids ->
  Forall (fun x => solid x = true) items /\ map unquote items = ids.
Proof.
  intros Hi Hr. induction Hr as [|it id its ids Hit Hits IH].
  - split; [constructor | reflexivity].
  - apply Forall_cons_iff in Hi. destruct Hi as [Hid Hids].
    destruct (unquote_renders it id Hid Hit) as [H1 H2].
    destruct (IH Hids) as [H3 H4].
    split; [now constructor|]. cbn [map]. now rewrite H2, H4.
Qed.

(** X18.  Inside a decision, a line [supports: [...]] or [respects:
    [...]] with a list of identifiers replaces the list of the current
    decision by these identifiers and leaves its other fields as they
    are; before the first decision of a section such a line is ignored.
    *)
Theorem decision_field_lines (ds : JsMap.t ParsedDecision)
        (id ws : string) (d0 : ParsedDecision) (items ids : list string) :
  JsMap.get ds id = Some d0 -> id <> EmptyString ->
  allSpace ws = true ->
  Forall (fun x => isIdent x = true) ids -> Forall2 renders items ids ->
  parseDecisionLine ("supports:" ++ ws ++ bracketed items) ds (Some id)
  = (JsMap.set ds id (mkDecision (decision_id d0) ids (respects d0)),
     Some id)
  /\ parseDecisionLine ("respects:" ++ ws ++ bracketed items) ds (Some id)
     = (JsMap.set ds id (mkDecision (decision_id d0) (supports d0) ids),
        Some id)
  /\ parseDecisionLine ("supports:" ++ ws ++ bracketed items) ds None
     = (ds, None).
Proof.
  intros Hg Hne Hws Hi Hr.
  destruct (renders_solid items ids Hi Hr) as [Hs Hu].
  pose proof (bracketed_dots items Hs) as Hd.
  pose proof (items_back items Hs) as Hb. rewrite Hu in Hb.
  assert (Ht : Js.truthy id = true) by now apply RuleFacts.truthy_iff.
  unfold bracketed in Hd.
  change ("[" ++ Js.join ", " items ++ "]")%string
    with (String "[" (Js.join ", " items ++ "]")) in Hd.
  pose proof (field_capture "supports" ws "[" _ Hws eq_refl Hd) as Hsup.
  pose proof (field_capture "respects" ws "[" _ Hws eq_refl Hd) as Hres.
  change (String "[" (Js.join ", " items ++ "]"))
    with (bracketed items) in Hsup, Hres.
  change ("supports" ++ String ":" (ws ++ bracketed items))%string
    with ("supports:" ++ ws ++ bracketed items)%string in Hsup.
  change ("respects" ++ String ":" (ws ++ bracketed items))%string
    with ("respects:" ++ ws ++ bracketed items)%string in Hres.
  assert (N1 : forall t, match1 re_decision ("supports:" ++ t) = None).
  { intros t. apply (ParseFacts.match1_none_prefix "decision"). reflexivity. }
  assert (N2 : forall t, match1 re_decision ("respects:" ++ t) = None).
  { intros t. apply (ParseFacts.match1_none_prefix "decision"). reflexivity. }
  assert (N3 : forall t, match1 (re_field "respects") ("supports:" ++ t)
                         = None).
  { intros t. apply (ParseFacts.match1_none_prefix "respects"). reflexivity. }
  assert (N4 : forall t, match1 (re_field "supports") ("respects:" ++ t)
                         = None).
  { intros t. apply (ParseFacts.match1_none_prefix "supports"). reflexivity. }
  unfold parseDecisionLine.
  rewrite N1, N2, N3, N4, Hsup, Hres, Ht, Hg, Hb.
  repeat split.
Qed.

Lemma decision_field_lines_witness :
  parseDecisionLine ("supports:" ++ " " ++ bracketed ["I1"; dquoted "I2"])
                    [("D1", mkDecision "D1" ["I9"] ["C1"])] (Some "D1")
  = ([("D1", mkDecision "D1" ["I1"; "I2"] ["C1"])], Some "D1").
Proof.
  apply (decision_field_lines [("D1", mkDecision "D1" ["I9"] ["C1"])]
                              "D1" " " (mkDecision "D1" ["I9"] ["C1"])
                              ["I1"; dquoted "I2"] ["I1"; "I2"]).
  - reflexivity.
  - discriminate.
  - reflexivity.
  - repeat (constructor; [reflexivity|]). constructor.
  - constructor; [left; reflexivity|].
    constructor; [right; left; reflexivity | constructor].
Defined.

(** X19.  Inside a validation, a line [requires_capability: NAME], the
    name bare or between quotes, sets the capability the current
    validation requires; before the first validation of a section the
    line is ignored. *)
Theorem capability_field_line (vs : JsMap.t ParsedValidation)
        (id ws item cap : string) (v0 : ParsedValidation) :
  JsMap.get vs id = Some v0 -> id <> EmptyString ->
  allSpace ws = true ->
  isIdent cap = true -> renders item cap ->
  parseValidationLine ("requires_capability:" ++ ws ++ item) vs (Some id)
  = (JsMap.set vs id (mkValidation (validation_id v0) (Some cap)), Some id)
  /\ parseValidationLine ("requires_capability:" ++ ws ++ item) vs None
     = (vs, None).
Proof.
  intros Hg Hne Hws Hi Hr.
  destruct (unquote_renders item cap Hi Hr) as [Hs _].
  destruct (solid_parts item Hs) as [Hn [Hsp [Hdot _]]].
  destruct item as [|c item]; [congruence|].
  assert (Hc : Js.isSpace c = false).
  { cbn [all] in Hsp. apply andb_true_iff in Hsp. destruct Hsp as [Hc _].
    now apply negb_true_iff in Hc. }
  pose proof (field_capture "requires_capability" ws c item Hws Hc Hdot)
    as Hcap.
  change ("requires_capability" ++ String ":" (ws ++ String c item))%string
    with ("requires_capability:" ++ ws ++ String c item)%string in Hcap.
  assert (N1 : forall t,
             match1 re_validate ("requires_capability:" ++ t) = None).
  { intros t. apply (ParseFacts.match1_none_prefix "validate"). reflexivity. }
  assert (Ht : Js.truthy id = true) by now apply RuleFacts.truthy_iff.
  unfold parseValidationLine.
  rewrite N1, Hcap, Ht, Hg, (value_reads _ cap Hi Hr).
  split; reflexivity.
Qed.

Lemma capability_field_line_witness :
  parseValidationLine ("requires_capability:" ++ " " ++ dquoted "probe")
                      [("V1", mkValidation "V1" None)] (Some "V1")
  = ([("V1", mkValidation "V1" (Some "probe"))], Some "V1").
Proof.
  apply (capability_field_line [("V1", mkValidation "V1" None)]
                               "V1" " " (dquoted "probe") "probe"
                               (mkValidation "V1" None)).
  - reflexivity.
  - discriminate.
  - reflexivity.
  - reflexivity.
  - right; left; reflexivity.
Defined.

End LineFacts.

(* ================================================================== *)
(** * Normal forms of the emitter *)
(* ================================================================== *)

Module EmitterFacts.
Import Report ReportSpec Order ReportFacts EmitShape.

Lemma distinct_spec (ks : list string) : distinct ks = true <-> NoDup ks.
Proof.
  induction ks as [|k ks IH]; cbn [distinct].
  - split; [constructor | reflexivity].
  - rewrite andb_true_iff, negb_true_iff, IH, NoDup_cons_iff.
    rewrite <- not_true_iff_false, RuleFacts.includes_iff. reflexivity.
Qed.

Lemma keysDistinct_obj (fs : obj) :
  keysDistinct (JObj fs) = true
  <-> NoDup (map fst fs)
      /\ Forall (fun kv => keysDistinct (snd kv) = true) fs.
Proof.
  cbn [keysDistinct].
  rewrite andb_true_iff, distinct_spec, forallb_forall, Forall_forall.
  reflexivity.
Qed.

Lemma keysDistinct_arr (xs : list json) :
  keysDistinct (JArr xs) = true
  <-> Forall (fun x => keysDistinct x = true) xs.
Proof.
  cbn [keysDistinct]. rewrite forallb_forall, Forall_forall. reflexivity.
Qed.

Section AnyCollation.
Variable lc : string -> string -> comparison.

Lemma variant_of_itself (v : json) :
  keysDistinct v = true -> keyVariant (withoutProto v) (deepSortKeys lc v).
Proof.
  induction v as [ | b | s | xs IH | fs IH] using json_induction;
    intros Hd; [constructor | constructor | constructor | |].
  - apply keysDistinct_arr in Hd. rewrite deepSortKeys_arr.
    cbn [withoutProto]. constructor.
    induction xs as [|x xs IHxs]; [constructor|].
    apply Forall_cons_iff in IH, Hd. destruct IH as [I1 I2], Hd as [D1 D2].
    cbn [map]. constructor; [now apply I1 | now apply IHxs].
  - apply keysDistinct_obj in Hd. destruct Hd as [Hn Hd].
    rewrite deepSortKeys_obj. cbn [withoutProto].
    pose proof (deepSortKeys_perm lc fs Hn) as Hp.
    unfold sortedValues in Hp at 2.
    rewrite (filter_keys ownKey) in Hp by reflexivity.
    rewrite (filter_keys ownKey) by reflexivity.
    apply Permutation_map_inv in Hp.
    destruct Hp as [m [Hm Hp]].
    apply (kv_obj _ (map (fun kv => (fst kv, withoutProto (snd kv))) m));
      [now apply Permutation_map|].
    rewrite Hm.
    assert (Hin : forall kv, In kv m -> In kv fs).
    { intros kv Hkv.
      apply (Permutation_in _ (Permutation_sym Hp)) in Hkv.
      now apply filter_In in Hkv. }
    clear Hm Hp. induction m as [|kv m IHm]; [constructor|].
    cbn [map]. constructor.
    + split; [reflexivity|]. cbn [snd].
      apply (proj1 (Forall_forall _ _) IH); [apply Hin; now left|].
      apply (proj1 (Forall_forall _ _) Hd). apply Hin. now left.
    + apply IHm. intros x Hx. apply Hin. now right.
Qed.

Lemma protoFree_fixed (v : json) : protoFree v = true -> withoutProto v = v.
Proof.
  induction v as [ | b | s | xs IH | fs IH] using json_induction;
    try reflexivity; cbn [protoFree withoutProto]; intros Hf; f_equal.
  - rewrite forallb_forall in Hf. rewrite <- (map_id xs) at 2.
    apply map_ext_in. intros x Hx.
    apply (proj1 (Forall_forall _ _) IH x Hx). now apply Hf.
  - induction fs as [|[k w] fs IHfs]; [reflexivity|].
    cbn [forallb fst snd] in Hf. apply andb_true_iff in Hf.
    destruct Hf as [Hkw Hf]. apply andb_true_iff in Hkw.
    destruct Hkw as [Hk Hw]. apply Forall_cons_iff in IH.
    destruct IH as [I1 I2]. cbn [map filter fst snd]. rewrite Hk.
    cbn [snd] in I1. rewrite (I1 Hw). f_equal. now apply IHfs.
Qed.

(** X20.  [deepSortKeys] drops the properties named [__proto__] and
    reorders the others: whatever the collation, the result is the
    value without these properties, with the keys of its objects in
    another order.  No other property is dropped, none is added or
    changed; a value without such a property is only reordered. *)
Theorem deepSortKeys_only_reorders (v : json) :
  keysDistinct v = true ->
  keyVariant (withoutProto v) (deepSortKeys lc v)
  /\ keysDistinct (deepSortKeys lc v) = true
  /\ protoFree (deepSortKeys lc v) = true
  /\ (protoFree v = true -> keyVariant v (deepSortKeys lc v)).
Proof.
  intros Hd. split; [now apply variant_of_itself|].
  split; [|split].
  - induction v as [ | b | s | xs IH | fs IH] using json_induction;
      try reflexivity.
    + apply keysDistinct_arr in Hd. rewrite deepSortKeys_arr.
      apply keysDistinct_arr. apply Forall_forall. intros y Hy.
      apply in_map_iff in Hy. destruct Hy as [x [<- Hx]].
      apply (proj1 (Forall_forall _ _) IH x Hx).
      apply (proj1 (Forall_forall _ _) Hd x Hx).
    + apply keysDistinct_obj in Hd. destruct Hd as [Hn Hd].
      rewrite deepSortKeys_obj. apply keysDistinct_obj.
      pose proof (deepSortKeys_perm lc fs Hn) as Hp.
      split.
      * eapply Permutation_NoDup;
          [apply Permutation_map, Permutation_sym, Hp|].
        rewrite keys_filter, sortedValues_keys. now apply NoDup_filter.
      * apply Forall_forall. intros kv Hkv.
        apply (Permutation_in _ Hp) in Hkv. apply filter_In in Hkv.
        destruct Hkv as [Hkv _]. unfold sortedValues in Hkv.
        apply in_map_iff in Hkv. destruct Hkv as [kv0 [<- Hkv0]].
        cbn [snd].
        apply (proj1 (Forall_forall _ _) IH kv0 Hkv0).
        apply (proj1 (Forall_forall _ _) Hd kv0 Hkv0).
  - induction v as [ | b | s | xs IH | fs IH] using json_induction;
      try reflexivity.
    + apply keysDistinct_arr in Hd. rewrite deepSortKeys_arr.
      cbn [protoFree]. apply forallb_forall. intros y Hy.
      apply in_map_iff in Hy. destruct Hy as [x [<- Hx]].
      apply (proj1 (Forall_forall _ _) IH x Hx).
      apply (proj1 (Forall_forall _ _) Hd x Hx).
    + apply keysDistinct_obj in Hd. destruct Hd as [Hn Hd].
      rewrite deepSortKeys_obj. cbn [protoFree].
      pose proof (deepSortKeys_perm lc fs Hn) as Hp.
      apply forallb_forall. intros kv Hkv.
      apply (Permutation_in _ Hp) in Hkv. apply filter_In in Hkv.
      destruct Hkv as [Hkv Hk]. rewrite Hk. cbn [andb].
      unfold sortedValues in Hkv.
      apply in_map_iff in Hkv. destruct Hkv as [kv0 [<- Hkv0]].
      cbn [snd].
      apply (proj1 (Forall_forall _ _) IH kv0 Hkv0).
      apply (proj1 (Forall_forall _ _) Hd kv0 Hkv0).
  - intros Hf. rewrite <- (protoFree_fixed v Hf) at 1.
    now apply variant_of_itself.
Qed.

(** ** Keys that are not array indices *)

Lemma assemble_plain (values : obj) (keys : list string) :
  NoDup keys ->
  forallb plainKey keys = true ->
  forallb ownKey keys = true ->
  forall out,
    (forall k, In k keys -> ~ In k (map fst out)) ->
    fold_left (fun o k => objSet o k (objGet values k)) keys out
    = out ++ map (fun k => (k, objGet values k)) keys.
Proof.
  induction 1 as [|k keys Hk Hn IH]; intros Hp Ho out Hout;
    cbn [fold_left map].
  - now rewrite app_nil_r.
  - cbn [forallb] in Hp, Ho. apply andb_true_iff in Hp, Ho.
    destruct Hp as [Hpk Hp], Ho as [Hok Ho].
    assert (Hhas : JsMap.has out k = false).
    { apply not_true_iff_false. rewrite has_keys. apply Hout. now left. }
    assert (Hset : objSet out k (objGet values k)
                   = out ++ [(k, objGet values k)]).
    { rewrite (objSet_own out k _ Hok), Hhas. unfold plainKey in Hpk.
      now destruct (arrayIndex k). }
    rewrite Hset, (IH Hp Ho).
    + now rewrite <- app_assoc.
    + intros k' Hk' Hin. rewrite map_app in Hin. apply in_app_or in Hin.
      destruct Hin as [Hin|[<-|[]]].
      * apply (Hout k'); [now right | exact Hin].
      * exact (Hk Hk').
Qed.

Lemma get_sortedValues (fs : obj) (k : string) :
  objGet (sortedValues lc fs) k = deepSortKeys lc (objGet fs k).
Proof.
  unfold objGet, sortedValues.
  induction fs as [|[k' v'] fs IH]; [reflexivity|].
  cbn [map JsMap.get fst snd]. destruct (String.eqb k k'); [reflexivity|].
  exact IH.
Qed.

End AnyCollation.

Lemma apart_distinct (lc : string -> string -> comparison) (v : json) :
  Consistent lc -> keysApart lc v = true -> keysDistinct v = true.
Proof.
  intros Hc.
  induction v as [ | b | s | xs IH | fs IH] using json_induction;
    try reflexivity; cbn [keysApart]; intros Ha.
  - apply keysDistinct_arr. rewrite forallb_forall in Ha.
    apply Forall_forall. intros x Hx.
    apply (proj1 (Forall_forall _ _) IH x Hx). now apply Ha.
  - apply andb_true_iff in Ha. destruct Ha as [Hk Hv].
    apply keysDistinct_obj. split.
    + now destruct (apart_spec lc Hc _ Hk).
    + rewrite forallb_forall in Hv. apply Forall_forall. intros kv Hkv.
      apply (proj1 (Forall_forall _ _) IH kv Hkv). now apply Hv.
Qed.

(** ** Values without [__proto__] sort like the values themselves *)

Lemma apart_filter (lc : string -> string -> comparison)
      (p : string -> bool) (ks : list string) :
  apart lc ks = true -> apart lc (filter p ks) = true.
Proof.
  induction ks as [|k ks IH]; [reflexivity|].
  cbn [apart filter]. rewrite andb_true_iff. intros [Hk Hks].
  destruct (p k); [|now apply IH].
  cbn [apart]. rewrite (IH Hks), andb_true_r.
  rewrite forallb_forall in *. intros k' Hk'. apply Hk.
  now apply filter_In in Hk'.
Qed.

Lemma keysApart_withoutProto (lc : string -> string -> comparison)
      (v : json) :
  keysApart lc v = true -> keysApart lc (withoutProto v) = true.
Proof.
  induction v as [ | b | s | xs IH | fs IH] using json_induction;
    try reflexivity; cbn [keysApart withoutProto]; intros Ha.
  - rewrite forallb_forall in *. intros y Hy.
    apply in_map_iff in Hy. destruct Hy as [x [<- Hx]].
    apply (proj1 (Forall_forall _ _) IH x Hx). now apply Ha.
  - apply andb_true_iff in Ha. destruct Ha as [Hk Hv].
    apply andb_true_iff. split.
    + rewrite keys_filter, map_map. cbn [fst]. now apply apart_filter.
    + rewrite forallb_forall in *. intros kv Hkv.
      apply filter_In in Hkv. destruct Hkv as [Hkv _].
      apply in_map_iff in Hkv. destruct Hkv as [kv0 [<- Hkv0]]. cbn [snd].
      apply (proj1 (Forall_forall _ _) IH kv0 Hkv0). now apply Hv.
Qed.

Lemma get_pruned (lc : string -> string -> comparison) (fs : obj)
      (k : string) :
  Forall (fun kv => deepSortKeys lc (withoutProto (snd kv))
                    = deepSortKeys lc (snd kv)) fs ->
  ownKey k = true ->
  objGet (sortedValues lc
            (filter (fun kv => ownKey (fst kv))
                    (map (fun kv => (fst kv, withoutProto (snd kv))) fs)))
         k
  = objGet (sortedValues lc fs) k.
Proof.
  intros Hfs Hk. unfold objGet, sortedValues.
  induction Hfs as [|[k' v'] fs Hv _ IH]; [reflexivity|].
  cbn [map filter fst snd JsMap.get].
  destruct (ownKey k') eqn:Ek'; cbn [map JsMap.get fst snd].
  - destruct (String.eqb k k'); [exact Hv | exact IH].
  - destruct (String.eqb k k') eqn:E; [|exact IH].
    apply String.eqb_eq in E. congruence.
Qed.

Lemma deepSortKeys_withoutProto (lc : string -> string -> comparison)
      (v : json) :
  Consistent lc ->
  deepSortKeys lc (withoutProto v) = deepSortKeys lc v.
Proof.
  intros Hc.
  induction v as [ | b | s | xs IH | fs IH] using json_induction;
    try reflexivity.
  - cbn [withoutProto]. rewrite !deepSortKeys_arr, map_map. f_equal.
    apply map_ext_in. intros x Hx.
    apply (proj1 (Forall_forall _ _) IH x Hx).
  - cbn [withoutProto]. rewrite !deepSortKeys_obj. f_equal.
    unfold JsMap.keys. rewrite keys_filter, map_map. cbn [fst].
    rewrite (SortFacts.sort_filter lc Hc).
    unfold assemble at 2. rewrite assemble_own.
    fold (assemble (filter ownKey (Js.sort lc (map fst fs)))
                   (sortedValues lc fs)).
    apply assemble_ext_in. intros k Hk. apply filter_In in Hk.
    now apply get_pruned.
Qed.

(** X21.  Sorting the keys twice is sorting them once, for a consistent
    collation that tells apart the keys of every object. *)
Theorem deepSortKeys_idempotent (lc : string -> string -> comparison)
        (v : json) :
  Consistent lc -> keysApart lc v = true ->
  deepSortKeys lc (deepSortKeys lc v) = deepSortKeys lc v.
Proof.
  intros Hc Ha. rewrite <- (deepSortKeys_withoutProto lc v Hc) at 2.
  symmetry.
  apply (deepSortKeys_variant lc Hc _ (keysApart_withoutProto lc v Ha)).
  apply variant_of_itself. now apply (apart_distinct lc).
Qed.

(** X22.  The properties of a sorted object come out in the order the
    collation gives their keys when no key is an array index; a
    property named [__proto__] does not come out. *)
Theorem plain_keys_come_out_sorted (lc : string -> string -> comparison)
        (fs : obj) :
  Consistent lc ->
  distinct (JsMap.keys fs) = true ->
  forallb plainKey (JsMap.keys fs) = true ->
  let keys := filter ownKey (Js.sort lc (JsMap.keys fs)) in
  deepSortKeys lc (JObj fs)
  = JObj (map (fun k => (k, deepSortKeys lc (objGet fs k))) keys)
  /\ ascending lc keys
  /\ Permutation keys (filter ownKey (JsMap.keys fs)).
Proof.
  intros Hc Hd Hp keys. unfold keys.
  pose proof (SortFacts.sort_perm lc (JsMap.keys fs)) as Hs.
  split; [|split].
  - rewrite deepSortKeys_obj. unfold assemble. f_equal.
    apply distinct_spec in Hd.
    rewrite assemble_own, assemble_plain.
    + cbn [app]. apply map_ext. intros k. now rewrite get_sortedValues.
    + apply NoDup_filter.
      eapply Permutation_NoDup; [symmetry; exact Hs | exact Hd].
    + apply forallb_forall. intros k Hk. apply filter_In in Hk.
      apply (proj1 (forallb_forall _ _) Hp).
      eapply Permutation_in; [exact Hs | tauto].
    + apply filter_all.
    + intros k _ [].
  - apply (SortFacts.ascending_filter lc).
    now apply SortFacts.sort_ascending.
  - now apply filter_perm.
Qed.

Lemma plain_keys_come_out_sorted_witness :
  deepSortKeys Js.codeUnitCompare (JObj withProto)
  = JObj [("a", JNull); ("b", JNull)].
Proof.
  apply (proj1 (plain_keys_come_out_sorted
                  Js.codeUnitCompare withProto
                  SortFacts.codeUnit_consistent eq_refl eq_refl)).
Defined.

(** With array indices among the keys the order is not that of the
    collation. *)
Lemma index_keys_come_first :
  deepSortKeys Js.codeUnitCompare (JObj indexed)
  = JObj [("9", JNull); ("10", JNull); ("b", JNull)]
  /\ Js.sort Js.codeUnitCompare (JsMap.keys indexed) = ["10"; "9"; "b"].
Proof. split; reflexivity. Qed.



(** ** Normal forms *)

Lemma sort_sorted {A : Type} (cmp : A -> A -> comparison) (l : list A) :
  ascending cmp l -> Js.sort cmp l = l.
Proof.
  induction l as [|x l IH]; [reflexivity|].
  cbn [ascending Js.sort]. intros [Hx Hl]. rewrite (IH Hl).
  destruct l as [|y l]; [reflexivity|].
  cbn [Js.insert]. apply Forall_cons_iff in Hx. destruct Hx as [Hxy _].
  unfold le in Hxy. now destruct (cmp x y).
Qed.

Lemma option_map_id {A : Type} (x : option (list A)) :
  option_map (map (fun a : A => a)) x = x.
Proof. destruct x as [l|]; [|reflexivity]. cbn. now rewrite map_id. Qed.

Lemma normalizeError_id (e : StructuredError) : normalizeError e = e.
Proof.
  unfold normalizeError. cbv zeta. rewrite !option_map_id. now destruct e.
Qed.

Section Normal.
Variable lc : string -> string -> comparison.
Hypothesis Hc : Consistent lc.

(** X23.  [normalizeOutcome] sorts the targets and nothing else: they
    come out ascending and are the same targets; an empty reason is
    dropped; normalizing twice is normalizing once. *)
Theorem normalizeOutcome_sorts_targets (o : ValidationOutcome) :
  let n := normalizeOutcome lc o in
  ascending lc (targets n)
  /\ Permutation (targets n) (targets o)
  /\ validation_id n = validation_id o /\ status n = status o
  /\ evidence n = evidence o /\ notes n = notes o
  /\ reason n = match reason o with
                | Some EmptyString => None
                | r => r
                end
  /\ normalizeOutcome lc n = n.
Proof.
  intros n. unfold n, normalizeOutcome. cbv zeta.
  cbn [targets validation_id status evidence notes reason].
  rewrite !option_map_id.
  split; [apply (SortFacts.sort_ascending lc Hc)|].
  split; [apply SortFacts.sort_perm|].
  repeat (split; [reflexivity|]).
  split; [destruct (reason o) as [[|c r]|]; reflexivity|].
  rewrite (sort_sorted lc _ (SortFacts.sort_ascending lc Hc (targets o))).
  f_equal. destruct (reason o) as [[|c r]|]; reflexivity.
Qed.

Lemma normalizeOutcome_idem (o : ValidationOutcome) :
  normalizeOutcome lc (normalizeOutcome lc o) = normalizeOutcome lc o.
Proof.
  unfold normalizeOutcome. cbv zeta.
  cbn [targets validation_id status evidence notes reason].
  rewrite !option_map_id.
  rewrite (sort_sorted lc _ (SortFacts.sort_ascending lc Hc (targets o))).
  f_equal. destruct (reason o) as [[|c r]|]; reflexivity.
Qed.

Lemma map_fixed {A : Type} (f : A -> A) (l : list A) :
  (forall x, In x l -> f x = x) -> map f l = l.
Proof.
  intros H. rewrite <- (map_id l) at 2. now apply map_ext_in.
Qed.

Lemma map_normalizeError (es : list StructuredError) :
  map normalizeError es = es.
Proof. apply map_fixed. intros e _. apply normalizeError_id. Qed.

Lemma normalize_idem (r : CanonicalReport) :
  normalize lc (normalize lc r) = normalize lc r.
Proof.
  unfold normalize. cbv zeta.
  cbn [spec_version system_id state outcomes errors r_notes extensions].
  rewrite !option_map_id, !map_normalizeError.
  rewrite (map_fixed (normalizeOutcome lc)
                     (Js.sort (compareOutcomes lc)
                              (map (normalizeOutcome lc) (outcomes r)))).
  - rewrite (sort_sorted (compareOutcomes lc)
                          (Js.sort (compareOutcomes lc)
                                   (map (normalizeOutcome lc) (outcomes r))))
      by apply (SortFacts.sort_ascending _ (compareOutcomes_consistent lc Hc)).
    rewrite (sort_sorted (compareErrors lc)
                         (Js.sort (compareErrors lc) (errors r)))
      by apply (SortFacts.sort_ascending _ (compareErrors_consistent lc Hc)).
    reflexivity.
  - intros o Ho.
    apply (Permutation_in _ (SortFacts.sort_perm _ _)) in Ho.
    apply in_map_iff in Ho. destruct Ho as [o' [<- _]].
    apply normalizeOutcome_idem.
Qed.

(** X24.  The emitter loses nothing and orders everything: the outcomes
    it prints are the normalized outcomes of the report, each once, in
    ascending order of validation id and targets; the errors are the
    errors of the report, each once, in ascending order of code and
    refs; and a report already in this form is printed as it is. *)
Theorem emitter_sorts_and_keeps (r : CanonicalReport) :
  let n := normalize lc r in
  Permutation (outcomes n) (map (normalizeOutcome lc) (outcomes r))
  /\ ascending (compareOutcomes lc) (outcomes n)
  /\ Permutation (errors n) (errors r)
  /\ ascending (compareErrors lc) (errors n)
  /\ emitCanonicalReport lc n = emitCanonicalReport lc r.
Proof.
  intros n. unfold n.
  split; [apply SortFacts.sort_perm|].
  split; [apply (SortFacts.sort_ascending _ (compareOutcomes_consistent lc Hc))|].
  split.
  { unfold normalize. cbn [errors]. rewrite map_normalizeError.
    apply SortFacts.sort_perm. }
  split; [apply (SortFacts.sort_ascending _ (compareErrors_consistent lc Hc))|].
  unfold emitCanonicalReport. cbv zeta. now rewrite normalize_idem.
Qed.
End Normal.

Lemma deepSortKeys_only_reorders_witness :
  keyVariant (JObj [("b", JNull); ("a", JNull)])
             (JObj [("a", JNull); ("b", JNull)])
  /\ keyVariant (JObj indexed)
                (JObj [("9", JNull); ("10", JNull); ("b", JNull)]).
Proof.
  split.
  - exact (proj1 (deepSortKeys_only_reorders Js.codeUnitCompare
                                             (JObj withProto) eq_refl)).
  - exact (proj2 (proj2 (proj2
             (deepSortKeys_only_reorders Js.codeUnitCompare (JObj indexed)
                                         eq_refl)))
             eq_refl).
Defined.

Lemma deepSortKeys_idempotent_witness :
  deepSortKeys Js.codeUnitCompare
               (JObj [("9", JNull); ("10", JNull); ("b", JNull)])
  = JObj [("9", JNull); ("10", JNull); ("b", JNull)].
Proof.
  exact (deepSortKeys_idempotent Js.codeUnitCompare (JObj indexed)
                                 SortFacts.codeUnit_consistent eq_refl).
Defined.

Lemma normalizeOutcome_sorts_targets_witness :
  targets (normalizeOutcome Js.codeUnitCompare
             (mkOutcome "V-M1" unknown ["intents.I2"; "intents.I1"]
                        (Some EmptyString) None None))
  = ["intents.I1"; "intents.I2"]
  /\ ascending Js.codeUnitCompare ["intents.I1"; "intents.I2"].
Proof.
  split; [reflexivity|].
  exact (proj1 (normalizeOutcome_sorts_targets
                  Js.codeUnitCompare SortFacts.codeUnit_consistent
                  (mkOutcome "V-M1" unknown ["intents.I2"; "intents.I1"]
                             (Some EmptyString) None None))).
Defined.

Lemma emitter_sorts_and_keeps_witness :
  emitCanonicalReport Js.codeUnitCompare
                      (normalize Js.codeUnitCompare shuffledA)
  = emitCanonicalReport Js.codeUnitCompare shuffledA.
Proof.
  exact (proj2 (proj2 (proj2 (proj2
           (emitter_sorts_and_keeps Js.codeUnitCompare
                                    SortFacts.codeUnit_consistent
                                    shuffledA))))).
Defined.

End EmitterFacts.

(* ================================================================== *)
(** * Properties of the leak scan *)
(* ================================================================== *)

Module LeakFacts.
Import Regex Text Lexis ReportSpec Validate RuleSpec RegexFacts MatchFacts
       LeakShape.

Lemma rmatch_litI {R : Type} (w : string) :
  forall (t post : string) (pre : list ascii) (cs : caps)
         (k : pos -> caps -> option R),
    foldString t = foldString w ->
    rmatch (litI w) (pre, (t ++ post)%string) cs k = k (pushed t pre, post) cs.
Proof.
  induction w as [|c w IH]; intros t post pre cs k E.
  - destruct t; [reflexivity | discriminate E].
  - destruct t as [|d t]; [discriminate E|].
    cbn [foldString] in E. injection E as Ec Et.
    destruct w as [|c' w].
    + destruct t; [|discriminate Et].
      cbn [litI rmatch snd fst append pushed].
      now rewrite Ec, Ascii.eqb_refl.
    + change (litI (String c (String c' w)))
        with (Seq (ChrI c) (litI (String c' w))).
      cbn [rmatch snd fst append]. rewrite Ec, Ascii.eqb_refl.
      now rewrite IH.
Qed.

Lemma found_later (r : regex) (a s : string) :
  forall acc,
    matchAt r (pushed a acc, s) <> None ->
    searchFrom r acc (a ++ s) <> None.
Proof.
  induction a as [|c a IH]; intros acc H; cbn [append pushed] in *.
  - destruct s; cbn [searchFrom]; destruct (matchAt r _); congruence.
  - cbn [searchFrom]. destruct (matchAt r (acc, String c (a ++ s)));
      [discriminate|]. now apply IH.
Qed.

Lemma test_at (r : regex) (a s : string) :
  matchAt r (pushed a [], s) <> None -> test r (a ++ s) = true.
Proof.
  intros H. unfold test, exec.
  pose proof (found_later r a s [] H) as H'.
  destruct (searchFrom r [] (a ++ s)); congruence.
Qed.

Lemma pushed_head (s : string) (acc : list ascii) :
  match pushed s acc with
  | c :: _ => Js.isWord c
  | [] => false
  end
  = match s with
    | EmptyString => match acc with c :: _ => Js.isWord c | [] => false end
    | _ => endsWord s
    end.
Proof.
  revert acc. induction s as [|c s IH]; intros acc; [reflexivity|].
  cbn [pushed]. rewrite IH. destruct s; reflexivity.
Qed.

Lemma fold_word (c : ascii) : Js.isWord (Js.fold_case c) = Js.isWord c.
Proof. destruct c as [[] [] [] [] [] [] [] []]; reflexivity. Qed.

Lemma startsWord_fold (s : string) :
  startsWord (foldString s) = startsWord s.
Proof. destruct s; [reflexivity|]. cbn. apply fold_word. Qed.

Lemma endsWord_fold (s : string) : endsWord (foldString s) = endsWord s.
Proof.
  induction s as [|c s IH]; [reflexivity|].
  cbn [foldString endsWord]. destruct s as [|d s]; [apply fold_word|].
  exact IH.
Qed.

Lemma word_found (w t pre post : string) :
  w <> EmptyString ->
  startsWord w = true -> endsWord w = true ->
  sameUpToCase t w ->
  endsWord pre = false -> startsWord post = false ->
  test (seq [WordB; litI w; WordB]) (pre ++ t ++ post) = true.
Proof.
  intros Hne Hs He E Hpre Hpost. apply test_at.
  assert (Hts : startsWord t = true).
  { now rewrite <- startsWord_fold, E, startsWord_fold. }
  assert (Hte : endsWord t = true).
  { now rewrite <- endsWord_fold, E, endsWord_fold. }
  assert (Htn : t <> EmptyString) by (intros ->; discriminate Hts).
  unfold matchAt. cbn [seq rmatch].
  assert (B1 : atBoundary (pushed pre [], (t ++ post)%string) = true).
  { unfold atBoundary. cbn [fst snd]. rewrite pushed_head.
    destruct t as [|c t]; [congruence|]. cbn [append].
    cbn [startsWord] in Hts. rewrite Hts.
    destruct pre; [reflexivity | now rewrite Hpre]. }
  rewrite B1, (rmatch_litI w t post _ _ _ E).
  assert (B2 : atBoundary (pushed t (pushed pre []), post) = true).
  { unfold atBoundary. cbn [fst snd]. rewrite pushed_head.
    destruct t as [|c t]; [congruence|]. rewrite Hte.
    unfold startsWord in Hpost. destruct post; [reflexivity|].
    now rewrite Hpost. }
  rewrite B2. discriminate.
Qed.

(** X25.  A signal word, in any mix of upper and lower case, that stands
    in the text as a whole word is a leak wherever it stands, comments
    included; on a supported version the report is then invalid. *)
Theorem signal_word_leaks (w t pre post : string) :
  In w signalWords ->
  sameUpToCase t w ->
  endsWord pre = false -> startsWord post = false ->
  hasImplementationLeak (pre ++ t ++ post) = true
  /\ (forall p,
         supportedVersion p ->
         Parse.raw_text p = (pre ++ t ++ post)%string ->
         Report.state (fst (validateCore p)) = Report.invalid
         /\ snd (validateCore p) = 1%Z).
Proof.
  intros Hw E Hpre Hpost.
  assert (Hleak : hasImplementationLeak (pre ++ t ++ post) = true).
  { unfold hasImplementationLeak, signals. cbn [existsb].
    unfold signalWords in Hw. cbn [In] in Hw.
    destruct Hw as [<-|[<-|[<-|[<-|[<-|[]]]]]];
      match type of E with
      | sameUpToCase _ ?w0 =>
          rewrite (word_found w0 t pre post)
            by first [discriminate | reflexivity | assumption]
      end;
      rewrite ?orb_true_r; reflexivity. }
  split; [exact Hleak|].
  intros p Hv Hraw.
  destruct (RuleFacts.report_supported p Hv) as [_ Hs].
  unfold verdict, leaks in Hs. rewrite Hraw, Hleak in Hs. cbn [orb] in Hs.
  injection Hs as H1 H2. now split.
Qed.

(** ** The case of letters *)

Lemma fold_fold (c : ascii) :
  Js.fold_case (Js.fold_case c) = Js.fold_case c.
Proof. destruct c as [[] [] [] [] [] [] [] []]; reflexivity. Qed.

Lemma fold_space (c : ascii) : Js.isSpace (Js.fold_case c) = Js.isSpace c.
Proof. destruct c as [[] [] [] [] [] [] [] []]; reflexivity. Qed.

Lemma fold_digit (c : ascii) : Js.isDigit (Js.fold_case c) = Js.isDigit c.
Proof. destruct c as [[] [] [] [] [] [] [] []]; reflexivity. Qed.

Lemma star_fold {R S : Type} (p : ascii -> bool)
      (k : pos -> option R) (k' : pos -> option S) (rest : string) :
  (forall c, p (Js.fold_case c) = p c) ->
  (forall y, hit (k y) = hit (k' (foldPos y))) ->
  forall pre,
    hit (star p pre rest k)
    = hit (star p (map Js.fold_case pre) (foldString rest) k').
Proof.
  intros Hp Hk. induction rest as [|c rest IH]; intros pre.
  - cbn [star foldString]. apply (Hk (pre, EmptyString)).
  - cbn [star foldString]. rewrite Hp.
    pose proof (IH (c :: pre)) as H1. cbn [map] in H1.
    pose proof (Hk (pre, String c rest)) as H2.
    unfold foldPos in H2. cbn [fst snd foldString] in H2.
    destruct (p c); [|exact H2].
    destruct (star p (c :: pre) rest k),
      (star p (Js.fold_case c :: map Js.fold_case pre) (foldString rest) k');
      cbn [hit] in *; congruence.
Qed.

Lemma rmatch_fold {R S : Type} (r : regex) :
  caseBlind r ->
  forall (x : pos) (cs cs' : caps)
         (k : pos -> caps -> option R) (k' : pos -> caps -> option S),
    (forall y c1 c2, hit (k y c1) = hit (k' (foldPos y) c2)) ->
    hit (rmatch r x cs k) = hit (rmatch r (foldPos x) cs' k').
Proof.
  induction r as [ | c | c | p | a IHa b IHb | a IHa b IHb | a IHa | p | p
                 | n a IHa | | | ];
    intros Hb [pre s] cs cs' k k' Hk; cbn [caseBlind] in Hb;
    unfold foldPos; cbn [rmatch fst snd].
  - apply (Hk (pre, s)).
  - contradiction.
  - destruct s as [|d s]; [reflexivity|]. cbn [foldString].
    rewrite fold_fold.
    destruct (Ascii.eqb (Js.fold_case c) (Js.fold_case d)); [|reflexivity].
    apply (Hk (d :: pre, s)).
  - destruct s as [|d s]; [reflexivity|]. cbn [foldString]. rewrite Hb.
    destruct (p d); [|reflexivity]. apply (Hk (d :: pre, s)).
  - destruct Hb as [Ha Hb'].
    apply (IHa Ha (pre, s)). intros y c1 c2. now apply IHb.
  - destruct Hb as [Ha Hb'].
    pose proof (IHa Ha (pre, s) cs cs' k k' Hk) as H1.
    pose proof (IHb Hb' (pre, s) cs cs' k k' Hk) as H2.
    unfold foldPos in H1, H2. cbn [fst snd] in H1, H2.
    destruct (rmatch a (pre, s) cs k),
      (rmatch a (map Js.fold_case pre, foldString s) cs' k');
      cbn [hit] in *; congruence.
  - pose proof (IHa Hb (pre, s) cs cs' k k' Hk) as H1.
    pose proof (Hk (pre, s) cs cs') as H2.
    unfold foldPos in H1, H2. cbn [fst snd] in H1, H2.
    destruct (rmatch a (pre, s) cs k),
      (rmatch a (map Js.fold_case pre, foldString s) cs' k');
      cbn [hit] in *; congruence.
  - apply star_fold; [exact Hb|]. intros y. apply Hk.
  - destruct s as [|d s]; [reflexivity|]. cbn [foldString]. rewrite Hb.
    destruct (p d); [|reflexivity].
    apply (star_fold p _ _ s Hb (fun y => Hk y cs cs') (d :: pre)).
  - apply (IHa Hb (pre, s)). intros y c1 c2. apply Hk.
  - destruct pre; [apply (Hk ([], s)) | reflexivity].
  - destruct s; [apply (Hk (pre, EmptyString)) | reflexivity].
  - assert (Hat : atBoundary (map Js.fold_case pre, foldString s)
                  = atBoundary (pre, s)).
    { unfold atBoundary. cbn [fst snd].
      destruct pre, s; cbn [map foldString]; rewrite ?fold_word;
        reflexivity. }
    rewrite Hat. destruct (atBoundary (pre, s)); [|reflexivity].
    apply (Hk (pre, s)).
Qed.

Lemma test_fold (r : regex) (s : string) :
  caseBlind r -> test r (foldString s) = test r s.
Proof.
  intros Hb. unfold test, exec.
  assert (H : forall pre,
             hit (searchFrom r pre s)
             = hit (searchFrom r (map Js.fold_case pre) (foldString s))).
  { induction s as [|c s IH]; intros pre; cbn [searchFrom foldString].
    - pose proof (rmatch_fold r Hb (pre, EmptyString) [] []
                    (fun y cs => Some (mkFound pre y cs))
                    (fun y cs => Some (mkFound (map Js.fold_case pre) y cs))
                    (fun _ _ _ => eq_refl)) as H1.
      unfold matchAt. unfold foldPos in H1. cbn [fst snd foldString] in H1.
      destruct (rmatch r (pre, EmptyString) [] _),
        (rmatch r (map Js.fold_case pre, EmptyString) [] _);
        cbn [hit] in *; congruence.
    - pose proof (rmatch_fold r Hb (pre, String c s) [] []
                    (fun y cs => Some (mkFound pre y cs))
                    (fun y cs => Some (mkFound (map Js.fold_case pre) y cs))
                    (fun _ _ _ => eq_refl)) as H1.
      unfold matchAt. unfold foldPos in H1. cbn [fst snd foldString] in H1.
      pose proof (IH (c :: pre)) as H2. cbn [map] in H2.
      destruct (rmatch r (pre, String c s) [] _),
        (rmatch r (map Js.fold_case pre,
                   String (Js.fold_case c) (foldString s)) [] _);
        cbn [hit] in *; congruence. }
  specialize (H []). cbn [map] in H. unfold hit in H.
  destruct (searchFrom r [] s), (searchFrom r [] (foldString s));
    congruence.
Qed.

Lemma litI_blind (w : string) : caseBlind (litI w).
Proof.
  induction w as [|c w IH]; [exact I|].
  destruct w as [|d w]; [exact I|].
  change (litI (String c (String d w)))
    with (Seq (ChrI c) (litI (String d w))).
  cbn [caseBlind]. split; [exact I | exact IH].
Qed.

Lemma signals_blind : Forall caseBlind signals.
Proof.
  unfold signals.
  repeat (constructor;
          [cbn [seq caseBlind];
           repeat split;
           first [apply litI_blind | exact fold_space | exact fold_digit
                 | exact I]|]).
  constructor.
Qed.

(** X26.  The leak scan cannot tell the case of a letter: two texts that
    differ only in the case of ASCII letters are both leaks or both
    clean. *)
Theorem leak_scan_ignores_case (s t : string) :
  sameUpToCase s t ->
  hasImplementationLeak s = hasImplementationLeak t.
Proof.
  assert (H : forall u,
             hasImplementationLeak (foldString u) = hasImplementationLeak u).
  { intros u. unfold hasImplementationLeak.
    pose proof signals_blind as Hb.
    induction Hb as [|r rs Hr Hrs IH]; [reflexivity|].
    cbn [existsb]. now rewrite (test_fold r u Hr), IH. }
  intros E. unfold sameUpToCase in E. now rewrite <- (H s), E, H.
Qed.

Lemma leak_scan_ignores_case_witness :
  hasImplementationLeak "Rebalance the B-TREE"
  = hasImplementationLeak "rebalance the b-tree".
Proof. exact (leak_scan_ignores_case _ _ eq_refl). Defined.

Lemma signal_word_leaks_witness :
  hasImplementationLeak "# keep an lru cache" = true.
Proof.
  exact (proj1 (signal_word_leaks "LRU" "lru" "# keep an " " cache"
                  (or_intror (or_introl eq_refl)) eq_refl eq_refl eq_refl)).
Defined.

End LeakFacts.

(* ================================================================== *)
(** * The command line entry point *)
(* ================================================================== *)

Module CliFacts.
Import Report Validate EngineShape EngineFacts Cli.

Section Main.
Variable lc : string -> string -> comparison.
Variable readFileSync : string -> ReadResult.

(** X27.  A run either prints the usage on the error stream and nothing
    on the output stream, or prints one report, followed by a line feed,
    on the output stream and nothing on the error stream; the exit code
    is 0, 1 or 2 and always agrees with the state of the report that was
    printed. The usage is printed exactly when no path is given, with
    exit code 1. *)
Theorem main_exit_agrees_with_report (argv2 : option string) :
  let run := main lc readFileSync argv2 in
  ((argv2 = None \/ argv2 = Some EmptyString) /\ run = mkRun EmptyString usageLine 1)
  \/ (exists path r,
         argv2 = Some path /\ path <> EmptyString
         /\ stdout run = (emitCanonicalReport lc r ++ newline)%string
         /\ stderr run = EmptyString
         /\ agrees (exit_code run) (state r)
         /\ match readFileSync path with
            | ReadOk text => r = fst (validateCore (Parse.parseDil text))
            | ReadError message => r = unreadable path message
            end).
Proof.
  intros run. unfold run, main.
  destruct argv2 as [path|]; [|left; split; [now left | reflexivity]].
  destruct path as [|c path]; [left; split; [now right | reflexivity]|].
  cbn [Js.truthy negb]. right.
  destruct (readFileSync (String c path)) as [text|message] eqn:Er.
  - exists (String c path), (fst (validateCore (Parse.parseDil text))).
    rewrite Er. cbn [stdout stderr exit_code].
    split; [reflexivity|]. split; [discriminate|].
    split; [reflexivity|]. split; [reflexivity|]. split; [|reflexivity].
    unfold agrees.
    destruct (verdict_cases (Parse.parseDil text))
      as [[H1 [H2 _]]|[[H1 [H2 _]]|[H1 [H2 _]]]];
      rewrite H1, H2; repeat split; intros; try discriminate; congruence.
  - exists (String c path), (unreadable (String c path) message).
    rewrite Er. cbn [stdout stderr exit_code unreadable state].
    split; [reflexivity|]. split; [discriminate|].
    split; [reflexivity|]. split; [reflexivity|]. split; [|reflexivity].
    unfold agrees. repeat split; intros; try discriminate; congruence.
Qed.
End Main.

End CliFacts.
